(** * LRU memory manager: a shallow embedding of [lrumemorymanager.cpp]

    The arena is a fixed byte buffer.  Every allocation ("hunk") is a header
    placed inside the buffer, member of two circular doubly-linked rings that
    share the sentinel hunk at offset 0: the address ring ([prev_ptr] /
    [next_ptr]) and the recency ring ([least_recent_ptr] / [most_recent_ptr]).

    Modelling conventions.
    - A pointer into the arena is its byte offset from [mem_arena_ptr_], a [Z];
      a possibly-null pointer is an [option].  The address behind an offset
      is [mem_arena_ptr_] plus the offset; adding a [size_t] to a [uint8_t*]
      wraps around at [2^64] like the integer the address is ([ptr_add]),
      and pointers are compared by their addresses.
    - [size_t] is 64 bits wide; its arithmetic wraps modulo [2^64].
    - [sizeof(LRUMemoryHunk)] is 48 (one [size_t] and five pointers, LP64; the
      flexible array member [data_ptr] adds nothing and starts at offset 48).
    - The objects alive inside the arena are a finite map from offsets to
      header records; the caller-owned handles are a finite map from handle
      identities to the value of their [hunk_ptr_] field (absent = [nullptr]).
    - Operations are written in a state-and-error monad.  Dereferencing a null
      pointer or a pointer to no live header is [Undefined], and so is the
      construction of the sentinel in a block too small to hold it; a failed
      [Expects] and [std::abort] are [Abort]; a loop that exhausts its fuel
      is [OutOfFuel]. *)

From stdpp Require Import base gmap list.

Local Open Scope Z_scope.

(** ** Constants *)

Definition MEMORY_ALIGNMENT : Z := 16.
Definition ALIGNMENT_MASK : Z := MEMORY_ALIGNMENT - 1.

(** [sizeof(LRUMemoryHunk)] on an LP64 target. *)
Definition sizeof_LRUMemoryHunk : Z := 48.

(** Arithmetic on [size_t]: the value is reduced modulo [2^64]. *)
Definition size_t_modulus : Z := 2 ^ 64.
Definition wrap (x : Z) : Z := x mod size_t_modulus.

(** [p + n] for a [uint8_t*] [p] and a [size_t] [n].  The pointer is given
    by its offset from the arena base [mem_arena_ptr]; the sum is formed on
    the address, which wraps around at [2^64], and is given as an offset
    again. *)
Definition ptr_add (mem_arena_ptr p n : Z) : Z :=
  wrap (mem_arena_ptr + p + n) - mem_arena_ptr.

(** ** Data model *)

(** A caller-owned [LRUMemoryHandle] object is known by its identity, a
    [nat]; a [LRUMemoryHandle*] that may be null is an [option nat]. *)

Record LRUMemoryHunk := mkHunk {
  size : Z;
  handler_ptr : option nat;
  prev_ptr : option Z;
  next_ptr : option Z;
  least_recent_ptr : option Z;
  most_recent_ptr : option Z;
}.

(** A header as its default member initialisers leave it. *)
Definition fresh_hunk : LRUMemoryHunk := mkHunk 0 None None None None None.

Definition set_size (v : Z) (k : LRUMemoryHunk) : LRUMemoryHunk :=
  mkHunk v (handler_ptr k) (prev_ptr k) (next_ptr k) (least_recent_ptr k) (most_recent_ptr k).
Definition set_handler_ptr (v : option nat) (k : LRUMemoryHunk) : LRUMemoryHunk :=
  mkHunk (size k) v (prev_ptr k) (next_ptr k) (least_recent_ptr k) (most_recent_ptr k).
Definition set_prev_ptr (v : option Z) (k : LRUMemoryHunk) : LRUMemoryHunk :=
  mkHunk (size k) (handler_ptr k) v (next_ptr k) (least_recent_ptr k) (most_recent_ptr k).
Definition set_next_ptr (v : option Z) (k : LRUMemoryHunk) : LRUMemoryHunk :=
  mkHunk (size k) (handler_ptr k) (prev_ptr k) v (least_recent_ptr k) (most_recent_ptr k).
Definition set_least_recent_ptr (v : option Z) (k : LRUMemoryHunk) : LRUMemoryHunk :=
  mkHunk (size k) (handler_ptr k) (prev_ptr k) (next_ptr k) v (most_recent_ptr k).
Definition set_most_recent_ptr (v : option Z) (k : LRUMemoryHunk) : LRUMemoryHunk :=
  mkHunk (size k) (handler_ptr k) (prev_ptr k) (next_ptr k) (least_recent_ptr k) v.

(** The manager together with the memory it points into and the handles its
    hunks point back to. *)
Record LRUMemoryManager := mkManager {
  mem_total_size_ : Z;
  mem_allocated_size_ : Z;
  mem_arena_ptr_ : Z;
  arena : gmap Z LRUMemoryHunk;
  hunk_ptr_ : gmap nat Z;
}.

Definition with_arena (a : gmap Z LRUMemoryHunk) (m : LRUMemoryManager) : LRUMemoryManager :=
  mkManager (mem_total_size_ m) (mem_allocated_size_ m) (mem_arena_ptr_ m) a (hunk_ptr_ m).
Definition with_allocated (v : Z) (m : LRUMemoryManager) : LRUMemoryManager :=
  mkManager (mem_total_size_ m) v (mem_arena_ptr_ m) (arena m) (hunk_ptr_ m).
Definition with_handles (h : gmap nat Z) (m : LRUMemoryManager) : LRUMemoryManager :=
  mkManager (mem_total_size_ m) (mem_allocated_size_ m) (mem_arena_ptr_ m) (arena m) h.

(** ** The monad of operations *)

Inductive result (A : Type) : Type :=
  | Ok (a : A)
  | Abort
  | Undefined
  | OutOfFuel.
Arguments Ok {A} a.
Arguments Abort {A}.
Arguments Undefined {A}.
Arguments OutOfFuel {A}.

Definition M (A : Type) : Type := LRUMemoryManager → result (A * LRUMemoryManager).

Definition ret {A} (a : A) : M A := λ m, Ok (a, m).

Definition bind {A B} (c : M A) (k : A → M B) : M B :=
  λ m, match c m with
       | Ok (a, m') => k a m'
       | Abort => Abort
       | Undefined => Undefined
       | OutOfFuel => OutOfFuel
       end.

Notation "'do' x <- c ; k" := (bind c (λ x, k))
  (at level 10, x name, c at level 100, k at level 200,
   format "'[v' 'do'  x  <-  c ; '/' k ']'").
Notation "c ;;; k" := (bind c (λ _, k))
  (at level 100, k at level 200, right associativity).

Definition abort {A} : M A := λ _, Abort.
Definition undefined {A} : M A := λ _, Undefined.
Definition out_of_fuel {A} : M A := λ _, OutOfFuel.

(** [Expects(cond)]: the contract macro; a violated contract terminates. *)
Definition Expects (cond : bool) : M unit := if cond then ret tt else abort.

(** Use of a possibly-null pointer as an lvalue. *)
Definition deref {A} (p : option A) : M A :=
  match p with Some a => ret a | None => undefined end.

(** [p->field] as an rvalue: read one member of the header living at offset
    [p]. *)
Definition read {A} (field : LRUMemoryHunk → A) (p : Z) : M A :=
  λ m, match arena m !! p with
       | Some k => Ok (field k, m)
       | None => Undefined
       end.

(** [p->field = v]: update one member of the header living at offset [p]. *)
Definition store (p : Z) (f : LRUMemoryHunk → LRUMemoryHunk) : M unit :=
  λ m, match arena m !! p with
       | Some _ => Ok (tt, with_arena (alter f p (arena m)) m)
       | None => Undefined
       end.

(** [new (p) LRUMemoryHunk]: placement construction at offset [p]. *)
Definition placement_new (p : Z) : M unit :=
  λ m, Ok (tt, with_arena (<[p := fresh_hunk]> (arena m)) m).

(** [p->~LRUMemoryHunk()] together with poisoning of the region: the header
    stops being a live object. *)
Definition destroy (p : Z) : M unit :=
  λ m, Ok (tt, with_arena (delete p (arena m)) m).

Definition get_allocated : M Z := λ m, Ok (mem_allocated_size_ m, m).
Definition set_allocated (v : Z) : M unit := λ m, Ok (tt, with_allocated v m).
Definition get_total : M Z := λ m, Ok (mem_total_size_ m, m).
Definition get_arena_ptr : M Z := λ m, Ok (mem_arena_ptr_ m, m).

(** [handle_ptr->hunk_ptr_] as an rvalue and as an lvalue. *)
Definition get_hunk_ptr (h : nat) : M (option Z) := λ m, Ok (hunk_ptr_ m !! h, m).
Definition set_hunk_ptr (h : nat) (v : option Z) : M unit :=
  λ m, Ok (tt, with_handles (match v with
                             | Some p => <[h := p]> (hunk_ptr_ m)
                             | None => delete h (hunk_ptr_ m)
                             end) m).

(** ** The operations of [lrumemorymanager.cpp] *)

(** [get_head_hunk()]: the sentinel sits at the base of the arena. *)
Definition get_head_hunk : Z := 0.

(** The constructor.  [malloc_result] is what [std::malloc(mem_total_size_)]
    returns: the address of a block of that many bytes, or null, on which the
    constructor calls [std::abort].  The sentinel is constructed at the start
    of the block whatever the size of the block: in a block smaller than the
    header this writes past the end of the block. *)
Definition construct (mem_pool_size : Z) (malloc_result : option Z)
    : result LRUMemoryManager :=
  if 0 <? mem_pool_size then
    match malloc_result with
    | None => Abort
    | Some mem_arena_ptr =>
      if mem_pool_size <? sizeof_LRUMemoryHunk then Undefined
      else
        Ok (mkManager mem_pool_size sizeof_LRUMemoryHunk mem_arena_ptr
              {[ get_head_hunk :=
                   mkHunk sizeof_LRUMemoryHunk None
                     (Some get_head_hunk) (Some get_head_hunk)
                     (Some get_head_hunk) (Some get_head_hunk) ]}
              ∅)
    end
  else Abort.

Definition is_null {A} (p : option A) : bool :=
  match p with Some _ => false | None => true end.

Definition unlink_lru (hunk_ptr : Z) : M unit :=
  do mr <- read most_recent_ptr hunk_ptr;
  do lr <- read least_recent_ptr hunk_ptr;
  Expects (negb (is_null mr) && negb (is_null lr)) ;;;
  (* hunk_ptr->most_recent_ptr->least_recent_ptr = hunk_ptr->least_recent_ptr *)
  do mr <- read most_recent_ptr hunk_ptr;
  do mr <- deref mr;
  do lr <- read least_recent_ptr hunk_ptr;
  store mr (set_least_recent_ptr lr) ;;;
  (* hunk_ptr->least_recent_ptr->most_recent_ptr = hunk_ptr->most_recent_ptr *)
  do lr <- read least_recent_ptr hunk_ptr;
  do lr <- deref lr;
  do mr <- read most_recent_ptr hunk_ptr;
  store lr (set_most_recent_ptr mr) ;;;
  (* hunk_ptr->least_recent_ptr = hunk_ptr->most_recent_ptr = nullptr *)
  store hunk_ptr (set_most_recent_ptr None) ;;;
  store hunk_ptr (set_least_recent_ptr None).

Definition link_lru (hunk_ptr : Z) : M unit :=
  do mr <- read most_recent_ptr hunk_ptr;
  do lr <- read least_recent_ptr hunk_ptr;
  Expects (is_null mr && is_null lr) ;;;
  let head_hunk_ptr := get_head_hunk in
  (* head_hunk_ptr->most_recent_ptr->least_recent_ptr = hunk_ptr *)
  do mr <- read most_recent_ptr head_hunk_ptr;
  do mr <- deref mr;
  store mr (set_least_recent_ptr (Some hunk_ptr)) ;;;
  (* hunk_ptr->most_recent_ptr = head_hunk_ptr->most_recent_ptr *)
  do mr <- read most_recent_ptr head_hunk_ptr;
  store hunk_ptr (set_most_recent_ptr mr) ;;;
  (* hunk_ptr->least_recent_ptr = head_hunk_ptr *)
  store hunk_ptr (set_least_recent_ptr (Some head_hunk_ptr)) ;;;
  (* head_hunk_ptr->most_recent_ptr = hunk_ptr *)
  store head_hunk_ptr (set_most_recent_ptr (Some hunk_ptr)).

(** The block shared by both placement sites of [try_alloc]: construct the
    header at [where_], splice it into the address ring in front of
    [next_hunk_ptr], link it into the recency ring and account for it.  At the
    second site [next_hunk_ptr] is the sentinel. *)
Definition place (where_ sz : Z) (next_hunk_ptr : Z) : M Z :=
  placement_new where_ ;;;
  let new_hunk_ptr := where_ in
  store new_hunk_ptr (set_size sz) ;;;
  (* new_hunk_ptr->next_ptr = next_hunk_ptr *)
  store new_hunk_ptr (set_next_ptr (Some next_hunk_ptr)) ;;;
  (* new_hunk_ptr->prev_ptr = next_hunk_ptr->prev_ptr *)
  do pv <- read prev_ptr next_hunk_ptr;
  store new_hunk_ptr (set_prev_ptr pv) ;;;
  (* next_hunk_ptr->prev_ptr->next_ptr = new_hunk_ptr *)
  do pv <- read prev_ptr next_hunk_ptr;
  do pv <- deref pv;
  store pv (set_next_ptr (Some new_hunk_ptr)) ;;;
  (* next_hunk_ptr->prev_ptr = new_hunk_ptr *)
  store next_hunk_ptr (set_prev_ptr (Some new_hunk_ptr)) ;;;
  link_lru new_hunk_ptr ;;;
  (* mem_allocated_size_ += size *)
  do a <- get_allocated;
  set_allocated (wrap (a + sz)) ;;;
  ret new_hunk_ptr.

(** The [do ... while (next_hunk_ptr != head_hunk_ptr)] loop of [try_alloc].
    [Some p] is a [return p] from inside the loop, [None] is the loop running
    to its end. *)
Fixpoint try_alloc_loop (fuel : nat) (sz : Z)
    (current_hunk_ptr next_hunk_ptr : Z) : M (option Z) :=
  match fuel with
  | O => out_of_fuel
  | S fuel' =>
    do csize <- read size current_hunk_ptr;
    do base <- get_arena_ptr;
    let current_end := ptr_add base current_hunk_ptr csize in
    let next_start := next_hunk_ptr in
    if ptr_add base current_end sz <=? next_start then
      do new_hunk_ptr <- place current_end sz next_hunk_ptr;
      ret (Some new_hunk_ptr)
    else
      do nx <- read next_ptr next_hunk_ptr;
      do next' <- deref nx;
      if next' =? get_head_hunk then ret None
      else try_alloc_loop fuel' sz next_hunk_ptr next'
  end.

Definition try_alloc (fuel : nat) (sz : Z) : M (option Z) :=
  let head_hunk_ptr := get_head_hunk in
  do nx <- read next_ptr head_hunk_ptr;
  do next_hunk_ptr <- deref nx;
  do r <- try_alloc_loop fuel sz head_hunk_ptr next_hunk_ptr;
  match r with
  | Some new_hunk_ptr => ret (Some new_hunk_ptr)
  | None =>
    (* Try to allocate at the end of the memory pool *)
    do base <- get_arena_ptr;
    do total <- get_total;
    let pool_end := ptr_add base 0 total in
    do last <- read prev_ptr head_hunk_ptr;
    do last <- deref last;
    do lsize <- read size last;
    let last_hunk_end := ptr_add base last lsize in
    if ptr_add base last_hunk_end sz <=? pool_end then
      do new_hunk_ptr <- place last_hunk_end sz head_hunk_ptr;
      ret (Some new_hunk_ptr)
    else ret None
  end.

(** [hunk_ptr->data_ptr]: the payload starts right after the header. *)
Definition data_ptr (hunk_ptr : Z) : Z := hunk_ptr + sizeof_LRUMemoryHunk.

Definition real_get_buffer (handle_ptr : nat) : M (option Z) :=
  do hp <- get_hunk_ptr handle_ptr;
  match hp with
  | None => ret None
  | Some hunk_ptr =>
    unlink_lru hunk_ptr ;;;
    link_lru hunk_ptr ;;;
    ret (Some (data_ptr hunk_ptr))
  end.

Definition real_free (handle_ptr : nat) : M unit :=
  do hp <- get_hunk_ptr handle_ptr;
  do hunk_ptr <- deref hp;
  (* hunk_ptr->prev_ptr->next_ptr = hunk_ptr->next_ptr *)
  do pv <- read prev_ptr hunk_ptr;
  do pv <- deref pv;
  do nx <- read next_ptr hunk_ptr;
  store pv (set_next_ptr nx) ;;;
  (* hunk_ptr->next_ptr->prev_ptr = hunk_ptr->prev_ptr *)
  do nx <- read next_ptr hunk_ptr;
  do nx <- deref nx;
  do pv <- read prev_ptr hunk_ptr;
  store nx (set_prev_ptr pv) ;;;
  (* hunk_ptr->next_ptr = hunk_ptr->prev_ptr = nullptr *)
  store hunk_ptr (set_prev_ptr None) ;;;
  store hunk_ptr (set_next_ptr None) ;;;
  (* mem_allocated_size_ -= hunk_ptr->size; hunk_ptr->size = 0 *)
  do hsize <- read size hunk_ptr;
  do a <- get_allocated;
  set_allocated (wrap (a - hsize)) ;;;
  store hunk_ptr (set_size 0) ;;;
  unlink_lru hunk_ptr ;;;
  destroy hunk_ptr ;;;
  set_hunk_ptr handle_ptr None.

(** [aligned_size] as [real_alloc] computes it, in [size_t] arithmetic. *)
Definition aligned_size (sz : Z) : Z :=
  Z.land (wrap (wrap (sz + sizeof_LRUMemoryHunk) + ALIGNMENT_MASK))
         (wrap (Z.lnot ALIGNMENT_MASK)).

(** The [while (true)] loop of [real_alloc]; [walk] is the fuel handed to
    each placement pass.  A callee that receives a handle pointer
    dereferences it at once, so the null check of the pointer passed to
    [real_free] is done here. *)
Fixpoint real_alloc_loop (fuel : nat) (walk : nat) (handle_ptr : nat)
    (aligned : Z) : M (option Z) :=
  match fuel with
  | O => out_of_fuel
  | S fuel' =>
    let head_hunk_ptr := get_head_hunk in
    do r <- try_alloc walk aligned;
    match r with
    | Some hunk_ptr =>
      store hunk_ptr (set_handler_ptr (Some handle_ptr)) ;;;
      set_hunk_ptr handle_ptr (Some hunk_ptr) ;;;
      ret (Some (data_ptr hunk_ptr))
    | None =>
      do lru <- read least_recent_ptr head_hunk_ptr;
      if decide (Some head_hunk_ptr = lru) then ret None
      else
        do lru <- deref lru;
        do victim <- read handler_ptr lru;
        do victim <- deref victim;
        real_free victim ;;;
        real_alloc_loop fuel' walk handle_ptr aligned
    end
  end.

Definition real_alloc (fuel : nat) (handle_ptr : nat) (sz : Z) : M (option Z) :=
  real_alloc_loop fuel fuel handle_ptr (aligned_size sz).

(** The [while] loop of [flush]. *)
Fixpoint flush (fuel : nat) : M unit :=
  match fuel with
  | O => out_of_fuel
  | S fuel' =>
    let head_hunk_ptr := get_head_hunk in
    do first <- read next_ptr head_hunk_ptr;
    if decide (first = Some head_hunk_ptr) then ret tt
    else
      do first <- deref first;
      do h <- read handler_ptr first;
      do h <- deref h;
      real_free h ;;;
      flush fuel'
  end.

(** The public entry points of the header: plain forwarding. *)
Definition alloc (fuel : nat) (handle_ptr : nat) (sz : Z) : M (option Z) :=
  real_alloc fuel handle_ptr sz.
Definition free (handle_ptr : nat) : M unit := real_free handle_ptr.
Definition get_buffer_and_refresh (handle_ptr : nat) : M (option Z) :=
  real_get_buffer handle_ptr.
Definition get_allocated_memory_size (m : LRUMemoryManager) : Z :=
  mem_allocated_size_ m.

(** Modelled from the spec: the public [alloc] of [lrumm::LRUMemoryManager].
    The header that declares it is missing: the header at hand declares a
    class outside the namespace and without the contract macros, which
    neither the implementation file nor the tests build against.  By the
    spec a request of size 0 is a fatal contract violation that aborts at
    once, whatever the state; that the handle is unbound is a precondition,
    but not one of the violations that abort; the rest is [real_alloc]. *)
Definition public_alloc (fuel : nat) (handle_ptr : nat) (sz : Z) : M (option Z) :=
  Expects (0 <? sz) ;;;
  real_alloc fuel handle_ptr sz.

(** Iteration: an iterator holds a handle pointer; [begin] and [end] read it
    off the ring, [operator++] follows the ring through the handle. *)
Definition begin_ (is_lru_order : bool) : M (option nat) :=
  do first <- read (if is_lru_order then most_recent_ptr else next_ptr) get_head_hunk;
  do first <- deref first;
  read handler_ptr first.

Definition end_ : M (option nat) :=
  read handler_ptr get_head_hunk.

(** [LRUMemoryHandle::next] and [LRUMemoryHandle::most_recent], as
    [operator++] calls them. *)
Definition iterator_next (is_lru_order : bool) (current_handle_ptr : option nat)
    : M (option nat) :=
  do h <- deref current_handle_ptr;
  do hp <- get_hunk_ptr h;
  Expects (negb (is_null hp)) ;;;
  do hunk_ptr <- deref hp;
  do nx <- read (if is_lru_order then most_recent_ptr else next_ptr) hunk_ptr;
  do nx <- deref nx;
  read handler_ptr nx.

(** ** Handles and diagnostics *)

(** [LRUMemoryHandle::size()]: the payload capacity of the hunk the handle
    is bound to, in [size_t] arithmetic. *)
Definition handle_size (handle_ptr : nat) : M Z :=
  do hp <- get_hunk_ptr handle_ptr;
  Expects (negb (is_null hp)) ;;;
  do hunk_ptr <- deref hp;
  do s <- read size hunk_ptr;
  ret (wrap (s - sizeof_LRUMemoryHunk)).

(** What [debug_dump] prints, one constructor for each [LOG_INFO] of the
    function; the arguments are the values handed to the format string. *)
Inductive dump_line : Type :=
  | PoolDumpHeader
  | FreeSpace (hunk_idx : Z) (at_ : Z) (sz : Z)
  | AllocatedSpace (hunk_idx : Z) (at_ : Z) (sz : Z)
  | LeadingFreeSpace (at_ : Z) (sz : Z)
  | UsedMemory (used total : Z).

(** The [for (auto itr = begin(false); itr != end(); ++itr)] loop of
    [debug_dump]; [log] is what has been printed so far. *)
Fixpoint debug_dump_loop (fuel : nat) (itr : option nat) (hunk_idx : Z)
    (log : list dump_line) : M (list dump_line) :=
  match fuel with
  | O => out_of_fuel
  | S fuel' =>
    do e <- end_;
    if decide (itr = e) then ret log
    else
      (* current_hunk_ptr = itr->hunk_ptr_ *)
      do h <- deref itr;
      do hp <- get_hunk_ptr h;
      do current_hunk_ptr <- deref hp;
      do pv <- read prev_ptr current_hunk_ptr;
      do prev_hunk_ptr <- deref pv;
      do psize <- read size prev_hunk_ptr;
      let free_found := prev_hunk_ptr + psize <? current_hunk_ptr in
      let hunk_diff := wrap (current_hunk_ptr - prev_hunk_ptr - psize) in
      let log :=
        if free_found then log ++ [FreeSpace hunk_idx current_hunk_ptr hunk_diff]
        else log in
      let hunk_idx := if free_found then wrap (hunk_idx + 1) else hunk_idx in
      do csize <- read size current_hunk_ptr;
      let log := log ++ [AllocatedSpace hunk_idx current_hunk_ptr csize] in
      let hunk_idx := wrap (hunk_idx + 1) in
      do itr <- iterator_next false itr;
      debug_dump_loop fuel' itr hunk_idx log
  end.

Definition debug_dump (fuel : nat) : M (list dump_line) :=
  let log := [PoolDumpHeader] in
  do itr <- begin_ false;
  do log <- debug_dump_loop fuel itr 0 log;
  let head_hunk_ptr := get_head_hunk in
  do last <- read prev_ptr head_hunk_ptr;
  do last <- deref last;
  do lsize <- read size last;
  let last_free_ptr := last + lsize in
  do total <- get_total;
  let last_pool_ptr := 0 + total in
  let log :=
    if last_free_ptr <? last_pool_ptr
    then log ++ [LeadingFreeSpace last_free_ptr (last_pool_ptr - last_free_ptr)]
    else log in
  do used <- get_allocated;
  ret (log ++ [UsedMemory used total]).

(** * Specification vocabulary *)

Definition fld {A} (g : LRUMemoryHunk → A) (a : gmap Z LRUMemoryHunk) (x : Z) : option A :=
  g <$> a !! x.

Definition live (a : gmap Z LRUMemoryHunk) (x : Z) : Prop := is_Some (a !! x).

Section Linked.

Context (nx pv : Z → option (option Z)).

(** [linked x l y]: following [nx] from [x] visits [l] and then [y], and
    [pv] leads back along the same path. *)
Fixpoint linked (x : Z) (l : list Z) (y : Z) : Prop :=
  match l with
  | [] => nx x = Some (Some y) ∧ pv y = Some (Some x)
  | a :: l' => nx x = Some (Some a) ∧ pv a = Some (Some x) ∧ linked a l' y
  end.

End Linked.

Section Layout.

Context (sz : Z → option Z).

(** [packed lo l hi]: the hunks [l] lie in ascending address order inside
    [lo, hi), do not overlap, and each has a size that is a multiple of
    the alignment and at least a header. *)
Fixpoint packed (lo : Z) (l : list Z) (hi : Z) : Prop :=
  match l with
  | [] => lo ≤ hi
  | a :: l' =>
    ∃ s, sz a = Some s ∧ lo ≤ a ∧ sizeof_LRUMemoryHunk ≤ s ∧
         s mod MEMORY_ALIGNMENT = 0 ∧ packed (a + s) l' hi
  end.

(** End address of the last hunk of [l], or [lo] when there is none. *)
Fixpoint lend (lo : Z) (l : list Z) : Z :=
  match l with
  | [] => lo
  | a :: l' => lend (a + default 0 (sz a)) l'
  end.

(** Bytes taken by the hunks of [l]. *)
Fixpoint footprint (l : list Z) : Z :=
  match l with
  | [] => 0
  | a :: l' => default 0 (sz a) + footprint l'
  end.

(** The lowest-address gap that takes [n] bytes, as the index of the hunk
    in front of which it lies ([length l] for the gap at the end). *)
Fixpoint first_fit (lo : Z) (l : list Z) (hi n : Z) : option nat :=
  match l with
  | [] => if lo + n <=? hi then Some O else None
  | a :: l' =>
    if lo + n <=? a then Some O
    else S <$> first_fit (a + default 0 (sz a)) l' hi n
  end.

(** Gap number [i]: from the end of hunk [i - 1] to the start of hunk [i]. *)
Definition gap_start (lo : Z) (l : list Z) (i : nat) : Z := lend lo (take i l).

Definition gap_end (l : list Z) (hi : Z) (i : nat) : Z := hd hi (drop i l).

Definition gap_fits (lo : Z) (l : list Z) (hi n : Z) (i : nat) : Prop :=
  gap_start lo l i + n ≤ gap_end l hi i.

End Layout.

(** [first_fit] with the fit test of [try_alloc]: the sum of the end address
    of a hunk and the request is formed on the address and may wrap around. *)
Fixpoint first_fit_at (base : Z) (sz : Z → option Z) (lo : Z) (l : list Z) (hi n : Z)
    : option nat :=
  match l with
  | [] => if ptr_add base lo n <=? hi then Some O else None
  | a :: l' =>
    if ptr_add base lo n <=? a then Some O
    else S <$> first_fit_at base sz (a + default 0 (sz a)) l' hi n
  end.

Definition unlinked (p a b : Z) (A : gmap Z LRUMemoryHunk) : gmap Z LRUMemoryHunk :=
  alter (set_least_recent_ptr None) p
    (alter (set_most_recent_ptr None) p
      (alter (set_most_recent_ptr (Some a)) b
        (alter (set_least_recent_ptr (Some b)) a A))).

Definition linked_in (p a : Z) (A : gmap Z LRUMemoryHunk) : gmap Z LRUMemoryHunk :=
  alter (set_most_recent_ptr (Some p)) get_head_hunk
    (alter (set_least_recent_ptr (Some get_head_hunk)) p
      (alter (set_most_recent_ptr (Some a)) p
        (alter (set_least_recent_ptr (Some p)) a A))).

Definition placed (p n nxt pv a : Z) (A : gmap Z LRUMemoryHunk) : gmap Z LRUMemoryHunk :=
  linked_in p a
    (alter (set_prev_ptr (Some p)) nxt
      (alter (set_next_ptr (Some p)) pv
        (alter (set_prev_ptr (Some pv)) p
          (alter (set_next_ptr (Some nxt)) p
            (alter (set_size n) p (<[p := fresh_hunk]> A)))))).

Definition freed (p pv nx a b : Z) (A : gmap Z LRUMemoryHunk) : gmap Z LRUMemoryHunk :=
  delete p
    (unlinked p a b
      (alter (set_size 0) p
        (alter (set_next_ptr None) p
          (alter (set_prev_ptr None) p
            (alter (set_prev_ptr (Some pv)) nx
              (alter (set_next_ptr (Some nx)) pv A)))))).

(** What [place] needs of the arena it works on. *)
Definition placed_pre (A : gmap Z LRUMemoryHunk) (p nxt pv a : Z) : Prop :=
  ¬ live A p ∧ p ≠ 0 ∧ live A nxt ∧ live A pv ∧ live A a ∧ live A 0.

Definition freed_pre (A : gmap Z LRUMemoryHunk) (p pv nx a b : Z) : Prop :=
  live A p ∧ live A pv ∧ live A nx ∧ live A a ∧ live A b ∧
  p ≠ pv ∧ p ≠ nx ∧ p ≠ a ∧ p ≠ b.

Definition unlinked_pre (A : gmap Z LRUMemoryHunk) (p a b : Z) : Prop :=
  live A p ∧ live A a ∧ live A b ∧ p ≠ a ∧ p ≠ b.

Definition linked_in_pre (A : gmap Z LRUMemoryHunk) (p a : Z) : Prop :=
  live A p ∧ live A a ∧ live A 0 ∧ p ≠ 0.

(** [rings m al ll]: the arena of [m] holds the sentinel and exactly the
    hunks [al]; [al] is the address ring read from the sentinel along
    [next_ptr], [ll] the recency ring read from the sentinel along
    [most_recent_ptr] (most recently used first). *)
Record rings (m : LRUMemoryManager) (al ll : list Z) : Prop := mkRings {
  r_head_size : fld size (arena m) 0 = Some sizeof_LRUMemoryHunk;
  r_head_handler : fld handler_ptr (arena m) 0 = Some None;
  r_dom : ∀ x, live (arena m) x ↔ x = 0 ∨ x ∈ al;
  r_addr : linked (fld next_ptr (arena m)) (fld prev_ptr (arena m)) 0 al 0;
  r_lru : linked (fld most_recent_ptr (arena m)) (fld least_recent_ptr (arena m)) 0 ll 0;
  r_perm : ll ≡ₚ al;
  r_layout : packed (fld size (arena m)) sizeof_LRUMemoryHunk al (mem_total_size_ m);
  r_total : mem_total_size_ m < size_t_modulus;
  r_allocated :
    mem_allocated_size_ m = sizeof_LRUMemoryHunk + footprint (fld size (arena m)) al;
  r_block :
    0 < mem_arena_ptr_ m ∧ mem_arena_ptr_ m + mem_total_size_ m < size_t_modulus;
}.

(** [bound m al]: every hunk and its handle point at each other. *)
Definition bound (m : LRUMemoryManager) (al : list Z) : Prop :=
  (∀ x, x ∈ al → ∃ h, fld handler_ptr (arena m) x = Some (Some h) ∧ hunk_ptr_ m !! h = Some x) ∧
  (∀ h x, hunk_ptr_ m !! h = Some x → x ∈ al ∧ fld handler_ptr (arena m) x = Some (Some h)).

Definition inv (m : LRUMemoryManager) (al ll : list Z) : Prop :=
  rings m al ll ∧ bound m al.

(** The hunk that follows gap [i] in the address ring (the sentinel after
    the last gap). *)
Definition gap_next (l : list Z) (i : nat) : Z := hd 0 (drop i l).

Definition place_at (m : LRUMemoryManager) (l : list Z) (n : Z) (i : nat)
    : result (option Z * LRUMemoryManager) :=
  (do p <- place (gap_start (fld size (arena m)) sizeof_LRUMemoryHunk l i) n (gap_next l i);
   ret (Some p)) m.

(** An operation that never moves the arena block. *)
Definition keeps_base {A} (c : M A) : Prop :=
  ∀ m r m', c m = Ok (r, m') → mem_arena_ptr_ m' = mem_arena_ptr_ m.

(** The list [l] with the hunk [v] taken out. *)
Definition without (v : Z) (l : list Z) : list Z := filter (λ x, x ≠ v) l.

(** What a run of evictions leaves of a state. *)
Definition shrunk (m m1 : LRUMemoryManager) : Prop :=
  mem_total_size_ m1 = mem_total_size_ m ∧
  (∀ h x, hunk_ptr_ m1 !! h = Some x → hunk_ptr_ m !! h = Some x) ∧
  (∀ x, live (arena m1) x →
        live (arena m) x ∧
        fld size (arena m1) x = fld size (arena m) x ∧
        fld handler_ptr (arena m1) x = fld handler_ptr (arena m) x) ∧
  mem_arena_ptr_ m1 = mem_arena_ptr_ m.

(** The state [real_alloc] returns in after a successful pass left [m]:
    hunk [p] and handle [h] are made to point at each other. *)
Definition bind_handle (h : nat) (p : Z) (m : LRUMemoryManager) : LRUMemoryManager :=
  mkManager (mem_total_size_ m) (mem_allocated_size_ m) (mem_arena_ptr_ m)
    (alter (set_handler_ptr (Some h)) p (arena m)) (<[h := p]> (hunk_ptr_ m)).

(** Rounding up to a multiple of [a], in unbounded arithmetic. *)
Definition round_up (x a : Z) : Z := (x + a - 1) / a * a.

Definition head_alone : LRUMemoryHunk :=
  mkHunk sizeof_LRUMemoryHunk None (Some 0) (Some 0) (Some 0) (Some 0).

(** The state the constructor leaves: only the sentinel, no bound handle. *)
Definition empty_arena (base total : Z) : LRUMemoryManager :=
  mkManager total sizeof_LRUMemoryHunk base {[ 0 := head_alone ]} ∅.

Fixpoint linkedb (nx pv : Z → option (option Z)) (x : Z) (l : list Z) (y : Z) : bool :=
  match l with
  | [] => bool_decide (nx x = Some (Some y)) && bool_decide (pv y = Some (Some x))
  | a :: l' =>
    bool_decide (nx x = Some (Some a)) && bool_decide (pv a = Some (Some x)) &&
    linkedb nx pv a l' y
  end.

Fixpoint packedb (sz : Z → option Z) (lo : Z) (l : list Z) (hi : Z) : bool :=
  match l with
  | [] => lo <=? hi
  | a :: l' =>
    match sz a with
    | Some s =>
      (lo <=? a) && (sizeof_LRUMemoryHunk <=? s) && (s mod MEMORY_ALIGNMENT =? 0) &&
      packedb sz (a + s) l' hi
    | None => false
    end
  end.

Definition check_rings (m : LRUMemoryManager) (al ll : list Z) : bool :=
  bool_decide (fld size (arena m) 0 = Some sizeof_LRUMemoryHunk) &&
  bool_decide (fld handler_ptr (arena m) 0 = Some None) &&
  bool_decide (dom (arena m) = list_to_set (0 :: al)) &&
  linkedb (fld next_ptr (arena m)) (fld prev_ptr (arena m)) 0 al 0 &&
  linkedb (fld most_recent_ptr (arena m)) (fld least_recent_ptr (arena m)) 0 ll 0 &&
  bool_decide (ll ≡ₚ al) &&
  packedb (fld size (arena m)) sizeof_LRUMemoryHunk al (mem_total_size_ m) &&
  (mem_total_size_ m <? size_t_modulus) &&
  (mem_allocated_size_ m =? sizeof_LRUMemoryHunk + footprint (fld size (arena m)) al) &&
  (0 <? mem_arena_ptr_ m) &&
  (mem_arena_ptr_ m + mem_total_size_ m <? size_t_modulus).

Definition check_bound (m : LRUMemoryManager) (al : list Z) : bool :=
  forallb (λ x, match fld handler_ptr (arena m) x with
                | Some (Some h) => bool_decide (hunk_ptr_ m !! h = Some x)
                | _ => false
                end) al &&
  bool_decide (map_Forall (λ h x, x ∈ al ∧ fld handler_ptr (arena m) x = Some (Some h))
                          (hunk_ptr_ m)).

Definition check_inv (m : LRUMemoryManager) (al ll : list Z) : bool :=
  check_rings m al ll && check_bound m al.

(** The state an operation leaves; the state itself when it does not return. *)
Definition after {A} (c : M A) (m : LRUMemoryManager) : LRUMemoryManager :=
  match c m with
  | Ok (_, m') => m'
  | _ => m
  end.

(** A pool of 2048 bytes holding requests of 250 and 50 bytes for handles 0
    and 1. *)
Definition arena_250_50 : LRUMemoryManager :=
  after (alloc 3 1 50) (after (alloc 3 0 250) (empty_arena 65536 2048)).

(** A pool of 2048 bytes holding two requests of 900 bytes for handles 0 and
    1. *)
Definition arena_900_900 : LRUMemoryManager :=
  after (alloc 3 1 900) (after (alloc 3 0 900) (empty_arena 65536 2048)).

(** A pool of 2048 bytes after requests of 250, 150 and 50 bytes for handles
    0, 1 and 2 and the release of handle 1: a gap of 208 bytes lies between
    the two hunks left. *)
Definition arena_gap : LRUMemoryManager :=
  after (free 1)
    (after (alloc 4 2 50)
      (after (alloc 4 1 150) (after (alloc 4 0 250) (empty_arena 65536 2048)))).

(** The well-formedness of the arena, spelled out over the address ring [al]
    of [m]. *)
Record arena_ok (m : LRUMemoryManager) (al : list Z) : Prop := mkArenaOk {
  ok_ascending :
    ∀ i j x y, (i < j)%nat → al !! i = Some x → al !! j = Some y → x < y;
  ok_disjoint :
    ∀ i j x y, (i < j)%nat → al !! i = Some x → al !! j = Some y →
               ∃ s, fld size (arena m) x = Some s ∧ x + s ≤ y;
  ok_inside :
    ∀ x, x ∈ al →
         ∃ s, fld size (arena m) x = Some s ∧
              sizeof_LRUMemoryHunk ≤ x ∧ x + s ≤ mem_total_size_ m;
  ok_sizes :
    ∀ x, x ∈ al →
         ∃ s, fld size (arena m) x = Some s ∧
              s mod MEMORY_ALIGNMENT = 0 ∧ sizeof_LRUMemoryHunk ≤ s;
  ok_consumed : mem_allocated_size_ m ≤ mem_total_size_ m;
}.

(** A pool of 2048 bytes holding one request of 50 bytes for handle 0. *)
Definition arena_50 : LRUMemoryManager :=
  after (alloc 2 0 50) (empty_arena 65536 2048).

(** The call came to an end within its fuel. *)
Definition finished {A} (r : result A) : Prop :=
  match r with
  | OutOfFuel => False
  | _ => True
  end.

(** A pool of 2048 bytes whose only gap, of 160 bytes, lies right behind the
    sentinel: handle 0 is bound to the hunk at 208, the least recently used
    one, and handle 1 to the hunk at 368, which reaches the end of the pool. *)
Definition arena_front_gap : LRUMemoryManager :=
  after (free 5)
    (after (alloc 3 1 1632)
      (after (alloc 3 0 100) (after (alloc 3 5 100) (empty_arena 65536 2048)))).

(** Bytes [debug_dump] reports as free, and bytes it reports as allocated. *)
Definition reported_free (log : list dump_line) : Z :=
  foldr (λ l acc, match l with
                  | FreeSpace _ _ s | LeadingFreeSpace _ s => s + acc
                  | _ => acc
                  end) 0 log.

Definition reported_allocated (log : list dump_line) : Z :=
  foldr (λ l acc, match l with
                  | AllocatedSpace _ _ s => s + acc
                  | _ => acc
                  end) 0 log.

(** The hunks [debug_dump] lists, with their sizes, in the order listed. *)
Definition reported_hunks (log : list dump_line) : list (Z * Z) :=
  omap (λ l, match l with
             | AllocatedSpace _ p s => Some (p, s)
             | _ => None
             end) log.

(** * Reasoning principles *)

Lemma bind_Ok {A B} (c : M A) (k : A → M B) m a m' :
  c m = Ok (a, m') → bind c k m = k a m'.
Proof. unfold bind. by intros ->. Qed.

Lemma read_Ok {A} (g : LRUMemoryHunk → A) p m v :
  fld g (arena m) p = Some v → read g p m = Ok (v, m).
Proof. unfold fld, read. destruct (arena m !! p); simpl; congruence. Qed.

Lemma store_Ok p f m :
  live (arena m) p → store p f m = Ok (tt, with_arena (alter f p (arena m)) m).
Proof. unfold live, store. by intros [k ->]. Qed.

Lemma fld_live {A} (g : LRUMemoryHunk → A) a x v : fld g a x = Some v → live a x.
Proof. unfold fld, live. destruct (a !! x); naive_solver. Qed.

Lemma live_alter f q a x : live (alter f q a) x ↔ live a x.
Proof.
  unfold live. rewrite lookup_alter. case_decide; subst; [|done].
  by rewrite fmap_is_Some.
Qed.

Lemma live_insert q k a x : live (<[q := k]> a) x ↔ q = x ∨ live a x.
Proof.
  unfold live. rewrite lookup_insert. case_decide; subst.
  - split; [by left | by eexists].
  - split; [by right | by intros [|]].
Qed.

Lemma live_delete q a x : live (delete q a) x ↔ q ≠ x ∧ live a x.
Proof. unfold live. apply lookup_delete_is_Some. Qed.

Lemma fld_alter_frame {A} (g : LRUMemoryHunk → A) f q a x :
  (∀ k, g (f k) = g k) → fld g (alter f q a) x = fld g a x.
Proof.
  intros Hg. unfold fld. rewrite lookup_alter. case_decide; subst; [|done].
  destruct (a !! x); simpl; by rewrite ?Hg.
Qed.

Lemma fld_alter_ne {A} (g : LRUMemoryHunk → A) f q a x :
  q ≠ x → fld g (alter f q a) x = fld g a x.
Proof. intros. unfold fld. by rewrite lookup_alter_ne. Qed.

Lemma fld_alter_set {A} (g : LRUMemoryHunk → A) f q a x v :
  (∀ k, g (f k) = v) →
  fld g (alter f q a) x = if decide (q = x) then (λ _, v) <$> a !! x else fld g a x.
Proof.
  intros Hg. unfold fld. rewrite lookup_alter. case_decide; subst; [|done].
  destruct (a !! x); simpl; by rewrite ?Hg.
Qed.

Lemma fld_alter_eq {A} (g : LRUMemoryHunk → A) f q a v :
  (∀ k, g (f k) = v) → live a q → fld g (alter f q a) q = Some v.
Proof.
  intros Hg [k Hk]. unfold fld. rewrite lookup_alter_eq, Hk. simpl. by rewrite Hg.
Qed.

Lemma fld_insert {A} (g : LRUMemoryHunk → A) q k a x :
  fld g (<[q := k]> a) x = if decide (q = x) then Some (g k) else fld g a x.
Proof. unfold fld. rewrite lookup_insert. by case_decide. Qed.

Lemma fld_delete {A} (g : LRUMemoryHunk → A) q a x :
  fld g (delete q a) x = if decide (q = x) then None else fld g a x.
Proof. unfold fld. rewrite lookup_delete. by case_decide. Qed.

Ltac norm_state :=
  unfold with_arena, with_allocated, with_handles;
  cbn [arena hunk_ptr_ mem_total_size_ mem_allocated_size_ mem_arena_ptr_].

Ltac solve_live :=
  repeat first [ rewrite live_alter | rewrite live_insert | rewrite live_delete ];
  first [ assumption | eapply fld_live; eassumption | (left; reflexivity)
        | right; first [ assumption | eapply fld_live; eassumption ] ].

Ltac solve_fld :=
  repeat first
    [ rewrite fld_alter_frame by reflexivity
    | rewrite fld_alter_ne by (first [ assumption | congruence | lia ])
    | rewrite fld_alter_eq by first [ reflexivity | solve_live ]
    | rewrite fld_insert, decide_True by reflexivity
    | rewrite fld_insert, decide_False by (first [ assumption | congruence | lia ]) ];
  first [ eassumption | reflexivity ].

Ltac exec_side :=
  first
    [ eapply read_Ok; norm_state; solve_fld
    | eapply store_Ok; norm_state; solve_live
    | reflexivity ].

Ltac exec1 := erewrite bind_Ok by exec_side; norm_state.

Ltac exec := repeat exec1; try (etrans; [exec_side | norm_state; reflexivity]).

(** * Doubly-linked segments over successor and predecessor functions *)

Lemma last_cons_default (a x : Z) l : List.last (a :: l) x = List.last l a.
Proof.
  revert a x. induction l as [|b l IH]; intros a x; [done|].
  change (List.last (a :: b :: l) x) with (List.last (b :: l) x).
  by rewrite (IH b x), (IH b a).
Qed.

Section LinkedFacts.

Context (nx pv : Z → option (option Z)).
Local Abbreviation linked := (linked nx pv).

Lemma linked_app x l1 p l2 y :
  linked x (l1 ++ p :: l2) y ↔ linked x l1 p ∧ linked p l2 y.
Proof.
  revert x. induction l1 as [|a l1 IH]; intros x; simpl.
  - tauto.
  - rewrite IH. tauto.
Qed.

Lemma linked_succ x l1 p l2 y :
  linked x (l1 ++ p :: l2) y → nx p = Some (Some (hd y l2)).
Proof. rewrite linked_app. intros [_ H]. destruct l2; simpl in *; by destruct H. Qed.

Lemma linked_pred x l1 p l2 y :
  linked x (l1 ++ p :: l2) y → pv p = Some (Some (List.last l1 x)).
Proof.
  rewrite linked_app. intros [H _]. revert x H.
  induction l1 as [|a l1 IH]; intros x H; [by destruct H|].
  destruct H as (_ & _ & H). apply IH in H. by rewrite last_cons_default.
Qed.

Lemma linked_first x l y : linked x l y → nx x = Some (Some (hd y l)).
Proof. destruct l; simpl; by intros [? ?]. Qed.

Lemma linked_last x l y : linked x l y → pv y = Some (Some (List.last l x)).
Proof.
  revert x. induction l as [|a l IH]; intros x H; [by destruct H|].
  destruct H as (_ & _ & H). apply IH in H. by rewrite last_cons_default.
Qed.

End LinkedFacts.

Lemma linked_ext nx pv nx' pv' x l y :
  (∀ z, z ∈ x :: l → nx' z = nx z) →
  (∀ z, z ∈ l ++ [y] → pv' z = pv z) →
  linked nx pv x l y → linked nx' pv' x l y.
Proof.
  revert x. induction l as [|a l IH]; intros x Hn Hp; simpl.
  - intros [H1 H2]. rewrite Hn, Hp by set_solver. done.
  - intros (H1 & H2 & H3). rewrite Hn, Hp by set_solver. split_and!; [done..|].
    apply IH; [intros; apply Hn|intros; apply Hp|done]; set_solver.
Qed.

(** Unlinking [p]: its predecessor and successor now point at each other. *)
Lemma linked_remove nx pv nx' pv' x l1 p l2 y :
  NoDup (x :: l1 ++ p :: l2) → y ∉ l1 ++ p :: l2 →
  (∀ z, z ≠ p → nx' z = if decide (z = List.last l1 x) then Some (Some (hd y l2)) else nx z) →
  (∀ z, z ≠ p → pv' z = if decide (z = hd y l2) then Some (Some (List.last l1 x)) else pv z) →
  linked nx pv x (l1 ++ p :: l2) y → linked nx' pv' x (l1 ++ l2) y.
Proof.
  revert x. induction l1 as [|c l1 IH]; intros x Hnd Hy Hn Hp.
  - simpl in *. intros (H1 & H2 & H3).
    assert (x ≠ p) by (inversion Hnd; set_solver).
    assert (y ≠ p) by set_solver.
    destruct l2 as [|a l2]; simpl in *.
    + rewrite Hn, Hp by done. by rewrite !decide_True.
    + destruct H3 as (H3 & H4 & H5).
      assert (a ≠ p) by (inversion Hnd as [|?? _ Hnd']; inversion Hnd'; set_solver).
      rewrite Hn, Hp by done. rewrite !decide_True by done. split_and!; [done..|].
      eapply linked_ext; [| |exact H5].
      * intros z Hz. assert (z ≠ p ∧ z ≠ x) as [??].
        { apply NoDup_cons in Hnd as [Hx Hnd]. apply NoDup_cons in Hnd as [Hp' Hnd].
          split; intros ->; set_solver. }
        rewrite Hn by done. by rewrite decide_False.
      * intros z Hz. assert (z ≠ p ∧ z ≠ a) as [??].
        { apply NoDup_cons in Hnd as [Hx Hnd]. apply NoDup_cons in Hnd as [Hp' Hnd].
          apply NoDup_cons in Hnd as [Ha Hnd].
          split; intros ->; set_solver. }
        rewrite Hp by done. by rewrite decide_False.
  - cbn [app linked] in *. intros (H1 & H2 & H3).
    apply NoDup_cons in Hnd as [Hx Hnd].
    assert (x ≠ p) by set_solver.
    assert (c ≠ p) by (apply NoDup_cons in Hnd as [Hc _]; set_solver).
    rewrite last_cons_default in Hn, Hp.
    assert (x ≠ List.last l1 c).
    { intros ->. apply Hx. destruct l1 as [|d l1] using rev_ind; [set_solver|].
      rewrite last_last. set_solver. }
    assert (c ≠ hd y l2).
    { apply NoDup_cons in Hnd as [Hc _]. destruct l2; simpl; set_solver. }
    rewrite Hn, Hp by done. rewrite !decide_False by done. split_and!; [done..|].
    apply IH; try done. set_solver.
Qed.

(** Linking [p] in between the end of [l1] and the start of [l2]. *)
Lemma linked_insert nx pv nx' pv' x l1 p l2 y :
  NoDup (x :: l1 ++ l2) → y ∉ l1 ++ l2 → p ∉ x :: l1 ++ l2 → p ≠ y →
  nx' p = Some (Some (hd y l2)) → pv' p = Some (Some (List.last l1 x)) →
  (∀ z, z ≠ p → nx' z = if decide (z = List.last l1 x) then Some (Some p) else nx z) →
  (∀ z, z ≠ p → pv' z = if decide (z = hd y l2) then Some (Some p) else pv z) →
  linked nx pv x (l1 ++ l2) y → linked nx' pv' x (l1 ++ p :: l2) y.
Proof.
  revert x. induction l1 as [|c l1 IH]; intros x Hnd Hy Hpn Hpy Hnp Hpp Hn Hp.
  - simpl in *. intros H. assert (x ≠ p) by set_solver.
    rewrite Hn by done. rewrite decide_True by done. split_and!; [done..|].
    destruct l2 as [|a l2]; simpl in *.
    + rewrite Hp by done. rewrite decide_True by done. by destruct H.
    + destruct H as (H3 & H4 & H5).
      assert (a ≠ p) by set_solver.
      rewrite Hp by done. rewrite !decide_True by done. split_and!; [done..|].
      apply NoDup_cons in Hnd as [Hx Hnd]. apply NoDup_cons in Hnd as [Ha Hnd].
      eapply linked_ext; [| |exact H5].
      * intros z Hz. assert (z ≠ p ∧ z ≠ x) as [??] by (split; intros ->; set_solver).
        rewrite Hn by done. by rewrite decide_False.
      * intros z Hz. assert (z ≠ p ∧ z ≠ a) as [??] by (split; intros ->; set_solver).
        rewrite Hp by done. by rewrite decide_False.
  - cbn [app linked] in *. intros (H1 & H2 & H3).
    apply NoDup_cons in Hnd as [Hx Hnd].
    assert (x ≠ p) by set_solver.
    assert (c ≠ p) by set_solver.
    rewrite last_cons_default in Hn, Hpp.
    assert (x ≠ List.last l1 c).
    { intros ->. apply Hx. destruct l1 as [|d l1] using rev_ind; [set_solver|].
      rewrite last_last. set_solver. }
    assert (c ≠ hd y l2).
    { apply NoDup_cons in Hnd as [Hc _]. destruct l2; simpl; set_solver. }
    rewrite Hn, Hp by done. rewrite !decide_False by done. split_and!; [done..|].
    apply IH; try done; set_solver.
Qed.

(** * Layout of the hunks inside the arena *)

Section LayoutFacts.

Context (sz : Z → option Z).
Local Abbreviation packed := (packed sz).
Local Abbreviation lend := (lend sz).
Local Abbreviation footprint := (footprint sz).
Local Abbreviation first_fit := (first_fit sz).
Local Abbreviation gap_start := (gap_start sz).
Local Abbreviation gap_fits := (gap_fits sz).

Lemma packed_le lo l hi : packed lo l hi → lo ≤ hi.
Proof.
  revert lo. induction l as [|a l IH]; intros lo; simpl; [done|].
  intros (s & _ & ? & ? & _ & H). apply IH in H. unfold sizeof_LRUMemoryHunk in *. lia.
Qed.

Lemma packed_weaken lo lo' l hi hi' :
  lo' ≤ lo → hi ≤ hi' → packed lo l hi → packed lo' l hi'.
Proof.
  revert lo lo'. induction l as [|a l IH]; intros lo lo' Hlo Hhi; simpl; [lia|].
  intros (s & ? & ? & ? & ? & H). exists s. split_and!; [done|lia|done..|].
  eapply IH; [| |exact H]; lia.
Qed.

Lemma packed_split lo l1 l2 hi :
  packed lo (l1 ++ l2) hi ↔ packed lo l1 (lend lo l1) ∧ packed (lend lo l1) l2 hi.
Proof.
  revert lo. induction l1 as [|a l1 IH]; intros lo; simpl.
  - split; [|tauto]. intros; split; [lia|done].
  - split.
    + intros (s & Hs & ? & ? & ? & H). rewrite Hs. simpl.
      apply IH in H as [??]. split; [|done]. by exists s.
    + intros [(s & Hs & ? & ? & ? & Hq1) Hq2]. rewrite Hs in *. simpl in *.
      exists s. split_and!; [done..|]. apply IH. done.
Qed.

Lemma packed_lend lo l hi : packed lo l hi → lo ≤ lend lo l ≤ hi.
Proof.
  intros H. rewrite <- (app_nil_r l) in H. apply packed_split in H as [Hq1 Hq2].
  apply packed_le in Hq1. simpl in Hq2. lia.
Qed.

Lemma packed_elem lo l hi x :
  packed lo l hi → x ∈ l →
  ∃ s, sz x = Some s ∧ lo ≤ x ∧ x + s ≤ hi ∧ sizeof_LRUMemoryHunk ≤ s ∧ s mod MEMORY_ALIGNMENT = 0.
Proof.
  revert lo. induction l as [|a l IH]; intros lo; simpl; [set_solver|].
  intros (s & Hs & ? & ? & ? & H) [->|Hx]%elem_of_cons.
  - exists s. apply packed_le in H. done.
  - destruct (IH _ H Hx) as (s' & ? & ? & ? & ? & ?). exists s'.
    split_and!; try done. unfold sizeof_LRUMemoryHunk in *. lia.
Qed.

Lemma packed_lt lo l hi x : packed lo l hi → x ∈ l → lo ≤ x < hi.
Proof.
  intros H Hx. destruct (packed_elem _ _ _ _ H Hx) as (s & ? & ? & ? & ? & ?).
  unfold sizeof_LRUMemoryHunk in *. lia.
Qed.

Lemma packed_NoDup lo l hi : packed lo l hi → NoDup l.
Proof.
  revert lo. induction l as [|a l IH]; intros lo; simpl; [constructor|].
  intros (s & Hs & ? & ? & ? & H). constructor; [|by eapply IH].
  intros Ha. apply (packed_lt _ _ _ _ H) in Ha. unfold sizeof_LRUMemoryHunk in *. lia.
Qed.

Lemma packed_footprint lo l hi : packed lo l hi → lo + footprint l ≤ hi ∧ 0 ≤ footprint l.
Proof.
  revert lo. induction l as [|a l IH]; intros lo; simpl; [lia|].
  intros (s & Hs & ? & ? & ? & H). rewrite Hs. simpl. apply IH in H.
  unfold sizeof_LRUMemoryHunk in *. lia.
Qed.

Lemma footprint_app l1 l2 : footprint (l1 ++ l2) = footprint l1 + footprint l2.
Proof. induction l1 as [|a l1 IH]; simpl; lia. Qed.

Lemma lend_app lo l1 l2 : lend lo (l1 ++ l2) = lend (lend lo l1) l2.
Proof. revert lo. induction l1 as [|a l1 IH]; intros lo; simpl; [done|]. apply IH. Qed.

Lemma lend_snoc lo l a : lend lo (l ++ [a]) = a + default 0 (sz a).
Proof. by rewrite lend_app. Qed.

(** The end of the last hunk is computed from the last hunk alone. *)
Lemma lend_last lo l x :
  sz x = Some lo → lend (x + lo) l = List.last l x + default 0 (sz (List.last l x)).
Proof.
  revert lo x. induction l as [|a l IH]; intros lo x Hx.
  - simpl. by rewrite Hx.
  - rewrite last_cons_default. simpl.
    destruct l as [|b l] using rev_ind; [done|].
    by rewrite lend_snoc, last_last.
Qed.

Lemma packed_remove lo l1 p l2 hi :
  packed lo (l1 ++ p :: l2) hi → packed lo (l1 ++ l2) hi.
Proof.
  rewrite !packed_split. intros [Hq1 Hq2]. split; [done|].
  simpl in Hq2. destruct Hq2 as (s & ? & ? & ? & ? & Hq2).
  eapply packed_weaken; [| |exact Hq2]; unfold sizeof_LRUMemoryHunk in *; lia.
Qed.

Lemma first_fit_Some lo l hi n i :
  first_fit lo l hi n = Some i ↔
  (i ≤ length l)%nat ∧ gap_fits lo l hi n i ∧ ∀ j, (j < i)%nat → ¬ gap_fits lo l hi n j.
Proof.
  unfold gap_fits, gap_start, gap_end.
  revert lo i. induction l as [|a l IH]; intros lo i; simpl.
  - destruct (Z.leb_spec (lo + n) hi) as [Hle|Hgt].
    + split.
      * intros [= <-]. simpl. split_and!; [lia|lia|intros; lia].
      * intros (Hi & _ & _). f_equal. lia.
    + split; [done|]. intros (Hi & Hf & _).
      assert (i = O) as -> by lia. simpl in Hf. lia.
  - destruct (Z.leb_spec (lo + n) a) as [Hle|Hgt].
    + split.
      * intros [= <-]. simpl. split_and!; [lia|lia|intros; lia].
      * intros (Hi & _ & Hj). destruct i as [|i]; [done|].
        destruct (Hj O); [lia|]. simpl. lia.
    + rewrite fmap_Some. split.
      * intros (i' & Hi' & ->). apply IH in Hi' as (Hi & Hf & Hj).
        simpl. split_and!; [lia|done|].
        intros [|j] Hlt; simpl; [lia|]. apply Hj. lia.
      * intros (Hi & Hf & Hj). destruct i as [|i]; [simpl in Hf; lia|].
        exists i. split; [|done]. apply IH. simpl in Hi, Hf.
        split_and!; [lia|done|]. intros j Hlt. apply (Hj (S j)). lia.
Qed.

Lemma first_fit_None lo l hi n :
  first_fit lo l hi n = None ↔ ∀ i, (i ≤ length l)%nat → ¬ gap_fits lo l hi n i.
Proof.
  unfold gap_fits, gap_start, gap_end.
  revert lo. induction l as [|a l IH]; intros lo; simpl.
  - destruct (Z.leb_spec (lo + n) hi) as [Hle|Hgt].
    + split; [done|]. intros Hi. destruct (Hi O); simpl; lia.
    + split; [|done]. intros _ i Hi. assert (i = O) as -> by lia. simpl. lia.
  - destruct (Z.leb_spec (lo + n) a) as [Hle|Hgt].
    + split; [done|]. intros Hi. destruct (Hi O); simpl; lia.
    + rewrite fmap_None, IH. split.
      * intros Hi [|i] Hlt; simpl; [lia|]. apply Hi. lia.
      * intros Hi i Hlt. apply (Hi (S i)). lia.
Qed.

End LayoutFacts.

Lemma packed_ext sz sz' lo l hi :
  (∀ x, x ∈ l → sz' x = sz x) → packed sz lo l hi → packed sz' lo l hi.
Proof.
  revert lo. induction l as [|a l IH]; intros lo Hsz; simpl; [done|].
  intros (s & Hs & ? & ? & ? & Hq). exists s. rewrite Hsz by set_solver.
  split_and!; [done..|]. apply IH; [|done]. intros; apply Hsz; set_solver.
Qed.

Lemma lend_ext sz sz' lo l : (∀ x, x ∈ l → sz' x = sz x) → lend sz' lo l = lend sz lo l.
Proof.
  revert lo. induction l as [|a l IH]; intros lo Hsz; simpl; [done|].
  rewrite Hsz by set_solver. apply IH. intros; apply Hsz; set_solver.
Qed.

Lemma footprint_ext sz sz' l :
  (∀ x, x ∈ l → sz' x = sz x) → footprint sz' l = footprint sz l.
Proof.
  induction l as [|a l IH]; intros Hsz; simpl; [done|].
  rewrite Hsz by set_solver. rewrite IH; [done|]. intros; apply Hsz; set_solver.
Qed.

(** Placing a hunk of [n] bytes at the low edge of the gap between [l1] and
    [l2]. *)
Lemma packed_insert sz sz' lo l1 l2 hi p n :
  packed sz lo (l1 ++ l2) hi →
  p = lend sz lo l1 → p + n ≤ hd hi l2 →
  sizeof_LRUMemoryHunk ≤ n → n mod MEMORY_ALIGNMENT = 0 →
  sz' p = Some n → (∀ x, x ∈ l1 ++ l2 → sz' x = sz x) →
  packed sz' lo (l1 ++ p :: l2) hi.
Proof.
  intros Hq -> Hfit Hn Hal Hp Hsz.
  apply packed_split in Hq as [Hq1 Hq2]. apply packed_split.
  assert (lend sz' lo l1 = lend sz lo l1) as Hl.
  { apply lend_ext. intros; apply Hsz; set_solver. }
  rewrite Hl. split.
  - eapply packed_ext; [|exact Hq1]. intros; apply Hsz; set_solver.
  - simpl. exists n. split_and!; [done|lia|done..|].
    assert (packed sz' (lend sz lo l1) l2 hi) as Hq2'.
    { eapply packed_ext; [|exact Hq2]. intros; apply Hsz; set_solver. }
    destruct l2 as [|a l2]; simpl in *; [lia|].
    destruct Hq2' as (s & ? & ? & ? & ? & Hq3). exists s. split_and!; try done.
Qed.

(** * Symbolic execution of the ring operations *)

Lemma unlink_lru_Ok m p a b :
  fld most_recent_ptr (arena m) p = Some (Some a) →
  fld least_recent_ptr (arena m) p = Some (Some b) →
  p ≠ a → live (arena m) a → live (arena m) b →
  unlink_lru p m =
    Ok (tt, mkManager (mem_total_size_ m) (mem_allocated_size_ m) (mem_arena_ptr_ m)
              (unlinked p a b (arena m)) (hunk_ptr_ m)).
Proof.
  intros Hmr Hlr Hpa Ha Hb. unfold unlink_lru, unlinked.
  do 2 exec1. simpl. exec.
Qed.

Lemma link_lru_Ok m p a :
  fld most_recent_ptr (arena m) p = Some None →
  fld least_recent_ptr (arena m) p = Some None →
  fld most_recent_ptr (arena m) get_head_hunk = Some (Some a) →
  live (arena m) a →
  link_lru p m =
    Ok (tt, mkManager (mem_total_size_ m) (mem_allocated_size_ m) (mem_arena_ptr_ m)
              (linked_in p a (arena m)) (hunk_ptr_ m)).
Proof.
  intros Hmr Hlr Hhd Ha. unfold link_lru, linked_in.
  do 2 exec1. simpl. exec.
Qed.

Ltac exec_side ::=
  first
    [ eapply read_Ok; norm_state; solve_fld
    | eapply store_Ok; norm_state; solve_live
    | eapply link_lru_Ok; norm_state; [solve_fld | solve_fld | solve_fld | solve_live]
    | eapply unlink_lru_Ok; norm_state;
      [solve_fld | solve_fld | first [assumption | congruence | lia] | solve_live | solve_live]
    | reflexivity ].

Lemma place_Ok m p n nxt pv a :
  p ≠ 0 → p ≠ nxt →
  fld prev_ptr (arena m) nxt = Some (Some pv) →
  fld most_recent_ptr (arena m) 0 = Some (Some a) →
  live (arena m) pv → live (arena m) a →
  place p n nxt m =
    Ok (p, mkManager (mem_total_size_ m) (wrap (mem_allocated_size_ m + n)) (mem_arena_ptr_ m)
             (placed p n nxt pv a (arena m)) (hunk_ptr_ m)).
Proof.
  intros Hp0 Hpn Hpv Hmr Hlpv Hla. unfold place, placed, get_head_hunk in *.
  exec.
Qed.

Lemma real_free_Ok m h p pv nx a b s :
  hunk_ptr_ m !! h = Some p →
  fld prev_ptr (arena m) p = Some (Some pv) →
  fld next_ptr (arena m) p = Some (Some nx) →
  fld most_recent_ptr (arena m) p = Some (Some a) →
  fld least_recent_ptr (arena m) p = Some (Some b) →
  fld size (arena m) p = Some s →
  p ≠ pv → p ≠ a →
  live (arena m) pv → live (arena m) nx → live (arena m) a → live (arena m) b →
  real_free h m =
    Ok (tt, mkManager (mem_total_size_ m) (wrap (mem_allocated_size_ m - s)) (mem_arena_ptr_ m)
              (freed p pv nx a b (arena m)) (delete h (hunk_ptr_ m))).
Proof.
  intros Hh Hpv Hnx Hmr Hlr Hs Hppv Hpa Hlpv Hlnx Hla Hlb.
  unfold real_free, freed.
  erewrite bind_Ok by (unfold get_hunk_ptr; rewrite Hh; reflexivity).
  exec.
Qed.

(** * Fields of the arenas the operations produce *)

Lemma fld_const {A} (v : A) a x : live a x → fld (λ _, v) a x = Some v.
Proof. unfold live, fld. by intros [k ->]. Qed.

Lemma fld_alter_set' {A} (g : LRUMemoryHunk → A) f q a x v :
  (∀ k, g (f k) = v) →
  fld g (alter f q a) x = if decide (q = x) then fld (λ _, v) a x else fld g a x.
Proof. intros Hg. by rewrite (fld_alter_set g f q a x v Hg). Qed.

Ltac fld_push :=
  repeat first
    [ rewrite fld_alter_frame by reflexivity
    | erewrite fld_alter_set' by (intros; simpl; reflexivity)
    | rewrite fld_insert
    | rewrite fld_delete ].

Ltac fld_case :=
  fld_push;
  repeat (case_decide; subst; try congruence; try lia);
  fld_push;
  rewrite ?fld_const by solve_live;
  try done.

Section PlacedFields.

Context (A : gmap Z LRUMemoryHunk) (p n nxt pv a : Z).

Context (Hpre : placed_pre A p nxt pv a).

Let A' := placed p n nxt pv a A.

Lemma placed_live x : live A' x ↔ x = p ∨ live A x.
Proof.
  clear Hpre. unfold A', placed, linked_in.
  rewrite !live_alter, live_insert. naive_solver.
Qed.

Lemma placed_size x :
  fld size A' x = if decide (x = p) then Some n else fld size A x.
Proof.
  destruct Hpre as (? & ? & ? & ? & ? & ?).
  unfold A', placed, linked_in, get_head_hunk. fld_case.
Qed.

Lemma placed_handler x :
  fld handler_ptr A' x = if decide (x = p) then Some None else fld handler_ptr A x.
Proof.
  destruct Hpre as (? & ? & ? & ? & ? & ?).
  unfold A', placed, linked_in, get_head_hunk. fld_case.
Qed.

Lemma placed_next x :
  fld next_ptr A' x =
    if decide (x = p) then Some (Some nxt)
    else if decide (x = pv) then Some (Some p) else fld next_ptr A x.
Proof.
  destruct Hpre as (? & ? & ? & ? & ? & ?).
  unfold A', placed, linked_in, get_head_hunk. fld_case.
Qed.

Lemma placed_prev x :
  fld prev_ptr A' x =
    if decide (x = p) then Some (Some pv)
    else if decide (x = nxt) then Some (Some p) else fld prev_ptr A x.
Proof.
  destruct Hpre as (? & ? & ? & ? & ? & ?).
  unfold A', placed, linked_in, get_head_hunk. fld_case.
Qed.

Lemma placed_most_recent x :
  fld most_recent_ptr A' x =
    if decide (x = p) then Some (Some a)
    else if decide (x = 0) then Some (Some p) else fld most_recent_ptr A x.
Proof.
  destruct Hpre as (? & ? & ? & ? & ? & ?).
  unfold A', placed, linked_in, get_head_hunk. fld_case.
Qed.

Lemma placed_least_recent x :
  fld least_recent_ptr A' x =
    if decide (x = p) then Some (Some 0)
    else if decide (x = a) then Some (Some p) else fld least_recent_ptr A x.
Proof.
  destruct Hpre as (? & ? & ? & ? & ? & ?).
  unfold A', placed, linked_in, get_head_hunk. fld_case.
Qed.

End PlacedFields.

Section FreedFields.

Context (A : gmap Z LRUMemoryHunk) (p pv nx a b : Z).

Context (Hpre : freed_pre A p pv nx a b).

Let A' := freed p pv nx a b A.

Lemma freed_live x : live A' x ↔ x ≠ p ∧ live A x.
Proof.
  clear Hpre. unfold A', freed, unlinked.
  rewrite live_delete, !live_alter. naive_solver.
Qed.

Lemma freed_size x :
  fld size A' x = if decide (x = p) then None else fld size A x.
Proof.
  destruct Hpre as (? & ? & ? & ? & ? & ? & ? & ? & ?).
  unfold A', freed, unlinked. fld_case.
Qed.

Lemma freed_handler x :
  fld handler_ptr A' x = if decide (x = p) then None else fld handler_ptr A x.
Proof.
  destruct Hpre as (? & ? & ? & ? & ? & ? & ? & ? & ?).
  unfold A', freed, unlinked. fld_case.
Qed.

Lemma freed_next x :
  fld next_ptr A' x =
    if decide (x = p) then None
    else if decide (x = pv) then Some (Some nx) else fld next_ptr A x.
Proof.
  destruct Hpre as (? & ? & ? & ? & ? & ? & ? & ? & ?).
  unfold A', freed, unlinked. fld_case.
Qed.

Lemma freed_prev x :
  fld prev_ptr A' x =
    if decide (x = p) then None
    else if decide (x = nx) then Some (Some pv) else fld prev_ptr A x.
Proof.
  destruct Hpre as (? & ? & ? & ? & ? & ? & ? & ? & ?).
  unfold A', freed, unlinked. fld_case.
Qed.

Lemma freed_most_recent x :
  fld most_recent_ptr A' x =
    if decide (x = p) then None
    else if decide (x = b) then Some (Some a) else fld most_recent_ptr A x.
Proof.
  destruct Hpre as (? & ? & ? & ? & ? & ? & ? & ? & ?).
  unfold A', freed, unlinked. fld_case.
Qed.

Lemma freed_least_recent x :
  fld least_recent_ptr A' x =
    if decide (x = p) then None
    else if decide (x = a) then Some (Some b) else fld least_recent_ptr A x.
Proof.
  destruct Hpre as (? & ? & ? & ? & ? & ? & ? & ? & ?).
  unfold A', freed, unlinked. fld_case.
Qed.

End FreedFields.

Section UnlinkedFields.

Context (A : gmap Z LRUMemoryHunk) (p a b : Z).

Context (Hpre : unlinked_pre A p a b).

Let A' := unlinked p a b A.

Lemma unlinked_live x : live A' x ↔ live A x.
Proof. clear Hpre. unfold A', unlinked. by rewrite !live_alter. Qed.

Lemma unlinked_frame {B} (g : LRUMemoryHunk → B) x :
  (∀ v k, g (set_most_recent_ptr v k) = g k) →
  (∀ v k, g (set_least_recent_ptr v k) = g k) →
  fld g A' x = fld g A x.
Proof.
  clear Hpre. intros H1 H2. unfold A', unlinked.
  by rewrite !fld_alter_frame by (intros; first [apply H1|apply H2]).
Qed.

Lemma unlinked_most_recent x :
  fld most_recent_ptr A' x =
    if decide (x = p) then Some None
    else if decide (x = b) then Some (Some a) else fld most_recent_ptr A x.
Proof.
  destruct Hpre as (? & ? & ? & ? & ?).
  unfold A', unlinked. fld_case.
Qed.

Lemma unlinked_least_recent x :
  fld least_recent_ptr A' x =
    if decide (x = p) then Some None
    else if decide (x = a) then Some (Some b) else fld least_recent_ptr A x.
Proof.
  destruct Hpre as (? & ? & ? & ? & ?).
  unfold A', unlinked. fld_case.
Qed.

End UnlinkedFields.

Section LinkedInFields.

Context (A : gmap Z LRUMemoryHunk) (p a : Z).

Context (Hpre : linked_in_pre A p a).

Let A' := linked_in p a A.

Lemma linked_in_live x : live A' x ↔ live A x.
Proof. clear Hpre. unfold A', linked_in. by rewrite !live_alter. Qed.

Lemma linked_in_frame {B} (g : LRUMemoryHunk → B) x :
  (∀ v k, g (set_most_recent_ptr v k) = g k) →
  (∀ v k, g (set_least_recent_ptr v k) = g k) →
  fld g A' x = fld g A x.
Proof.
  clear Hpre. intros H1 H2. unfold A', linked_in.
  by rewrite !fld_alter_frame by (intros; first [apply H1|apply H2]).
Qed.

Lemma linked_in_most_recent x :
  fld most_recent_ptr A' x =
    if decide (x = p) then Some (Some a)
    else if decide (x = 0) then Some (Some p) else fld most_recent_ptr A x.
Proof.
  destruct Hpre as (? & ? & ? & ?).
  unfold A', linked_in, get_head_hunk. fld_case.
Qed.

Lemma linked_in_least_recent x :
  fld least_recent_ptr A' x =
    if decide (x = p) then Some (Some 0)
    else if decide (x = a) then Some (Some p) else fld least_recent_ptr A x.
Proof.
  destruct Hpre as (? & ? & ? & ?).
  unfold A', linked_in, get_head_hunk. fld_case.
Qed.

End LinkedInFields.

(** * The representation invariant *)

Lemma last_elem (l : list Z) x : List.last l x ∈ x :: l.
Proof.
  destruct l as [|a l] using rev_ind; [set_solver|]. rewrite last_last. set_solver.
Qed.

Lemma hd_elem (l : list Z) y : hd y l ∈ y :: l.
Proof. destruct l; set_solver. Qed.

Lemma linked_gap nx pv x l1 l2 y :
  linked nx pv x (l1 ++ l2) y →
  nx (List.last l1 x) = Some (Some (hd y l2)) ∧ pv (hd y l2) = Some (Some (List.last l1 x)).
Proof.
  intros H. destruct l2 as [|a l2].
  - rewrite app_nil_r in H. simpl. split; [|by eapply linked_last].
    destruct l1 as [|b l1] using rev_ind; [by destruct H|].
    rewrite last_last. apply linked_succ in H. done.
  - simpl. split; [|by eapply linked_pred].
    destruct l1 as [|b l1] using rev_ind; [by destruct H|].
    rewrite last_last. rewrite <- app_assoc in H. apply linked_succ in H. done.
Qed.

Section RingsFacts.

Context (m : LRUMemoryManager) (al ll : list Z) (Hr : rings m al ll).

Lemma rings_NoDup : NoDup al.
Proof. eapply packed_NoDup, r_layout, Hr. Qed.

Lemma rings_ge x : x ∈ al → sizeof_LRUMemoryHunk ≤ x.
Proof. intros Hx. eapply packed_lt in Hx; [|eapply r_layout, Hr]. lia. Qed.

Lemma rings_not_head : 0 ∉ al.
Proof. intros H%rings_ge. unfold sizeof_LRUMemoryHunk in H. lia. Qed.

Lemma rings_NoDup_head : NoDup (0 :: al).
Proof. constructor; [apply rings_not_head|apply rings_NoDup]. Qed.

Lemma rings_lru_NoDup_head : NoDup (0 :: ll).
Proof. rewrite (r_perm _ _ _ Hr). apply rings_NoDup_head. Qed.

Lemma rings_live_head : live (arena m) 0.
Proof. apply (r_dom _ _ _ Hr). by left. Qed.

Lemma rings_live x : x ∈ al → live (arena m) x.
Proof. intros. apply (r_dom _ _ _ Hr). by right. Qed.

Lemma rings_live_lru x : x ∈ 0 :: ll → live (arena m) x.
Proof.
  rewrite (r_perm _ _ _ Hr). intros [->|?]%elem_of_cons;
    [apply rings_live_head|by apply rings_live].
Qed.

Lemma rings_live_addr x : x ∈ 0 :: al → live (arena m) x.
Proof.
  intros [->|?]%elem_of_cons; [apply rings_live_head|by apply rings_live].
Qed.

Lemma rings_consumed :
  sizeof_LRUMemoryHunk ≤ mem_allocated_size_ m ≤ mem_total_size_ m.
Proof.
  rewrite (r_allocated _ _ _ Hr).
  pose proof (packed_footprint _ _ _ _ (r_layout _ _ _ Hr)). lia.
Qed.

End RingsFacts.

Lemma wrap_small x : 0 ≤ x < size_t_modulus → wrap x = x.
Proof. intros. unfold wrap. by apply Z.mod_small. Qed.

(** ** Placement *)

Lemma place_spec m al ll l1 l2 n :
  rings m al ll → al = l1 ++ l2 →
  let p := lend (fld size (arena m)) sizeof_LRUMemoryHunk l1 in
  p + n ≤ hd (mem_total_size_ m) l2 →
  sizeof_LRUMemoryHunk ≤ n → n mod MEMORY_ALIGNMENT = 0 →
  ∃ m', place p n (hd 0 l2) m = Ok (p, m') ∧
        rings m' (l1 ++ p :: l2) (p :: ll) ∧
        hunk_ptr_ m' = hunk_ptr_ m ∧
        mem_total_size_ m' = mem_total_size_ m ∧
        ¬ live (arena m) p ∧
        fld handler_ptr (arena m') p = Some None ∧
        fld size (arena m') p = Some n ∧
        (∀ x, x ≠ p → fld handler_ptr (arena m') x = fld handler_ptr (arena m) x) ∧
        (∀ x, x ≠ p → fld size (arena m') x = fld size (arena m) x).
Proof.
  intros Hr -> p Hfit Hn Hal.
  pose proof (r_layout _ _ _ Hr) as Hlay.
  apply packed_split in Hlay as [Hlay1 Hlay2]. fold p in Hlay1, Hlay2.
  pose proof (packed_le _ _ _ _ Hlay1) as Hp48.
  assert (p ≠ 0) as Hp0 by (unfold sizeof_LRUMemoryHunk in *; lia).
  assert (∀ x, x ∈ l1 → x < p) as Hl1.
  { intros x Hx. destruct (packed_elem _ _ _ _ _ Hlay1 Hx) as (s & ? & ? & ? & ? & ?).
    unfold sizeof_LRUMemoryHunk in *. lia. }
  assert (∀ x, x ∈ l2 → p < x) as Hl2.
  { intros x Hx. destruct l2 as [|a l2]; [set_solver|]. simpl in Hfit, Hlay2.
    destruct Hlay2 as (s & ? & ? & ? & ? & Hlay3).
    apply elem_of_cons in Hx as [->|Hx]; [unfold sizeof_LRUMemoryHunk in *; lia|].
    eapply packed_lt in Hx; [|exact Hlay3]. unfold sizeof_LRUMemoryHunk in *. lia. }
  assert (p ∉ l1 ++ l2) as Hpal.
  { intros [Hx|Hx]%elem_of_app; [apply Hl1 in Hx|apply Hl2 in Hx]; lia. }
  assert (¬ live (arena m) p) as Hfresh.
  { rewrite (r_dom _ _ _ Hr). naive_solver. }
  destruct (linked_gap _ _ _ _ _ _ (r_addr _ _ _ Hr)) as [Hnx Hpv].
  pose proof (linked_first _ _ _ _ _ (r_lru _ _ _ Hr)) as Hmr.
  set (pv := List.last l1 0) in *. set (nxt := hd 0 l2) in *. set (a := hd 0 ll) in *.
  assert (live (arena m) pv) as Hlpv.
  { eapply rings_live_addr; [done|]. pose proof (last_elem l1 0). set_solver. }
  assert (live (arena m) nxt) as Hlnxt.
  { eapply rings_live_addr; [done|]. pose proof (hd_elem l2 0). set_solver. }
  assert (live (arena m) a) as Hla.
  { eapply rings_live_lru; [done|]. apply hd_elem. }
  assert (p ≠ nxt) as Hpnxt.
  { intros Heq. apply Hfresh. by rewrite Heq. }
  pose proof (rings_live_head _ _ _ Hr) as Hl0.
  assert (placed_pre (arena m) p nxt pv a) as Hpre by done.
  eexists. split; [by apply (place_Ok m p n nxt pv a)|].
  assert (∀ x, x ∈ l1 ++ l2 →
    fld size (placed p n nxt pv a (arena m)) x = fld size (arena m) x) as Hsz.
  { intros x Hx. rewrite (placed_size _ _ _ _ _ _ Hpre). case_decide; [by subst|done]. }
  assert (packed (fld size (placed p n nxt pv a (arena m))) sizeof_LRUMemoryHunk
            (l1 ++ p :: l2) (mem_total_size_ m)) as Hlay'.
  { eapply packed_insert; try done; [apply (r_layout _ _ _ Hr)|].
    rewrite (placed_size _ _ _ _ _ _ Hpre). by rewrite decide_True. }
  split_and!; norm_state.
  - constructor; norm_state.
    + rewrite (placed_size _ _ _ _ _ _ Hpre). rewrite decide_False by done. apply Hr.
    + rewrite (placed_handler _ _ _ _ _ _ Hpre). rewrite decide_False by done. apply Hr.
    + intros x. rewrite placed_live, (r_dom _ _ _ Hr). set_solver.
    + eapply linked_insert; [..|apply (r_addr _ _ _ Hr)].
      * by eapply rings_NoDup_head.
      * by eapply rings_not_head.
      * set_solver.
      * done.
      * rewrite (placed_next _ _ _ _ _ _ Hpre). by rewrite decide_True.
      * rewrite (placed_prev _ _ _ _ _ _ Hpre). by rewrite decide_True.
      * intros z Hz. rewrite (placed_next _ _ _ _ _ _ Hpre). by rewrite decide_False.
      * intros z Hz. rewrite (placed_prev _ _ _ _ _ _ Hpre). by rewrite decide_False.
    + pose proof (rings_lru_NoDup_head _ _ _ Hr) as Hnd.
      eapply (linked_insert _ _ _ _ 0 [] p ll 0); simpl; [..|apply (r_lru _ _ _ Hr)].
      * done.
      * by apply NoDup_cons in Hnd as [??].
      * rewrite (r_perm _ _ _ Hr). set_solver.
      * done.
      * rewrite (placed_most_recent _ _ _ _ _ _ Hpre). by rewrite decide_True.
      * rewrite (placed_least_recent _ _ _ _ _ _ Hpre). by rewrite decide_True.
      * intros z Hz. rewrite (placed_most_recent _ _ _ _ _ _ Hpre). by rewrite decide_False.
      * intros z Hz. rewrite (placed_least_recent _ _ _ _ _ _ Hpre). by rewrite decide_False.
    + rewrite (r_perm _ _ _ Hr). apply Permutation_middle.
    + done.
    + apply Hr.
    + rewrite footprint_app. simpl. rewrite (placed_size _ _ _ _ _ _ Hpre), decide_True by done. simpl.
      pose proof (packed_footprint _ _ _ _ Hlay') as [Hfp _].
      rewrite footprint_app in Hfp. simpl in Hfp.
      rewrite (placed_size _ _ _ _ _ _ Hpre), decide_True in Hfp by done. simpl in Hfp.
      rewrite !(footprint_ext (fld size (arena m))
                  (fld size (placed p n nxt pv a (arena m)))) in *
        by (intros; apply Hsz; set_solver).
      pose proof (packed_footprint _ _ _ _ (r_layout _ _ _ Hr)) as [_ Hfp0].
      rewrite footprint_app in Hfp0.
      pose proof (packed_footprint _ _ _ _ Hlay1) as [_ Hfp1].
      pose proof (packed_footprint _ _ _ _ Hlay2) as [_ Hfp2].
      rewrite (r_allocated _ _ _ Hr), footprint_app.
      pose proof (r_total _ _ _ Hr).
      rewrite wrap_small by (unfold sizeof_LRUMemoryHunk in *; lia). lia.
    + apply Hr.
  - done.
  - done.
  - done.
  - rewrite (placed_handler _ _ _ _ _ _ Hpre). by rewrite decide_True.
  - rewrite (placed_size _ _ _ _ _ _ Hpre). by rewrite decide_True.
  - intros x Hx. rewrite (placed_handler _ _ _ _ _ _ Hpre). by rewrite decide_False.
  - intros x Hx. rewrite (placed_size _ _ _ _ _ _ Hpre). by rewrite decide_False.
Qed.

(** ** Release *)

Lemma real_free_spec m al ll h p :
  inv m al ll → hunk_ptr_ m !! h = Some p →
  ∃ m' l1 l2 k1 k2,
    al = l1 ++ p :: l2 ∧ ll = k1 ++ p :: k2 ∧
    real_free h m = Ok (tt, m') ∧
    inv m' (l1 ++ l2) (k1 ++ k2) ∧
    hunk_ptr_ m' = delete h (hunk_ptr_ m) ∧
    mem_total_size_ m' = mem_total_size_ m ∧
    (∀ s, fld size (arena m) p = Some s →
          mem_allocated_size_ m' = mem_allocated_size_ m - s) ∧
    ¬ live (arena m') p ∧
    (∀ x, x ≠ p → fld size (arena m') x = fld size (arena m) x) ∧
    (∀ x, x ≠ p → fld handler_ptr (arena m') x = fld handler_ptr (arena m) x).
Proof.
  intros [Hr [Hb1 Hb2]] Hh.
  destruct (Hb2 _ _ Hh) as [Hpal Hhp].
  assert (p ∈ ll) as Hpll by (by rewrite (r_perm _ _ _ Hr)).
  apply list_elem_of_split in Hpal as (l1 & l2 & ->).
  apply list_elem_of_split in Hpll as (k1 & k2 & ->).
  exists (mkManager (mem_total_size_ m)
            (wrap (mem_allocated_size_ m -
                   default 0 (fld size (arena m) p))) (mem_arena_ptr_ m)
            (freed p (List.last l1 0) (hd 0 l2) (hd 0 k2) (List.last k1 0) (arena m))
            (delete h (hunk_ptr_ m))), l1, l2, k1, k2.
  pose proof (rings_NoDup_head _ _ _ Hr) as Hnda.
  pose proof (rings_lru_NoDup_head _ _ _ Hr) as Hndl.
  pose proof (linked_succ _ _ _ _ _ _ _ (r_addr _ _ _ Hr)) as Hnx.
  pose proof (linked_pred _ _ _ _ _ _ _ (r_addr _ _ _ Hr)) as Hpv.
  pose proof (linked_succ _ _ _ _ _ _ _ (r_lru _ _ _ Hr)) as Hmr.
  pose proof (linked_pred _ _ _ _ _ _ _ (r_lru _ _ _ Hr)) as Hlr.
  set (pv := List.last l1 0) in *. set (nx := hd 0 l2) in *.
  set (a := hd 0 k2) in *. set (b := List.last k1 0) in *.
  assert (pv ∈ 0 :: l1) as Hpv_in by apply last_elem.
  assert (nx ∈ 0 :: l2) as Hnx_in by apply hd_elem.
  assert (a ∈ 0 :: k2) as Ha_in by apply hd_elem.
  assert (b ∈ 0 :: k1) as Hb_in by apply last_elem.
  assert (p ≠ 0) as Hp0.
  { intros ->. eapply rings_not_head; [done|]. set_solver. }
  assert (p ∉ l1 ++ l2) as Hpl.
  { apply NoDup_cons in Hnda as [_ Hnd]. apply NoDup_app in Hnd as (_ & Hd & Hnd).
    apply NoDup_cons in Hnd as [? _]. intros [?|?]%elem_of_app; [|done].
    eapply Hd; [done|]. set_solver. }
  assert (p ∉ k1 ++ k2) as Hpk.
  { apply NoDup_cons in Hndl as [_ Hnd]. apply NoDup_app in Hnd as (_ & Hd & Hnd).
    apply NoDup_cons in Hnd as [? _]. intros [?|?]%elem_of_app; [|done].
    eapply Hd; [done|]. set_solver. }
  assert (p ≠ pv ∧ p ≠ nx ∧ p ≠ a ∧ p ≠ b) as (Hppv & Hpnx & Hpa & Hpb).
  { split_and!; intros <-; set_solver. }
  assert (live (arena m) p) as Hlp by (eapply rings_live; [done|set_solver]).
  assert (live (arena m) pv) as Hlpv by (eapply rings_live_addr; [done|set_solver]).
  assert (live (arena m) nx) as Hlnx by (eapply rings_live_addr; [done|set_solver]).
  assert (live (arena m) a) as Hla by (eapply rings_live_lru; [done|set_solver]).
  assert (live (arena m) b) as Hlb by (eapply rings_live_lru; [done|set_solver]).
  assert (freed_pre (arena m) p pv nx a b) as Hpre by done.
  destruct (packed_elem _ _ _ _ p (r_layout _ _ _ Hr)) as (s & Hs & ? & ? & ? & ?);
    [set_solver|].
  rewrite Hs. simpl.
  pose proof (packed_remove _ _ _ _ _ _ (r_layout _ _ _ Hr)) as Hlay'.
  assert (∀ x, x ≠ p → fld size (freed p pv nx a b (arena m)) x = fld size (arena m) x) as Hsz.
  { intros x Hx. rewrite (freed_size _ _ _ _ _ _ Hpre). by rewrite decide_False. }
  assert (∀ x, x ∈ l1 ++ l2 → x ≠ p) as Hne by (intros x Hx ->; done).
  pose proof (packed_footprint _ _ _ _ (r_layout _ _ _ Hr)) as [Hfp Hfp0].
  pose proof (packed_footprint _ _ _ _ Hlay') as [Hfp' Hfp0'].
  rewrite footprint_app in Hfp, Hfp0, Hfp0'. simpl in Hfp, Hfp0. rewrite Hs in Hfp, Hfp0.
  simpl in Hfp, Hfp0. rewrite footprint_app in Hfp'.
  pose proof (r_total _ _ _ Hr) as Htot.
  pose proof (r_allocated _ _ _ Hr) as Hall.
  rewrite footprint_app in Hall. simpl in Hall. rewrite Hs in Hall. simpl in Hall.
  assert (wrap (mem_allocated_size_ m - s) = mem_allocated_size_ m - s) as Hwrap.
  { apply wrap_small. unfold sizeof_LRUMemoryHunk in *. lia. }
  split_and!; norm_state; try done.
  - by apply (real_free_Ok m h p pv nx a b s).
  - split; [constructor; norm_state|split; norm_state].
    + rewrite Hsz by done. apply Hr.
    + rewrite (freed_handler _ _ _ _ _ _ Hpre). rewrite decide_False by done. apply Hr.
    + intros x. rewrite freed_live, (r_dom _ _ _ Hr). set_solver.
    + eapply linked_remove; [..|apply (r_addr _ _ _ Hr)].
      * done.
      * by eapply rings_not_head.
      * intros z Hz. rewrite (freed_next _ _ _ _ _ _ Hpre). by rewrite decide_False.
      * intros z Hz. rewrite (freed_prev _ _ _ _ _ _ Hpre). by rewrite decide_False.
    + eapply linked_remove; [..|apply (r_lru _ _ _ Hr)].
      * done.
      * by apply NoDup_cons in Hndl as [??].
      * intros z Hz. rewrite (freed_most_recent _ _ _ _ _ _ Hpre). by rewrite decide_False.
      * intros z Hz. rewrite (freed_least_recent _ _ _ _ _ _ Hpre). by rewrite decide_False.
    + pose proof (r_perm _ _ _ Hr) as Hperm.
      rewrite <- !Permutation_middle in Hperm. by apply (inj (cons p)) in Hperm.
    + eapply packed_ext; [|exact Hlay']. intros x Hx. apply Hsz. by apply Hne.
    + done.
    + rewrite Hwrap, Hall.
      rewrite (footprint_ext (fld size (arena m)) (fld size (freed p pv nx a b (arena m))))
        by (intros x Hx; apply Hsz; by apply Hne).
      rewrite footprint_app. lia.
    + apply Hr.
    + intros x Hx. destruct (Hb1 x) as (hx & Hhx & Hpx); [set_solver|].
      exists hx. rewrite (freed_handler _ _ _ _ _ _ Hpre).
      rewrite decide_False by (by apply Hne). split; [done|].
      rewrite lookup_delete_ne; [done|]. intros ->. rewrite Hh in Hpx.
      injection Hpx as ->. by apply Hne in Hx.
    + intros hx x Hx. apply lookup_delete_Some in Hx as [Hhx Hx].
      destruct (Hb2 _ _ Hx) as [Hxal Hxh].
      assert (x ≠ p).
      { intros ->. rewrite Hhp in Hxh. congruence. }
      rewrite (freed_handler _ _ _ _ _ _ Hpre). rewrite decide_False by done.
      split; [|done]. set_solver.
  - intros s' [= <-]. done.
  - rewrite freed_live. naive_solver.
  - intros x Hx. rewrite (freed_handler _ _ _ _ _ _ Hpre). by rewrite decide_False.
Qed.

(** ** Access and promotion *)

Lemma real_get_buffer_unbound m h :
  hunk_ptr_ m !! h = None → real_get_buffer h m = Ok (None, m).
Proof.
  intros Hh. unfold real_get_buffer.
  erewrite bind_Ok by (unfold get_hunk_ptr; rewrite Hh; reflexivity). done.
Qed.

Lemma real_get_buffer_spec m al ll h p :
  inv m al ll → hunk_ptr_ m !! h = Some p →
  ∃ m' k1 k2,
    ll = k1 ++ p :: k2 ∧
    real_get_buffer h m = Ok (Some (data_ptr p), m') ∧
    inv m' al (p :: k1 ++ k2) ∧
    hunk_ptr_ m' = hunk_ptr_ m ∧
    mem_total_size_ m' = mem_total_size_ m ∧
    mem_allocated_size_ m' = mem_allocated_size_ m ∧
    (∀ x, fld size (arena m') x = fld size (arena m) x) ∧
    (∀ x, fld handler_ptr (arena m') x = fld handler_ptr (arena m) x) ∧
    (∀ x, fld next_ptr (arena m') x = fld next_ptr (arena m) x) ∧
    (∀ x, fld prev_ptr (arena m') x = fld prev_ptr (arena m) x).
Proof.
  intros [Hr [Hb1 Hb2]] Hh.
  destruct (Hb2 _ _ Hh) as [Hpal Hhp].
  assert (p ∈ ll) as Hpll by (by rewrite (r_perm _ _ _ Hr)).
  apply list_elem_of_split in Hpll as (k1 & k2 & ->).
  set (a := hd 0 k2). set (b := List.last k1 0). set (a' := hd 0 (k1 ++ k2)).
  set (B := unlinked p a b (arena m)).
  exists (mkManager (mem_total_size_ m) (mem_allocated_size_ m) (mem_arena_ptr_ m)
            (linked_in p a' B) (hunk_ptr_ m)), k1, k2.
  pose proof (rings_lru_NoDup_head _ _ _ Hr) as Hndl.
  pose proof (linked_succ _ _ _ _ _ _ _ (r_lru _ _ _ Hr)) as Hmr.
  pose proof (linked_pred _ _ _ _ _ _ _ (r_lru _ _ _ Hr)) as Hlr.
  fold a in Hmr. fold b in Hlr.
  assert (a ∈ 0 :: k2) as Ha_in by apply hd_elem.
  assert (b ∈ 0 :: k1) as Hb_in by apply last_elem.
  assert (a' ∈ 0 :: k1 ++ k2) as Ha'_in by apply hd_elem.
  assert (p ≠ 0) as Hp0.
  { intros ->. by eapply rings_not_head. }
  assert (p ∉ k1 ++ k2) as Hpk.
  { apply NoDup_cons in Hndl as [_ Hnd]. apply NoDup_app in Hnd as (_ & Hd & Hnd).
    apply NoDup_cons in Hnd as [? _]. intros [?|?]%elem_of_app; [|done].
    eapply Hd; [done|]. set_solver. }
  assert (NoDup (0 :: k1 ++ k2)) as Hndl'.
  { pose proof Hndl as Hnd. rewrite <- Permutation_middle in Hnd.
    apply NoDup_cons in Hnd as [Hn0 Hnd]. apply NoDup_cons in Hnd as [? ?].
    constructor; [set_solver|done]. }
  assert (p ≠ a ∧ p ≠ b ∧ p ≠ a') as (Hpa & Hpb & Hpa').
  { split_and!; intros <-; set_solver. }
  assert (live (arena m) p) as Hlp by (by eapply rings_live).
  assert (live (arena m) a) as Hla by (eapply rings_live_lru; [done|set_solver]).
  assert (live (arena m) b) as Hlb by (eapply rings_live_lru; [done|set_solver]).
  assert (live (arena m) a') as Hla' by (eapply rings_live_lru; [done|set_solver]).
  pose proof (rings_live_head _ _ _ Hr) as Hl0.
  assert (unlinked_pre (arena m) p a b) as Hpre by done.
  assert (linked (fld most_recent_ptr B) (fld least_recent_ptr B) 0 (k1 ++ k2) 0) as HB.
  { eapply linked_remove; [..|apply (r_lru _ _ _ Hr)].
    - done.
    - by apply NoDup_cons in Hndl as [??].
    - intros z Hz. unfold B. rewrite (unlinked_most_recent _ _ _ _ Hpre).
      by rewrite decide_False.
    - intros z Hz. unfold B. rewrite (unlinked_least_recent _ _ _ _ Hpre).
      by rewrite decide_False. }
  pose proof (linked_first _ _ _ _ _ HB) as Hmr'. fold a' in Hmr'.
  assert (linked_in_pre B p a') as Hpre'.
  { unfold linked_in_pre, B. by rewrite !unlinked_live. }
  split_and!; norm_state; try done.
  - unfold real_get_buffer.
    erewrite bind_Ok by (unfold get_hunk_ptr; rewrite Hh; reflexivity).
    cbn beta iota.
    erewrite bind_Ok by (by apply (unlink_lru_Ok m p a b)).
    fold B.
    assert (link_lru p (mkManager (mem_total_size_ m) (mem_allocated_size_ m) (mem_arena_ptr_ m) B (hunk_ptr_ m))
            = Ok (tt, mkManager (mem_total_size_ m) (mem_allocated_size_ m) (mem_arena_ptr_ m)
                        (linked_in p a' B) (hunk_ptr_ m))) as Hlink.
    { rewrite (link_lru_Ok _ p a'); norm_state; [done|..].
      - unfold B. rewrite (unlinked_most_recent _ _ _ _ Hpre). by rewrite decide_True.
      - unfold B. rewrite (unlinked_least_recent _ _ _ _ Hpre). by rewrite decide_True.
      - done.
      - unfold B. by rewrite unlinked_live. }
    erewrite bind_Ok by exact Hlink. done.
  - assert (∀ {T} (g : LRUMemoryHunk → T) x,
      (∀ v k, g (set_most_recent_ptr v k) = g k) →
      (∀ v k, g (set_least_recent_ptr v k) = g k) →
      fld g (linked_in p a' B) x = fld g (arena m) x) as Hframe.
    { intros T g x H1 H2. rewrite linked_in_frame by done. by apply unlinked_frame. }
    split; [constructor; norm_state|split; norm_state].
    + rewrite Hframe by done. apply Hr.
    + rewrite Hframe by done. apply Hr.
    + intros x. unfold B. rewrite linked_in_live, unlinked_live. apply Hr.
    + eapply linked_ext; [| |apply (r_addr _ _ _ Hr)]; intros; by apply Hframe.
    + eapply (linked_insert _ _ _ _ 0 [] p (k1 ++ k2) 0); simpl; [..|exact HB].
      * done.
      * by apply NoDup_cons in Hndl' as [??].
      * set_solver.
      * done.
      * rewrite (linked_in_most_recent _ _ _ Hpre'). by rewrite decide_True.
      * rewrite (linked_in_least_recent _ _ _ Hpre'). by rewrite decide_True.
      * intros z Hz. rewrite (linked_in_most_recent _ _ _ Hpre'). by rewrite decide_False.
      * intros z Hz. rewrite (linked_in_least_recent _ _ _ Hpre'). by rewrite decide_False.
    + rewrite <- (r_perm _ _ _ Hr). apply Permutation_middle.
    + eapply packed_ext; [|apply (r_layout _ _ _ Hr)]. intros; by apply Hframe.
    + apply Hr.
    + rewrite (r_allocated _ _ _ Hr). f_equal. symmetry.
      apply footprint_ext. intros; by apply Hframe.
    + apply Hr.
    + intros x Hx. rewrite Hframe by done. by apply Hb1.
    + intros hx x Hx. rewrite Hframe by done. by apply Hb2.
  - intros x. rewrite linked_in_frame by done. by apply unlinked_frame.
  - intros x. rewrite linked_in_frame by done. by apply unlinked_frame.
  - intros x. rewrite linked_in_frame by done. by apply unlinked_frame.
  - intros x. rewrite linked_in_frame by done. by apply unlinked_frame.
Qed.

(** ** The placement search *)

Lemma first_fit_cons sz lo a l hi n :
  first_fit sz lo (a :: l) hi n =
    if lo + n <=? a then Some O
    else S <$> first_fit sz (a + default 0 (sz a)) l hi n.
Proof. reflexivity. Qed.

Lemma first_fit_at_cons base sz lo a l hi n :
  first_fit_at base sz lo (a :: l) hi n =
    if ptr_add base lo n <=? a then Some O
    else S <$> first_fit_at base sz (a + default 0 (sz a)) l hi n.
Proof. reflexivity. Qed.

Lemma ptr_add_small base p n :
  0 ≤ base + p + n < size_t_modulus → ptr_add base p n = p + n.
Proof. intros H. unfold ptr_add. rewrite wrap_small by done. lia. Qed.

Lemma first_fit_at_le base sz lo l hi n i :
  first_fit_at base sz lo l hi n = Some i → (i ≤ length l)%nat.
Proof.
  revert lo i. induction l as [|a l IH]; intros lo i; simpl.
  - destruct (_ <=? _); [|done]. intros [= <-]. lia.
  - destruct (_ <=? _); [intros [= <-]; lia|].
    rewrite fmap_Some. intros (i' & Hi' & ->). apply IH in Hi'. lia.
Qed.

(** What [first_fit_at] says of the gap behind the last hunk. *)
Lemma first_fit_at_tail base sz lo l hi n :
  match first_fit_at base sz lo l hi n with
  | Some i => i = length l → ptr_add base (lend sz lo l) n ≤ hi
  | None => hi < ptr_add base (lend sz lo l) n
  end.
Proof.
  revert lo. induction l as [|a l IH]; intros lo; simpl.
  - destruct (Z.leb_spec (ptr_add base lo n) hi); [done|lia].
  - destruct (Z.leb_spec (ptr_add base lo n) a); [done|].
    specialize (IH (a + default 0 (sz a))).
    destruct (first_fit_at _ _ _ l _ _) as [i|]; simpl; [|done].
    intros [= ->]. by apply IH.
Qed.

(** A gap that takes the request lies inside the arena. *)
Lemma first_fit_inside sz lo l hi n i :
  packed sz lo l hi → 0 ≤ n → first_fit sz lo l hi n = Some i → lo + n ≤ hi.
Proof.
  revert lo i. induction l as [|a l IH]; intros lo i Hp Hn; simpl.
  - destruct (Z.leb_spec (lo + n) hi); [done|done].
  - destruct Hp as (s & Hs & Hlo & Hs48 & _ & Hp).
    pose proof (packed_le _ _ _ _ Hp) as Hle.
    destruct (Z.leb_spec (lo + n) a).
    + intros _. unfold sizeof_LRUMemoryHunk in *. lia.
    + rewrite fmap_Some. intros (i' & Hi' & ->). rewrite Hs in Hi'. simpl in Hi'.
      apply (IH _ _ Hp Hn) in Hi'. unfold sizeof_LRUMemoryHunk in *. lia.
Qed.

(** Where no address wraps around, the fit tests of [try_alloc] are the
    ones on offsets: that is so when some gap takes the request, and when
    the request added to the end address of the block stays below [2^64]. *)
Lemma first_fit_at_eq base sz lo l hi n :
  0 ≤ base → 0 ≤ lo → 0 ≤ n → base + hi < size_t_modulus →
  packed sz lo l hi →
  is_Some (first_fit sz lo l hi n) ∨ base + hi + n < size_t_modulus →
  first_fit_at base sz lo l hi n = first_fit sz lo l hi n.
Proof.
  intros Hb Hlo Hn Hhi. revert lo Hlo. induction l as [|a l IH]; intros lo Hlo Hp Hw.
  - assert (ptr_add base lo n = lo + n) as Heq.
    { apply ptr_add_small. pose proof (packed_le _ _ _ _ Hp).
      destruct Hw as [[i Hi]|?]; [|lia].
      apply (first_fit_inside _ _ _ _ _ _ Hp Hn) in Hi. lia. }
    simpl. by rewrite Heq.
  - assert (ptr_add base lo n = lo + n) as Heq.
    { apply ptr_add_small. pose proof (packed_le _ _ _ _ Hp).
      destruct Hw as [[i Hi]|?]; [|lia].
      apply (first_fit_inside _ _ _ _ _ _ Hp Hn) in Hi. lia. }
    rewrite first_fit_at_cons, first_fit_cons, Heq.
    destruct (lo + n <=? a) eqn:Hc; [done|]. f_equal.
    destruct Hp as (s & Hs & Hloa & Hs48 & _ & Hp). rewrite Hs. simpl.
    apply IH; [unfold sizeof_LRUMemoryHunk in *; lia|done|].
    destruct Hw as [Hsome|?]; [left|by right].
    rewrite first_fit_cons, Hc, Hs in Hsome. simpl in Hsome.
    by apply fmap_is_Some in Hsome.
Qed.

Lemma lend_last_head sz l :
  sz 0 = Some sizeof_LRUMemoryHunk →
  lend sz sizeof_LRUMemoryHunk l = List.last l 0 + default 0 (sz (List.last l 0)).
Proof. intros H0. by rewrite <- (lend_last sz sizeof_LRUMemoryHunk l 0 H0). Qed.

(** The end address of a stretch of the address ring, as [try_alloc]
    computes it. *)
Lemma ptr_add_lend m al ll l1 k :
  rings m al ll → (∃ l2, al = l1 ++ l2) →
  arena m !! List.last l1 0 = Some k →
  ptr_add (mem_arena_ptr_ m) (List.last l1 0) (size k) =
    lend (fld size (arena m)) sizeof_LRUMemoryHunk l1 ∧
  sizeof_LRUMemoryHunk ≤ lend (fld size (arena m)) sizeof_LRUMemoryHunk l1 ≤ mem_total_size_ m.
Proof.
  intros Hr [l2 Hal] Hk.
  pose proof (lend_last_head (fld size (arena m)) l1 (r_head_size _ _ _ Hr)) as Hlo.
  assert (fld size (arena m) (List.last l1 0) = Some (size k)) as Hsz
    by (unfold fld; by rewrite Hk).
  rewrite Hsz in Hlo. simpl in Hlo.
  pose proof (r_layout _ _ _ Hr) as Hp. rewrite Hal in Hp.
  apply packed_split in Hp as [Hp1 Hp2].
  pose proof (packed_lend _ _ _ _ Hp1) as [Hl1 _].
  pose proof (packed_le _ _ _ _ Hp2) as Hl2.
  destruct (r_block _ _ _ Hr) as [Hb1 Hb2].
  split; [|lia]. rewrite Hlo. apply ptr_add_small.
  unfold sizeof_LRUMemoryHunk in *. lia.
Qed.

Lemma try_alloc_loop_spec m al ll n :
  rings m al ll →
  ∀ l2 l1 a fuel, al = l1 ++ a :: l2 → (length l2 < fuel)%nat →
  let sz := fld size (arena m) in
  let lo := lend sz sizeof_LRUMemoryHunk l1 in
  try_alloc_loop fuel n (List.last l1 0) a m =
    match first_fit_at (mem_arena_ptr_ m) sz lo (a :: l2) (mem_total_size_ m) n with
    | Some i =>
      if decide (i < length (a :: l2))%nat
      then (do p <- place (gap_start sz lo (a :: l2) i) n (gap_next (a :: l2) i);
            ret (Some p)) m
      else Ok (None, m)
    | None => Ok (None, m)
    end.
Proof.
  intros Hr. induction l2 as [|b l2 IH]; intros l1 a fuel Hal Hfuel sz lo.
  - destruct fuel as [|fuel]; [simpl in Hfuel; lia|].
    cbn [try_alloc_loop]. rewrite first_fit_at_cons.
    assert (live (arena m) (List.last l1 0)) as Hlive.
    { eapply rings_live_addr; [done|]. pose proof (last_elem l1 0). set_solver. }
    destruct Hlive as [k Hk].
    assert (fld size (arena m) (List.last l1 0) = Some (size k)) as Hsz by (unfold fld; by rewrite Hk).
    destruct (ptr_add_lend m al ll l1 k Hr (ex_intro _ _ Hal) Hk) as [Hlo _]. fold sz lo in Hlo.
    erewrite bind_Ok by (by apply read_Ok).
    erewrite bind_Ok by reflexivity. cbn zeta. rewrite Hlo.
    destruct (Z.leb_spec (ptr_add (mem_arena_ptr_ m) lo n) a) as [Hle|Hgt].
    + rewrite decide_True by (simpl; lia). done.
    + pose proof (linked_succ _ _ _ _ _ _ _ (eq_rect _ (λ l, linked _ _ 0 l 0) (r_addr _ _ _ Hr) _ Hal)) as Hnx.
      simpl in Hnx.
      erewrite bind_Ok by (by apply read_Ok).
      erewrite bind_Ok by reflexivity.
      unfold get_head_hunk. simpl.
      destruct (_ <=? _); simpl; done.
  - destruct fuel as [|fuel]; [simpl in Hfuel; lia|].
    cbn [try_alloc_loop]. rewrite first_fit_at_cons.
    assert (live (arena m) (List.last l1 0)) as Hlive.
    { eapply rings_live_addr; [done|]. pose proof (last_elem l1 0). set_solver. }
    destruct Hlive as [k Hk].
    assert (fld size (arena m) (List.last l1 0) = Some (size k)) as Hsz by (unfold fld; by rewrite Hk).
    destruct (ptr_add_lend m al ll l1 k Hr (ex_intro _ _ Hal) Hk) as [Hlo _]. fold sz lo in Hlo.
    erewrite bind_Ok by (by apply read_Ok).
    erewrite bind_Ok by reflexivity. cbn zeta. rewrite Hlo.
    destruct (Z.leb_spec (ptr_add (mem_arena_ptr_ m) lo n) a) as [Hle|Hgt].
    + rewrite decide_True by (simpl; lia). done.
    + pose proof (linked_succ _ _ _ _ _ _ _ (eq_rect _ (λ l, linked _ _ 0 l 0) (r_addr _ _ _ Hr) _ Hal)) as Hnx.
      simpl in Hnx.
      erewrite bind_Ok by (by apply read_Ok).
      erewrite bind_Ok by reflexivity.
      assert (b ≠ 0) as Hb0.
      { intros ->. eapply rings_not_head; [done|]. set_solver. }
      unfold get_head_hunk. rewrite (proj2 (Z.eqb_neq b 0)) by done.
      specialize (IH (l1 ++ [a]) b fuel).
      rewrite last_last in IH. rewrite <- app_assoc in IH.
      rewrite IH by (simpl in *; first [done | lia]).
      rewrite lend_snoc. fold sz.
      destruct (first_fit_at (mem_arena_ptr_ m) sz (a + default 0 (sz a)) (b :: l2)
                  (mem_total_size_ m) n)
        as [i|]; simpl; [|done].
      destruct (decide (i < S (length l2))%nat); [rewrite decide_True by lia|rewrite decide_False by lia]; done.
Qed.

(** [try_alloc] takes the first gap of the address ring that passes its fit
    test. *)
Lemma try_alloc_first_fit_at m al ll n fuel :
  rings m al ll → (length al < fuel)%nat →
  try_alloc fuel n m =
    match first_fit_at (mem_arena_ptr_ m) (fld size (arena m)) sizeof_LRUMemoryHunk al
                       (mem_total_size_ m) n with
    | Some i => place_at m al n i
    | None => Ok (None, m)
    end.
Proof.
  intros Hr Hfuel. unfold try_alloc, place_at, get_head_hunk.
  set (sz := fld size (arena m)). set (base := mem_arena_ptr_ m).
  pose proof (linked_first _ _ _ _ _ (r_addr _ _ _ Hr)) as Hnx.
  pose proof (linked_last _ _ _ _ _ (r_addr _ _ _ Hr)) as Hpv.
  destruct (r_block _ _ _ Hr) as [Hb1 Hb2]. fold base in Hb1, Hb2.
  erewrite bind_Ok by (by apply read_Ok).
  erewrite bind_Ok by reflexivity.
  assert ((do base <- get_arena_ptr;
           do total <- get_total;
             do last <- read prev_ptr 0;
             do last0 <- deref last;
             do lsize <- read size last0;
             if ptr_add base (ptr_add base last0 lsize) n <=? ptr_add base 0 total
             then do new_hunk_ptr <- place (ptr_add base last0 lsize) n 0;
                  ret (Some new_hunk_ptr)
             else ret None) m =
          if ptr_add base (lend sz sizeof_LRUMemoryHunk al) n <=? mem_total_size_ m
          then (do p <- place (lend sz sizeof_LRUMemoryHunk al) n 0; ret (Some p)) m
          else Ok (None, m)) as Htail.
  { erewrite bind_Ok by reflexivity.
    erewrite bind_Ok by reflexivity.
    erewrite bind_Ok by (by apply read_Ok).
    erewrite bind_Ok by reflexivity.
    assert (live (arena m) (List.last al 0)) as [k Hk].
    { eapply rings_live_addr; [done|]. apply last_elem. }
    assert (sz (List.last al 0) = Some (size k)) as Hsz by (unfold sz, fld; by rewrite Hk).
    destruct (ptr_add_lend m al ll al k Hr (ex_intro _ [] (eq_sym (app_nil_r al))) Hk) as [Hlo _].
    fold sz base in Hlo.
    erewrite bind_Ok by (by apply read_Ok).
    fold base. rewrite Hlo.
    rewrite (ptr_add_small base 0 (mem_total_size_ m))
      by (pose proof (rings_consumed _ _ _ Hr); unfold sizeof_LRUMemoryHunk in *; lia).
    rewrite Z.add_0_l. by destruct (_ <=? _). }
  pose proof (first_fit_at_tail base sz sizeof_LRUMemoryHunk al (mem_total_size_ m) n) as Htl.
  destruct al as [|a l2].
  - simpl in Hnx. destruct fuel as [|fuel]; [simpl in Hfuel; lia|].
    cbn [hd].
    assert (ptr_add base 0 sizeof_LRUMemoryHunk = sizeof_LRUMemoryHunk) as H48.
    { apply ptr_add_small. pose proof (rings_consumed _ _ _ Hr).
      unfold sizeof_LRUMemoryHunk in *. lia. }
    cbn [first_fit_at lend] in *.
    destruct (Z.leb_spec (ptr_add base sizeof_LRUMemoryHunk n) 0) as [Hle|Hgt].
    + (* the wrapped sum passes the test against the sentinel itself *)
      assert (try_alloc_loop (S fuel) n 0 0 m =
              (do p <- place sizeof_LRUMemoryHunk n 0; ret (Some p)) m) as Hloop.
      { cbn [try_alloc_loop].
        erewrite bind_Ok by (apply read_Ok, (r_head_size _ _ _ Hr)).
        erewrite bind_Ok by reflexivity.
        cbn zeta. fold base. rewrite H48.
        by rewrite (proj2 (Z.leb_le _ _)) by done. }
      assert (ptr_add base sizeof_LRUMemoryHunk n <=? mem_total_size_ m = true) as ->.
      { apply Z.leb_le. pose proof (rings_consumed _ _ _ Hr).
        unfold sizeof_LRUMemoryHunk in *. lia. }
      unfold gap_start, gap_next. cbn [take drop lend hd].
      unfold bind at 1. rewrite Hloop. unfold bind.
      destruct (place _ _ _ m) as [[p m']| | |]; done.
    + erewrite bind_Ok.
      2:{ cbn [try_alloc_loop].
          erewrite bind_Ok by (apply read_Ok, (r_head_size _ _ _ Hr)).
          erewrite bind_Ok by reflexivity.
          cbn zeta. fold base. rewrite H48.
          rewrite (proj2 (Z.leb_gt _ _)) by lia.
          erewrite bind_Ok by (by apply read_Ok).
          erewrite bind_Ok by reflexivity. reflexivity. }
      cbn beta iota. etrans; [exact Htail|]. simpl.
      unfold gap_start, gap_next. simpl.
      destruct (_ <=? _); done.
  - cbn [hd].
    pose proof (try_alloc_loop_spec m _ ll n Hr l2 [] a fuel eq_refl) as Hloop.
    cbn [List.last lend app] in Hloop. unfold bind at 1.
    rewrite Hloop by (simpl in Hfuel; lia). clear Hloop.
    fold sz base. fold sz base in Htl.
    destruct (first_fit_at base sz sizeof_LRUMemoryHunk (a :: l2) (mem_total_size_ m) n)
      as [i|] eqn:Hff.
    + case_decide as Hi.
      * unfold bind. unfold gap_next.
        destruct (place _ _ _ m) as [[p m']| | |]; done.
      * cbn beta iota. etrans; [exact Htail|].
        pose proof (first_fit_at_le _ _ _ _ _ _ _ Hff) as Hi'.
        assert (i = length (a :: l2)) as -> by (simpl in *; lia).
        unfold gap_start, gap_next. rewrite firstn_all, drop_all. simpl.
        by rewrite (proj2 (Z.leb_le _ _)) by (by apply Htl).
    + cbn beta iota. etrans; [exact Htail|].
      rewrite (proj2 (Z.leb_gt _ _)); [done|]. exact Htl.
Qed.

(** [try_alloc] is first-fit over the gaps of the address ring, where no
    address wraps around. *)
Lemma try_alloc_first_fit m al ll n fuel :
  rings m al ll → 0 ≤ n → (length al < fuel)%nat →
  is_Some (first_fit (fld size (arena m)) sizeof_LRUMemoryHunk al (mem_total_size_ m) n) ∨
    mem_arena_ptr_ m + mem_total_size_ m + n < size_t_modulus →
  try_alloc fuel n m =
    match first_fit (fld size (arena m)) sizeof_LRUMemoryHunk al (mem_total_size_ m) n with
    | Some i => place_at m al n i
    | None => Ok (None, m)
    end.
Proof.
  intros Hr Hn Hfuel Hw.
  rewrite (try_alloc_first_fit_at m al ll n fuel Hr Hfuel).
  destruct (r_block _ _ _ Hr) as [Hb1 Hb2].
  rewrite first_fit_at_eq; [done|lia|unfold sizeof_LRUMemoryHunk; lia|done|done| |done].
  apply (r_layout _ _ _ Hr).
Qed.

(** A placement pass that finds room keeps the arena well formed; the new
    hunk is not yet bound to a handle. *)
Lemma try_alloc_spec m al ll n fuel :
  rings m al ll →
  sizeof_LRUMemoryHunk ≤ n → n mod MEMORY_ALIGNMENT = 0 → (length al < fuel)%nat →
  is_Some (first_fit (fld size (arena m)) sizeof_LRUMemoryHunk al (mem_total_size_ m) n) ∨
    mem_arena_ptr_ m + mem_total_size_ m + n < size_t_modulus →
  match first_fit (fld size (arena m)) sizeof_LRUMemoryHunk al (mem_total_size_ m) n with
  | Some i =>
    let p := gap_start (fld size (arena m)) sizeof_LRUMemoryHunk al i in
    ∃ m', try_alloc fuel n m = Ok (Some p, m') ∧
          rings m' (take i al ++ p :: drop i al) (p :: ll) ∧
          hunk_ptr_ m' = hunk_ptr_ m ∧
          mem_total_size_ m' = mem_total_size_ m ∧
          ¬ live (arena m) p ∧
          fld handler_ptr (arena m') p = Some None ∧
          fld size (arena m') p = Some n ∧
          (∀ x, x ≠ p → fld handler_ptr (arena m') x = fld handler_ptr (arena m) x) ∧
          (∀ x, x ≠ p → fld size (arena m') x = fld size (arena m) x)
  | None => try_alloc fuel n m = Ok (None, m)
  end.
Proof.
  intros Hr Hn Hal Hfuel Hw.
  rewrite (try_alloc_first_fit m al ll n fuel Hr) by (unfold sizeof_LRUMemoryHunk in *; lia || done).
  destruct (first_fit _ _ _ _ _) as [i|] eqn:Hff; [|done].
  intros p. apply first_fit_Some in Hff as (Hi & Hfit & _).
  unfold gap_fits, gap_end in Hfit. fold p in Hfit.
  destruct (place_spec m al ll (take i al) (drop i al) n Hr) as (m' & Hpl & Hrest);
    [by rewrite take_drop|done..|].
  exists m'. split; [|done].
  unfold place_at, gap_next. fold p. by erewrite bind_Ok by exact Hpl.
Qed.

(** ** The arena block *)

Lemma keeps_base_bind {A B} (c : M A) (k : A → M B) :
  keeps_base c → (∀ a, keeps_base (k a)) → keeps_base (bind c k).
Proof.
  intros Hc Hk m r m'. unfold bind.
  destruct (c m) as [[a m1]| | |] eqn:E; try discriminate.
  intros Hr. rewrite (Hk a _ _ _ Hr). by apply (Hc _ _ _ E).
Qed.

Lemma keeps_base_ret {A} (a : A) : keeps_base (ret a).
Proof. intros m r m' [= _ <-]. done. Qed.

Lemma keeps_base_read {A} (g : LRUMemoryHunk → A) p : keeps_base (read g p).
Proof. intros m r m'. unfold read. destruct (arena m !! p); [|done]. by intros [= _ <-]. Qed.

Lemma keeps_base_store p f : keeps_base (store p f).
Proof. intros m r m'. unfold store. destruct (arena m !! p); [|done]. by intros [= _ <-]. Qed.

Lemma keeps_base_deref {A} (p : option A) : keeps_base (deref p).
Proof. intros m r m'. destruct p; [|done]. by intros [= _ <-]. Qed.

Lemma keeps_base_Expects b : keeps_base (Expects b).
Proof. intros m r m'. destruct b; [|done]. by intros [= _ <-]. Qed.

Lemma keeps_base_plain {A} (c : M A) :
  (∀ m, ∃ r m', c m = Ok (r, m') ∧ mem_arena_ptr_ m' = mem_arena_ptr_ m) → keeps_base c.
Proof. intros H m r m' E. destruct (H m) as (r0 & m0 & E0 & Hb). congruence. Qed.

Ltac keeps_base_step :=
  first
    [ apply keeps_base_bind; [|intros ?]
    | apply keeps_base_ret
    | apply keeps_base_read
    | apply keeps_base_store
    | apply keeps_base_deref
    | apply keeps_base_Expects
    | apply keeps_base_plain; intros ?; eexists _, _; split; reflexivity ].

Lemma keeps_base_unlink_lru p : keeps_base (unlink_lru p).
Proof. unfold unlink_lru. repeat keeps_base_step. Qed.

Lemma keeps_base_link_lru p : keeps_base (link_lru p).
Proof. unfold link_lru. repeat keeps_base_step. Qed.

Lemma keeps_base_place p n nxt : keeps_base (place p n nxt).
Proof.
  unfold place.
  repeat first [apply keeps_base_link_lru | keeps_base_step].
Qed.

Lemma keeps_base_real_free h : keeps_base (real_free h).
Proof.
  unfold real_free.
  repeat first [apply keeps_base_unlink_lru | keeps_base_step].
Qed.

Lemma keeps_base_real_get_buffer h : keeps_base (real_get_buffer h).
Proof.
  unfold real_get_buffer. apply keeps_base_bind; [keeps_base_step|].
  intros [p|]; repeat first [apply keeps_base_unlink_lru | apply keeps_base_link_lru | keeps_base_step].
Qed.

Lemma keeps_base_try_alloc_loop fuel n cur nxt : keeps_base (try_alloc_loop fuel n cur nxt).
Proof.
  revert cur nxt. induction fuel as [|fuel IH]; intros cur nxt; [done|].
  cbn [try_alloc_loop].
  apply keeps_base_bind; [keeps_base_step|]. intros csize.
  apply keeps_base_bind; [keeps_base_step|]. intros base.
  cbn zeta. case_match.
  - repeat first [apply keeps_base_place | keeps_base_step].
  - apply keeps_base_bind; [keeps_base_step|]. intros nn.
    apply keeps_base_bind; [keeps_base_step|]. intros nn'.
    case_match; [keeps_base_step|apply IH].
Qed.

Lemma keeps_base_try_alloc fuel n : keeps_base (try_alloc fuel n).
Proof.
  unfold try_alloc.
  repeat first
    [ apply keeps_base_try_alloc_loop | apply keeps_base_place
    | keeps_base_step | case_match ].
Qed.

Lemma keeps_base_real_alloc_loop fuel walk h a : keeps_base (real_alloc_loop fuel walk h a).
Proof.
  induction fuel as [|fuel IH]; [done|].
  cbn [real_alloc_loop].
  apply keeps_base_bind; [apply keeps_base_try_alloc|]. intros [p|].
  - repeat keeps_base_step.
  - apply keeps_base_bind; [keeps_base_step|]. intros lru.
    case_match; [keeps_base_step|].
    repeat first [apply IH | apply keeps_base_real_free | keeps_base_step].
Qed.

Lemma keeps_base_alloc fuel h n : keeps_base (alloc fuel h n).
Proof. apply keeps_base_real_alloc_loop. Qed.

Lemma keeps_base_flush fuel : keeps_base (flush fuel).
Proof.
  induction fuel as [|fuel IH]; [done|].
  cbn [flush].
  apply keeps_base_bind; [keeps_base_step|]. intros first.
  case_match; [keeps_base_step|].
  repeat first [apply IH | apply keeps_base_real_free | keeps_base_step].
Qed.

(** ** Eviction *)

Lemma without_notin v l : v ∉ l → without v l = l.
Proof.
  unfold without. induction l as [|a l IH]; intros Hv; [done|].
  rewrite filter_cons. rewrite decide_True by set_solver. f_equal. apply IH. set_solver.
Qed.

Lemma without_split v l1 l2 : NoDup (l1 ++ v :: l2) → without v (l1 ++ v :: l2) = l1 ++ l2.
Proof.
  intros Hnd. apply NoDup_app in Hnd as (_ & Hd & Hnd). apply NoDup_cons in Hnd as [Hv _].
  unfold without. rewrite filter_app, filter_cons. rewrite decide_False by (intros ?; done).
  fold (without v l1). fold (without v l2).
  rewrite !without_notin; [done|done|]. intros ?. eapply Hd; [done|]. set_solver.
Qed.

Lemma without_snoc v l : v ∉ l → without v (l ++ [v]) = l.
Proof.
  intros Hv. unfold without. rewrite filter_app. fold (without v l).
  rewrite without_notin by done. rewrite filter_cons, decide_False by (intros ?; done).
  by rewrite filter_nil, app_nil_r.
Qed.

Lemma without_elem v l x : x ∈ without v l ↔ x ∈ l ∧ x ≠ v.
Proof. unfold without. rewrite list_elem_of_filter. tauto. Qed.

Lemma without_length v l : (length (without v l) ≤ length l)%nat.
Proof. apply length_filter. Qed.

Lemma without_sublist v l : without v l `sublist_of` l.
Proof. apply sublist_filter. Qed.

Lemma snoc_split_NoDup (l l1 l2 : list Z) v :
  NoDup (l ++ [v]) → l ++ [v] = l1 ++ v :: l2 → l1 = l ∧ l2 = [].
Proof.
  intros Hnd Heq. destruct l2 as [|b l2] using rev_ind.
  - change (l1 ++ [v]) with (l1 ++ [v]) in Heq. by apply app_inj_tail in Heq as [-> _].
  - clear IHl2. rewrite app_comm_cons, app_assoc in Heq.
    apply app_inj_tail in Heq as [-> ->].
    apply NoDup_app in Hnd as (_ & Hd & _). exfalso. eapply (Hd b); set_solver.
Qed.

(** [real_free] in terms of the rings as a whole. *)
Lemma real_free_inv m al ll h p :
  inv m al ll → hunk_ptr_ m !! h = Some p →
  ∃ m', real_free h m = Ok (tt, m') ∧
        inv m' (without p al) (without p ll) ∧
        hunk_ptr_ m' = delete h (hunk_ptr_ m) ∧
        mem_total_size_ m' = mem_total_size_ m ∧
        (∀ s, fld size (arena m) p = Some s →
              mem_allocated_size_ m' = mem_allocated_size_ m - s) ∧
        ¬ live (arena m') p ∧
        (∀ x, x ≠ p → fld size (arena m') x = fld size (arena m) x) ∧
        (∀ x, x ≠ p → fld handler_ptr (arena m') x = fld handler_ptr (arena m) x).
Proof.
  intros Hinv Hh.
  destruct (real_free_spec m al ll h p Hinv Hh)
    as (m' & l1 & l2 & k1 & k2 & -> & -> & Hfree & Hinv' & Hrest).
  exists m'. split; [done|].
  destruct Hinv as [Hr _].
  rewrite !without_split; [done| |].
  - pose proof (rings_lru_NoDup_head _ _ _ Hr) as Hnd. by apply NoDup_cons in Hnd as [_ ?].
  - by eapply rings_NoDup.
Qed.

Lemma shrunk_refl m : shrunk m m.
Proof. by split_and!. Qed.

Lemma shrunk_trans m m1 m2 : shrunk m m1 → shrunk m1 m2 → shrunk m m2.
Proof.
  intros (Ht1 & Hh1 & Hf1 & Hb1) (Ht2 & Hh2 & Hf2 & Hb2). split_and!.
  - congruence.
  - intros h x Hx. by apply Hh1, Hh2.
  - intros x Hx. destruct (Hf2 x Hx) as (Hl & Hs & Hp).
    destruct (Hf1 x Hl) as (Hl' & Hs' & Hp'). split_and!; congruence.
  - congruence.
Qed.

(** One eviction: the victim is the tail of the recency ring. *)
Lemma evict_spec m al ll v :
  inv m al (ll ++ [v]) →
  ∃ hv m',
    fld least_recent_ptr (arena m) 0 = Some (Some v) ∧ v ≠ 0 ∧
    fld handler_ptr (arena m) v = Some (Some hv) ∧
    hunk_ptr_ m !! hv = Some v ∧
    real_free hv m = Ok (tt, m') ∧
    inv m' (without v al) ll ∧
    hunk_ptr_ m' = delete hv (hunk_ptr_ m) ∧
    shrunk m m'.
Proof.
  intros Hinv. pose proof Hinv as [Hr [Hb1 Hb2]].
  pose proof (linked_last _ _ _ _ _ (r_lru _ _ _ Hr)) as Hlr.
  rewrite last_last in Hlr.
  assert (v ∈ al) as Hval by (rewrite <- (r_perm _ _ _ Hr); set_solver).
  destruct (Hb1 v Hval) as (hv & Hhv & Hbv).
  destruct (real_free_inv m al _ hv v Hinv Hbv)
    as (m' & Hfree & Hinv' & Hh' & Ht' & _ & Hdead & Hsz & Hhd).
  pose proof (rings_lru_NoDup_head _ _ _ Hr) as Hnd.
  apply NoDup_cons in Hnd as [H0 Hnd].
  rewrite without_snoc in Hinv' by (apply NoDup_app in Hnd as (_ & Hd & _); intros ?; eapply Hd; [done|set_solver]).
  exists hv, m'. split_and!; try done.
  - intros ->. eapply rings_not_head; done.
  - split_and!; [done| | |].
    + intros h x. rewrite Hh'. intros [_ ?]%lookup_delete_Some. done.
    + intros x Hx. assert (x ≠ v) by (intros ->; done).
      split_and!; [|by apply Hsz|by apply Hhd].
      destruct Hinv' as [Hr' _].
      apply (r_dom _ _ _ Hr') in Hx. apply (r_dom _ _ _ Hr).
      destruct Hx as [->|Hx]; [by left|right]. by apply without_elem in Hx as [? _].
    + by apply (keeps_base_real_free hv m tt m').
Qed.

(** ** The evict-then-retry loop *)

Lemma bind_ext_on {A B} (c : M A) (k1 k2 : A → M B) m :
  (∀ a m', c m = Ok (a, m') → k1 a m' = k2 a m') → bind c k1 m = bind c k2 m.
Proof. unfold bind. destruct (c m) as [[a m']| | |]; auto. Qed.

Lemma place_at_not_None m al n i m' : place_at m al n i ≠ Ok (None, m').
Proof. unfold place_at, bind. destruct (place _ _ _ m) as [[p m'']| | |]; done. Qed.

(** A pass that finds room is the last one, whatever fuel is left. *)
Lemma real_alloc_loop_fits_at fuel walk h n m al ll i :
  rings m al ll → (length al < walk)%nat →
  first_fit_at (mem_arena_ptr_ m) (fld size (arena m)) sizeof_LRUMemoryHunk al
    (mem_total_size_ m) n = Some i →
  real_alloc_loop (S fuel) walk h n m = real_alloc_loop 1 walk h n m.
Proof.
  intros Hr Hwalk Hff. cbn [real_alloc_loop]. apply bind_ext_on.
  intros [p|] m' Htry; [done|].
  rewrite (try_alloc_first_fit_at m al ll n walk Hr Hwalk), Hff in Htry.
  by apply place_at_not_None in Htry.
Qed.

Lemma real_alloc_loop_fits fuel walk h n m al ll i :
  rings m al ll → 0 ≤ n → (length al < walk)%nat →
  first_fit (fld size (arena m)) sizeof_LRUMemoryHunk al (mem_total_size_ m) n = Some i →
  real_alloc_loop (S fuel) walk h n m = real_alloc_loop 1 walk h n m.
Proof.
  intros Hr Hn Hwalk Hff. cbn [real_alloc_loop]. apply bind_ext_on.
  intros [p|] m' Htry; [done|].
  rewrite (try_alloc_first_fit m al ll n walk Hr Hn Hwalk), Hff in Htry by (left; by rewrite Hff).
  by apply place_at_not_None in Htry.
Qed.

Lemma real_alloc_loop_spec_at walk h n :
  ∀ fuel m al ll,
  inv m al ll → (length ll < fuel)%nat → (length al < walk)%nat →
  ∃ m1 al1 ll1 ev,
    inv m1 al1 ll1 ∧ ll = ll1 ++ ev ∧ al1 `sublist_of` al ∧ shrunk m m1 ∧
    (∀ x hx, x ∈ ev → fld handler_ptr (arena m) x = Some (Some hx) →
             hunk_ptr_ m1 !! hx = None) ∧
    match first_fit_at (mem_arena_ptr_ m1) (fld size (arena m1)) sizeof_LRUMemoryHunk al1
            (mem_total_size_ m1) n with
    | None => ll1 = [] ∧ real_alloc_loop fuel walk h n m = Ok (None, m1)
    | Some i => real_alloc_loop fuel walk h n m = real_alloc_loop 1 walk h n m1
    end.
Proof.
  induction fuel as [|fuel IH]; intros m al ll Hinv Hfuel Hwalk; [lia|].
  pose proof Hinv as [Hr [Hb1 Hb2]].
  pose proof (try_alloc_first_fit_at m al ll n walk Hr Hwalk) as Htry.
  destruct (first_fit_at (mem_arena_ptr_ m) (fld size (arena m)) sizeof_LRUMemoryHunk al
              (mem_total_size_ m) n) as [i|] eqn:Hff.
  - (* the first pass finds room *)
    exists m, al, ll, []. rewrite app_nil_r, Hff.
    split_and!; [done|done|done|apply shrunk_refl|set_solver|].
    by eapply real_alloc_loop_fits_at.
  - (* no room: evict or give up *)
    cbn [real_alloc_loop]. erewrite bind_Ok by exact Htry. cbn beta iota.
    pose proof (linked_last _ _ _ _ _ (r_lru _ _ _ Hr)) as Hlr.
    erewrite bind_Ok by (by apply read_Ok).
    destruct ll as [|v ll _] using rev_ind.
    + simpl in Hlr. unfold get_head_hunk. rewrite decide_True by done.
      exists m, al, [], []. rewrite Hff.
      split_and!; [done|done|done|apply shrunk_refl|set_solver|done|done].
    + rewrite last_last in *.
      destruct (evict_spec m al ll v Hinv)
        as (hv & m' & _ & Hv0 & Hhv & Hbv & Hfree & Hinv' & Hh' & Hshr).
      unfold get_head_hunk. rewrite decide_False by congruence.
      erewrite bind_Ok by reflexivity.
      erewrite bind_Ok by (by apply read_Ok).
      erewrite bind_Ok by reflexivity.
      erewrite bind_Ok by exact Hfree.
      destruct (IH m' (without v al) ll Hinv') as (m1 & al1 & ll1 & ev & Hinv1 & -> & Hsub & Hshr1 & Hev & Hres).
      { rewrite length_app in Hfuel. simpl in Hfuel. lia. }
      { pose proof (without_length v al). lia. }
      exists m1, al1, ll1, (ev ++ [v]).
      split_and!; [done|by rewrite app_assoc| | | |done].
      * etrans; [exact Hsub|apply without_sublist].
      * by eapply shrunk_trans.
      * intros x hx [Hx|Hx]%elem_of_app Hhx.
        -- apply (Hev x hx Hx). destruct Hshr as (_ & _ & Hf & _).
           destruct Hinv' as [Hr' _].
           assert (live (arena m') x) as Hlx.
           { eapply rings_live_lru; [done|]. set_solver. }
           destruct (Hf x Hlx) as (_ & _ & ->). done.
        -- apply list_elem_of_singleton in Hx as ->.
           assert (hx = hv) as -> by congruence.
           destruct (hunk_ptr_ m1 !! hv) as [x|] eqn:Hx; [|done].
           destruct Hshr1 as (_ & Hm & _). apply Hm in Hx.
           rewrite Hh', lookup_delete_eq in Hx. done.
Qed.

(** As long as no pointer sum can pass the end of the address space, the
    placement passes are first-fit searches in plain arithmetic. *)
Lemma first_fit_at_rings m al ll n :
  rings m al ll → 0 ≤ n →
  is_Some (first_fit (fld size (arena m)) sizeof_LRUMemoryHunk al (mem_total_size_ m) n) ∨
    mem_arena_ptr_ m + mem_total_size_ m + n < size_t_modulus →
  first_fit_at (mem_arena_ptr_ m) (fld size (arena m)) sizeof_LRUMemoryHunk al
    (mem_total_size_ m) n =
  first_fit (fld size (arena m)) sizeof_LRUMemoryHunk al (mem_total_size_ m) n.
Proof.
  intros Hr Hn Hw. pose proof (r_block _ _ _ Hr) as [Hb1 Hb2].
  apply first_fit_at_eq; [lia|done|done|done|apply Hr|done].
Qed.

Lemma first_fit_at_None_rings m al ll n :
  rings m al ll → 0 ≤ n →
  first_fit_at (mem_arena_ptr_ m) (fld size (arena m)) sizeof_LRUMemoryHunk al
    (mem_total_size_ m) n = None →
  first_fit (fld size (arena m)) sizeof_LRUMemoryHunk al (mem_total_size_ m) n = None.
Proof.
  intros Hr Hn Hat.
  destruct (first_fit _ _ _ _ _) as [i|] eqn:Hff; [|done].
  rewrite (first_fit_at_rings m al ll n Hr Hn) in Hat by (left; by rewrite Hff).
  congruence.
Qed.

Lemma real_alloc_loop_spec walk h n :
  0 ≤ n →
  ∀ fuel m al ll,
  inv m al ll → (length ll < fuel)%nat → (length al < walk)%nat →
  mem_arena_ptr_ m + mem_total_size_ m + n < size_t_modulus →
  ∃ m1 al1 ll1 ev,
    inv m1 al1 ll1 ∧ ll = ll1 ++ ev ∧ al1 `sublist_of` al ∧ shrunk m m1 ∧
    (∀ x hx, x ∈ ev → fld handler_ptr (arena m) x = Some (Some hx) →
             hunk_ptr_ m1 !! hx = None) ∧
    match first_fit (fld size (arena m1)) sizeof_LRUMemoryHunk al1 (mem_total_size_ m1) n with
    | None => ll1 = [] ∧ real_alloc_loop fuel walk h n m = Ok (None, m1)
    | Some i => real_alloc_loop fuel walk h n m = real_alloc_loop 1 walk h n m1
    end.
Proof.
  intros Hn fuel m al ll Hinv Hfuel Hwalk Hnw.
  destruct (real_alloc_loop_spec_at walk h n fuel m al ll Hinv Hfuel Hwalk)
    as (m1 & al1 & ll1 & ev & Hinv1 & Hll & Hsub & Hshr & Hev & Hres).
  exists m1, al1, ll1, ev. split_and!; try done.
  rewrite <- (first_fit_at_rings m1 al1 ll1 n); [done|apply Hinv1|done|].
  right. destruct Hshr as (-> & _ & _ & ->). done.
Qed.

(** The pass that finds room: the hunk is placed first-fit and bound. *)
Lemma real_alloc_pass_spec walk h n m al ll i :
  rings m al ll →
  sizeof_LRUMemoryHunk ≤ n → n mod MEMORY_ALIGNMENT = 0 → (length al < walk)%nat →
  first_fit (fld size (arena m)) sizeof_LRUMemoryHunk al (mem_total_size_ m) n = Some i →
  let p := gap_start (fld size (arena m)) sizeof_LRUMemoryHunk al i in
  ∃ m', real_alloc_loop 1 walk h n m = Ok (Some (data_ptr p), m') ∧
        rings m' (take i al ++ p :: drop i al) (p :: ll) ∧
        hunk_ptr_ m' = <[h := p]> (hunk_ptr_ m) ∧
        mem_total_size_ m' = mem_total_size_ m ∧
        mem_allocated_size_ m' = mem_allocated_size_ m + n ∧
        ¬ live (arena m) p ∧
        fld handler_ptr (arena m') p = Some (Some h) ∧
        fld size (arena m') p = Some n ∧
        (∀ x, x ≠ p → fld handler_ptr (arena m') x = fld handler_ptr (arena m) x) ∧
        (∀ x, x ≠ p → fld size (arena m') x = fld size (arena m) x).
Proof.
  intros Hr Hn Hal Hwalk Hff p.
  pose proof (try_alloc_spec m al ll n walk Hr Hn Hal Hwalk) as Htry.
  rewrite Hff in Htry. specialize (Htry (or_introl (mk_is_Some _ _ eq_refl))). fold p in Htry.
  destruct Htry as (m2 & Htry & Hr2 & Hh2 & Ht2 & Hfresh & Hhp & Hsp & Hhx & Hsx).
  assert (p ≠ 0) as Hp0.
  { intros Heq. apply Hfresh. rewrite Heq. by eapply rings_live_head. }
  assert (∀ {T} (g : LRUMemoryHunk → T) x,
    (∀ v k, g (set_handler_ptr v k) = g k) →
    fld g (alter (set_handler_ptr (Some h)) p (arena m2)) x = fld g (arena m2) x) as Hframe.
  { intros T g x Hg. by apply fld_alter_frame. }
  exists (bind_handle h p m2). split_and!.
  - cbn [real_alloc_loop]. erewrite bind_Ok by exact Htry. cbn beta iota.
    erewrite bind_Ok by (apply store_Ok; eapply fld_live, Hsp).
    erewrite bind_Ok by reflexivity. done.
  - constructor; unfold bind_handle; norm_state.
    + rewrite Hframe by done. apply Hr2.
    + rewrite fld_alter_ne by done. apply Hr2.
    + intros x. rewrite live_alter. apply Hr2.
    + eapply linked_ext; [| |apply (r_addr _ _ _ Hr2)]; intros; by apply Hframe.
    + eapply linked_ext; [| |apply (r_lru _ _ _ Hr2)]; intros; by apply Hframe.
    + apply Hr2.
    + eapply packed_ext; [|apply (r_layout _ _ _ Hr2)]. intros; by apply Hframe.
    + apply Hr2.
    + rewrite (r_allocated _ _ _ Hr2). f_equal. symmetry.
      apply footprint_ext. intros; by apply Hframe.
    + apply Hr2.
  - unfold bind_handle; norm_state. by rewrite Hh2.
  - done.
  - unfold bind_handle; norm_state.
    rewrite (r_allocated _ _ _ Hr2), (r_allocated _ _ _ Hr).
    assert (footprint (fld size (arena m)) al =
            footprint (fld size (arena m)) (take i al) +
            footprint (fld size (arena m)) (drop i al)) as ->
      by (by rewrite <- footprint_app, take_drop).
    rewrite !footprint_app. simpl. rewrite Hsp. simpl.
    assert (∀ l, p ∉ l → footprint (fld size (arena m2)) l = footprint (fld size (arena m)) l) as Hfp.
    { intros l Hl. apply footprint_ext. intros x Hx. apply Hsx. intros ->. done. }
    pose proof (rings_NoDup _ _ _ Hr2) as Hnd.
    apply NoDup_app in Hnd as (_ & Hd & Hnd). apply NoDup_cons in Hnd as [Hpd _].
    rewrite !Hfp; [lia|done|]. intros Hp. eapply Hd; [exact Hp|]. set_solver.
  - done.
  - unfold bind_handle; norm_state. apply fld_alter_eq; [done|]. eapply fld_live, Hsp.
  - unfold bind_handle; norm_state. by rewrite Hframe.
  - intros x Hx. unfold bind_handle; norm_state. rewrite fld_alter_ne by done. by apply Hhx.
  - intros x Hx. unfold bind_handle; norm_state. rewrite Hframe by done. by apply Hsx.
Qed.

(** ** The aligned size *)

Lemma land_align_mask x :
  0 ≤ x < size_t_modulus → Z.land x (wrap (Z.lnot ALIGNMENT_MASK)) = 16 * (x / 16).
Proof.
  intros Hx. unfold wrap, size_t_modulus, ALIGNMENT_MASK, MEMORY_ALIGNMENT in *.
  change (16 - 1) with (Z.ones 4).
  replace (16 * (x / 16)) with (Z.shiftl (Z.shiftr x 4) 4).
  2:{ rewrite Z.shiftl_mul_pow2, Z.shiftr_div_pow2 by lia. change (2 ^ 4) with 16. lia. }
  apply Z.bits_inj'. intros i Hi.
  rewrite Z.land_spec.
  destruct (Z.lt_ge_cases i 4) as [Hlt|Hge].
  - rewrite Z.shiftl_spec_low by done.
    rewrite Z.mod_pow2_bits_low by lia.
    rewrite Z.lnot_spec by done. rewrite Z.ones_spec_low by lia.
    apply andb_false_r.
  - rewrite Z.shiftl_spec by done. rewrite Z.shiftr_spec by lia.
    replace (i - 4 + 4) with i by lia.
    destruct (Z.lt_ge_cases i 64) as [Hlt|Hge'].
    + rewrite Z.mod_pow2_bits_low by lia.
      rewrite Z.lnot_spec by done. rewrite Z.ones_spec_high by lia.
      apply andb_true_r.
    + rewrite Z.mod_pow2_bits_high by lia. rewrite andb_false_r.
      symmetry. rewrite <- (Z.mod_small x (2 ^ 64)) by lia.
      apply Z.mod_pow2_bits_high. lia.
Qed.

Lemma aligned_size_nonneg n : 0 ≤ aligned_size n.
Proof.
  unfold aligned_size. apply Z.land_nonneg. left.
  unfold wrap, size_t_modulus. apply Z.mod_pos_bound. lia.
Qed.

Lemma aligned_size_in_range n :
  0 ≤ n → n + sizeof_LRUMemoryHunk + ALIGNMENT_MASK < size_t_modulus →
  aligned_size n = round_up (n + sizeof_LRUMemoryHunk) MEMORY_ALIGNMENT ∧
  n + sizeof_LRUMemoryHunk ≤ aligned_size n < n + sizeof_LRUMemoryHunk + MEMORY_ALIGNMENT ∧
  sizeof_LRUMemoryHunk ≤ aligned_size n ∧
  aligned_size n mod MEMORY_ALIGNMENT = 0.
Proof.
  intros Hn Hov. unfold aligned_size, round_up.
  unfold sizeof_LRUMemoryHunk, ALIGNMENT_MASK, MEMORY_ALIGNMENT, size_t_modulus in *.
  rewrite (wrap_small (n + 48)) by (unfold size_t_modulus; lia).
  rewrite (wrap_small (n + 48 + (16 - 1))) by (unfold size_t_modulus; lia).
  pose proof (land_align_mask (n + 48 + (16 - 1))) as Hland.
  unfold ALIGNMENT_MASK, MEMORY_ALIGNMENT, size_t_modulus in Hland.
  rewrite Hland by lia.
  pose proof (Z.div_mod (n + 48 + (16 - 1)) 16 ltac:(lia)) as Hdm.
  pose proof (Z.mod_pos_bound (n + 48 + (16 - 1)) 16 ltac:(lia)) as Hmb.
  split_and!; try lia.
  - replace (n + 48 + 16 - 1) with (n + 48 + (16 - 1)) by lia. lia.
  - rewrite Z.mul_comm. apply Z.mod_mul. lia.
Qed.

(** ** The empty arena *)

Lemma construct_empty base total :
  sizeof_LRUMemoryHunk ≤ total →
  construct total (Some base) = Ok (empty_arena base total).
Proof.
  intros H. unfold construct, sizeof_LRUMemoryHunk in *.
  rewrite (proj2 (Z.ltb_lt 0 total)) by lia.
  by rewrite (proj2 (Z.ltb_ge total 48)) by lia.
Qed.

Lemma inv_empty_arena base total :
  sizeof_LRUMemoryHunk ≤ total → 0 < base → base + total < size_t_modulus →
  inv (empty_arena base total) [] [].
Proof.
  intros Ht Hb Hbt. split; [constructor|split]; simpl; try done.
  - intros x. unfold live. rewrite lookup_singleton_is_Some. set_solver.
  - unfold sizeof_LRUMemoryHunk in *. lia.
  - set_solver.
Qed.

Lemma hunk_eq k1 k2 :
  size k1 = size k2 → handler_ptr k1 = handler_ptr k2 →
  prev_ptr k1 = prev_ptr k2 → next_ptr k1 = next_ptr k2 →
  least_recent_ptr k1 = least_recent_ptr k2 → most_recent_ptr k1 = most_recent_ptr k2 →
  k1 = k2.
Proof. destruct k1, k2; simpl; congruence. Qed.

Lemma inv_nil_eq m : inv m [] [] → m = empty_arena (mem_arena_ptr_ m) (mem_total_size_ m).
Proof.
  intros [Hr [_ Hb]]. destruct m as [t a b A H]. unfold empty_arena. simpl in *.
  f_equal.
  - pose proof (r_allocated _ _ _ Hr) as Ha. simpl in Ha. lia.
  - apply map_eq. intros x. destruct (decide (x = 0)) as [->|Hx].
    + rewrite lookup_singleton_eq.
      pose proof (r_head_size _ _ _ Hr) as H1. pose proof (r_head_handler _ _ _ Hr) as H2.
      destruct (r_addr _ _ _ Hr) as [H3 H4]. destruct (r_lru _ _ _ Hr) as [H5 H6].
      unfold fld in *. simpl in *. destruct (A !! 0) as [k|]; [|done]. simpl in *.
      f_equal. apply hunk_eq; simpl; congruence.
    + rewrite lookup_singleton_ne by done.
      destruct (A !! x) as [k|] eqn:Hk; [|done].
      assert (live A x) as Hl by (by exists k).
      apply (r_dom _ _ _ Hr) in Hl. set_solver.
  - apply map_eq. intros h. rewrite lookup_empty.
    destruct (H !! h) as [x|] eqn:Hh; [|done]. apply Hb in Hh. set_solver.
Qed.

(** ** Bulk release *)

Lemma flush_step fuel m al ll a :
  inv m (a :: al) ll →
  ∃ ha m',
    fld handler_ptr (arena m) a = Some (Some ha) ∧
    hunk_ptr_ m !! ha = Some a ∧
    real_free ha m = Ok (tt, m') ∧
    inv m' al (without a ll) ∧
    hunk_ptr_ m' = delete ha (hunk_ptr_ m) ∧
    mem_total_size_ m' = mem_total_size_ m ∧
    flush (S fuel) m = flush fuel m'.
Proof.
  intros Hinv. pose proof Hinv as [Hr [Hb1 Hb2]].
  destruct (Hb1 a) as (ha & Hha & Hba); [set_solver|].
  destruct (real_free_inv m _ ll ha a Hinv Hba) as (m' & Hfree & Hinv' & Hh' & Ht' & _).
  pose proof (rings_NoDup _ _ _ Hr) as Hnd. apply NoDup_cons in Hnd as [Ha _].
  assert (without a (a :: al) = al) as Hw.
  { unfold without. rewrite filter_cons, decide_False by (intros ?; done).
    by apply without_notin. }
  rewrite Hw in Hinv'.
  exists ha, m'. split_and!; try done.
  pose proof (linked_first _ _ _ _ _ (r_addr _ _ _ Hr)) as Hnx. simpl in Hnx.
  assert (a ≠ 0) as Ha0.
  { intros ->. eapply rings_not_head; [done|]. set_solver. }
  cbn [flush]. unfold get_head_hunk.
  erewrite bind_Ok by (by apply read_Ok).
  rewrite decide_False by congruence.
  erewrite bind_Ok by reflexivity.
  erewrite bind_Ok by (by apply read_Ok).
  erewrite bind_Ok by reflexivity.
  by erewrite bind_Ok by exact Hfree.
Qed.

Lemma flush_spec fuel m al ll :
  inv m al ll → (length al < fuel)%nat →
  flush fuel m = Ok (tt, empty_arena (mem_arena_ptr_ m) (mem_total_size_ m)).
Proof.
  revert m al ll. induction fuel as [|fuel IH]; intros m al ll Hinv Hfuel; [lia|].
  destruct al as [|a al].
  - pose proof Hinv as [Hr _].
    assert (ll = []) as -> by (by apply Permutation_nil_r, (r_perm _ _ _ Hr)).
    pose proof (linked_first _ _ _ _ _ (r_addr _ _ _ Hr)) as Hnx. simpl in Hnx.
    cbn [flush]. unfold get_head_hunk.
    erewrite bind_Ok by (by apply read_Ok).
    rewrite decide_True by done. unfold ret. f_equal. f_equal. by apply inv_nil_eq.
  - destruct (flush_step fuel m al ll a Hinv) as (ha & m' & _ & _ & Hfree & Hinv' & _ & Ht & ->).
    rewrite <- Ht, <- (keeps_base_real_free ha m tt m' Hfree).
    eapply IH; [done|]. simpl in Hfuel. lia.
Qed.

(** Both iteration orders of the empty arena start at the end. *)
Lemma begin_end_empty base total lru :
  begin_ lru (empty_arena base total) = Ok (None, empty_arena base total) ∧
  end_ (empty_arena base total) = Ok (None, empty_arena base total).
Proof. by destruct lru. Qed.

(** * An executable check of the invariant *)

Lemma linkedb_sound nx pv x l y : linkedb nx pv x l y = true → linked nx pv x l y.
Proof.
  revert x. induction l as [|a l IH]; intros x; simpl.
  - intros [?%bool_decide_eq_true ?%bool_decide_eq_true]%andb_prop. done.
  - intros [[?%bool_decide_eq_true ?%bool_decide_eq_true]%andb_prop ?]%andb_prop.
    split_and!; [done..|]. by apply IH.
Qed.

Lemma packedb_sound sz lo l hi : packedb sz lo l hi = true → packed sz lo l hi.
Proof.
  revert lo. induction l as [|a l IH]; intros lo; simpl.
  - by intros ?%Z.leb_le.
  - destruct (sz a) as [s|]; [|done].
    intros [[[?%Z.leb_le ?%Z.leb_le]%andb_prop ?%Z.eqb_eq]%andb_prop ?]%andb_prop.
    exists s. split_and!; [done..|]. by apply IH.
Qed.

Lemma check_rings_sound m al ll : check_rings m al ll = true → rings m al ll.
Proof.
  unfold check_rings.
  intros [[[[[[[[[[H1 H2]%andb_prop H3]%andb_prop H4]%andb_prop H5]%andb_prop
            H6]%andb_prop H7]%andb_prop H8]%andb_prop H9]%andb_prop
            H10]%andb_prop H11]%andb_prop.
  apply bool_decide_eq_true in H1, H2, H3, H6.
  constructor; try done.
  - intros x. unfold live. rewrite <- elem_of_dom, H3. set_solver.
  - by apply linkedb_sound.
  - by apply linkedb_sound.
  - by apply packedb_sound.
  - by apply Z.ltb_lt.
  - by apply Z.eqb_eq.
  - split; by apply Z.ltb_lt.
Qed.

Lemma check_inv_sound m al ll : check_inv m al ll = true → inv m al ll.
Proof.
  unfold check_inv, check_bound.
  intros [Hr [Hb1 Hb2]%andb_prop]%andb_prop.
  split; [by apply check_rings_sound|]. split.
  - intros x Hx. rewrite forallb_forall in Hb1.
    apply list_elem_of_In, Hb1 in Hx.
    destruct (fld handler_ptr (arena m) x) as [[h|]|]; [|done..].
    exists h. by apply bool_decide_eq_true in Hx.
  - intros h x Hx. apply bool_decide_eq_true in Hb2. by apply (Hb2 h x).
Qed.


(** ** The whole of [alloc] *)

(** A pass that finds room never answers null. *)
Lemma real_alloc_loop_fits_not_None walk h n m al ll i m' :
  rings m al ll → (length al < walk)%nat →
  first_fit_at (mem_arena_ptr_ m) (fld size (arena m)) sizeof_LRUMemoryHunk al
    (mem_total_size_ m) n = Some i →
  real_alloc_loop 1 walk h n m ≠ Ok (None, m').
Proof.
  intros Hr Hwalk Hff. cbn [real_alloc_loop]. unfold bind at 1.
  rewrite (try_alloc_first_fit_at m al ll n walk Hr Hwalk), Hff.
  unfold place_at, bind.
  destruct (place _ _ _ m) as [[p m1]| | |]; [|done..]. simpl.
  destruct (store p _ m1) as [[[] m2]| | |]; done.
Qed.


(** A request that cannot pass the end of the address space, as seen from
    the arena block. *)
Lemma no_wrap_aligned m al ll n :
  rings m al ll → 0 ≤ n →
  mem_arena_ptr_ m + mem_total_size_ m + n + sizeof_LRUMemoryHunk + ALIGNMENT_MASK
    < size_t_modulus →
  n + sizeof_LRUMemoryHunk + ALIGNMENT_MASK < size_t_modulus ∧
  mem_arena_ptr_ m + mem_total_size_ m + aligned_size n < size_t_modulus.
Proof.
  intros Hr Hn Hnw. pose proof (r_block _ _ _ Hr) as [Hb _].
  pose proof (r_total _ _ _ Hr) as Ht.
  assert (n + sizeof_LRUMemoryHunk + ALIGNMENT_MASK < size_t_modulus) as Hov.
  { pose proof (packed_le _ _ _ _ (r_layout _ _ _ Hr)) as Hl.
    unfold sizeof_LRUMemoryHunk, ALIGNMENT_MASK, MEMORY_ALIGNMENT in *. lia. }
  split; [done|].
  destruct (aligned_size_in_range n Hn Hov) as (_ & Ha & _).
  unfold sizeof_LRUMemoryHunk, ALIGNMENT_MASK, MEMORY_ALIGNMENT in *. lia.
Qed.

(** A failed pass over a non-empty arena evicts and starts over. *)
Lemma real_alloc_loop_evict fuel walk h n m al ll v hv m' :
  inv m al (ll ++ [v]) →
  try_alloc walk n m = Ok (None, m) →
  fld handler_ptr (arena m) v = Some (Some hv) →
  real_free hv m = Ok (tt, m') →
  real_alloc_loop (S fuel) walk h n m = real_alloc_loop fuel walk h n m'.
Proof.
  intros [Hr _] Htry Hhv Hfree.
  pose proof (linked_last _ _ _ _ _ (r_lru _ _ _ Hr)) as Hlr. rewrite last_last in Hlr.
  assert (v ≠ 0) as Hv0.
  { intros ->. eapply rings_not_head; [done|]. rewrite <- (r_perm _ _ _ Hr). set_solver. }
  cbn [real_alloc_loop]. erewrite bind_Ok by exact Htry. cbn beta iota.
  erewrite bind_Ok by (by apply read_Ok).
  unfold get_head_hunk. rewrite decide_False by congruence.
  erewrite bind_Ok by reflexivity.
  erewrite bind_Ok by (by apply read_Ok).
  erewrite bind_Ok by reflexivity.
  by erewrite bind_Ok by exact Hfree.
Qed.

(** A failed pass over an empty arena ends the call. *)
Lemma real_alloc_loop_give_up fuel walk h n m al :
  inv m al [] →
  try_alloc walk n m = Ok (None, m) →
  real_alloc_loop (S fuel) walk h n m = Ok (None, m).
Proof.
  intros [Hr _] Htry.
  pose proof (linked_last _ _ _ _ _ (r_lru _ _ _ Hr)) as Hlr. simpl in Hlr.
  cbn [real_alloc_loop]. erewrite bind_Ok by exact Htry. cbn beta iota.
  erewrite bind_Ok by (by apply read_Ok).
  unfold get_head_hunk. by rewrite decide_True.
Qed.

Lemma inv_length m al ll : inv m al ll → length ll = length al.
Proof. intros [Hr _]. by rewrite (r_perm _ _ _ Hr). Qed.

(** The new binding is consistent when the handle was unbound. *)
Lemma bound_after_bind m1 m' al1 al' h p :
  bound m1 al1 → hunk_ptr_ m1 !! h = None →
  (∀ x, x ∈ al' ↔ x = p ∨ x ∈ al1) → p ∉ al1 →
  hunk_ptr_ m' = <[h := p]> (hunk_ptr_ m1) →
  fld handler_ptr (arena m') p = Some (Some h) →
  (∀ x, x ≠ p → fld handler_ptr (arena m') x = fld handler_ptr (arena m1) x) →
  bound m' al'.
Proof.
  intros [Hb1 Hb2] Hh Hal Hp Hh' Hhp Hhx. split.
  - intros x [->|Hx]%Hal.
    + exists h. split; [done|]. rewrite Hh'. apply lookup_insert_eq.
    + destruct (Hb1 x Hx) as (hx & Hhx' & Hbx).
      assert (x ≠ p) by (intros ->; done).
      exists hx. rewrite Hhx by done. split; [done|].
      rewrite Hh'. rewrite lookup_insert_ne; [done|]. intros ->. congruence.
  - intros hx x. rewrite Hh'. intros [[-> ->]|[Hne Hx]]%lookup_insert_Some.
    + split; [apply Hal; by left|done].
    + destruct (Hb2 _ _ Hx) as [Hxal Hxh].
      assert (x ≠ p) by (intros ->; done).
      split; [apply Hal; by right|]. by rewrite Hhx.
Qed.

Lemma elem_of_take_drop_insert (l : list Z) i p x :
  x ∈ take i l ++ p :: drop i l ↔ x = p ∨ x ∈ l.
Proof.
  rewrite elem_of_app, elem_of_cons.
  assert (x ∈ l ↔ x ∈ take i l ∨ x ∈ drop i l) as ->
    by (by rewrite <- elem_of_app, take_drop).
  tauto.
Qed.

(** [alloc] from a well-formed arena: what is evicted, where the hunk goes,
    and what state is left. *)
Lemma real_alloc_spec fuel h n m al ll :
  inv m al ll →
  0 ≤ n →
  mem_arena_ptr_ m + mem_total_size_ m + n + sizeof_LRUMemoryHunk + ALIGNMENT_MASK
    < size_t_modulus →
  (length al < fuel)%nat →
  ∃ m1 al1 ll1 ev,
    inv m1 al1 ll1 ∧ ll = ll1 ++ ev ∧ al1 `sublist_of` al ∧ shrunk m m1 ∧
    (∀ x hx, x ∈ ev → fld handler_ptr (arena m) x = Some (Some hx) →
             hunk_ptr_ m1 !! hx = None) ∧
    match first_fit (fld size (arena m1)) sizeof_LRUMemoryHunk al1 (mem_total_size_ m1)
                    (aligned_size n) with
    | None => ll1 = [] ∧ real_alloc fuel h n m = Ok (None, m1)
    | Some i =>
      let p := gap_start (fld size (arena m1)) sizeof_LRUMemoryHunk al1 i in
      ∃ m', real_alloc fuel h n m = Ok (Some (data_ptr p), m') ∧
            rings m' (take i al1 ++ p :: drop i al1) (p :: ll1) ∧
            hunk_ptr_ m' = <[h := p]> (hunk_ptr_ m1) ∧
            mem_total_size_ m' = mem_total_size_ m ∧
            ¬ live (arena m1) p ∧
            fld handler_ptr (arena m') p = Some (Some h) ∧
            fld size (arena m') p = Some (aligned_size n) ∧
            (∀ x, x ≠ p → fld handler_ptr (arena m') x = fld handler_ptr (arena m1) x) ∧
            (∀ x, x ≠ p → fld size (arena m') x = fld size (arena m1) x)
    end.
Proof.
  intros Hinv Hn Hnw Hfuel.
  destruct (no_wrap_aligned m al ll n (proj1 Hinv) Hn Hnw) as [Hov Hnw'].
  destruct (aligned_size_in_range n Hn Hov) as (_ & _ & Ha48 & Ha16).
  pose proof (aligned_size_nonneg n) as Ha0.
  assert (length ll < fuel)%nat as Hfuel' by (by rewrite (inv_length _ _ _ Hinv)).
  destruct (real_alloc_loop_spec fuel h (aligned_size n) Ha0 fuel m al ll Hinv Hfuel' Hfuel Hnw')
    as (m1 & al1 & ll1 & ev & Hinv1 & Hll & Hsub & Hshr & Hev & Hres).
  exists m1, al1, ll1, ev. split_and!; try done.
  destruct (first_fit _ _ _ _ _) as [i|] eqn:Hff; [|done].
  intros p. destruct Hinv1 as [Hr1 Hb1].
  assert (length al1 < fuel)%nat as Hwalk.
  { apply sublist_length in Hsub. lia. }
  destruct (real_alloc_pass_spec fuel h (aligned_size n) m1 al1 ll1 i Hr1 Ha48 Ha16 Hwalk Hff)
    as (m' & Hpass & Hr' & Hh' & Ht' & _ & Hfresh & Hhp & Hsp & Hhx & Hsx).
  exists m'. unfold real_alloc. rewrite Hres. fold p in Hpass.
  split_and!; try done. destruct Hshr as (Ht & _). congruence.
Qed.

(** ** The shape of a successful call *)







(** ** Fuel *)

Lemma bind_finished {A B} (c : M A) (k : A → M B) m :
  finished (c m) → (∀ a m', c m = Ok (a, m') → finished (k a m')) →
  finished (bind c k m).
Proof. unfold bind. destruct (c m) as [[a m']| | |]; auto. Qed.

Lemma read_finished {A} (g : LRUMemoryHunk → A) p m : finished (read g p m).
Proof. unfold read. by destruct (arena m !! p). Qed.

Lemma store_finished p f m : finished (store p f m).
Proof. unfold store. by destruct (arena m !! p). Qed.

Lemma deref_finished {A} (p : option A) m : finished (deref p m).
Proof. by destruct p. Qed.

Lemma Expects_finished b m : finished (Expects b m).
Proof. by destruct b. Qed.

Ltac finish :=
  repeat first
    [ apply bind_finished; [|intros ? ? _]
    | apply read_finished
    | apply store_finished
    | apply deref_finished
    | apply Expects_finished
    | exact I ].

Lemma link_lru_finished p m : finished (link_lru p m).
Proof. unfold link_lru. finish. Qed.

Lemma place_finished p n nxt m : finished (place p n nxt m).
Proof. unfold place. finish. Qed.

Lemma place_at_finished m al n i : finished (place_at m al n i).
Proof. unfold place_at. finish. Qed.

Lemma bind_cong {A B} (c c' : M A) (k : A → M B) m :
  c m = c' m → bind c k m = bind c' k m.
Proof. unfold bind. by intros ->. Qed.

(** The answer of the loop does not depend on the fuel, once there is
    enough of it. *)
Lemma real_alloc_loop_fuel h a :
  ∀ fuel fuel' walk walk' m al ll,
  inv m al ll →
  (length ll < fuel)%nat → (length ll < fuel')%nat →
  (length al < walk)%nat → (length al < walk')%nat →
  real_alloc_loop fuel walk h a m = real_alloc_loop fuel' walk' h a m ∧
  finished (real_alloc_loop fuel walk h a m).
Proof.
  induction fuel as [|fuel IH];
    intros fuel' walk walk' m al ll Hinv Hf Hf' Hw Hw'; [lia|].
  destruct fuel' as [|fuel']; [lia|].
  pose proof Hinv as [Hr _].
  pose proof (try_alloc_first_fit_at m al ll a walk Hr Hw) as Htry.
  pose proof (try_alloc_first_fit_at m al ll a walk' Hr Hw') as Htry'.
  destruct (first_fit_at (mem_arena_ptr_ m) (fld size (arena m)) sizeof_LRUMemoryHunk al
              (mem_total_size_ m) a) as [i|] eqn:Hff.
  - rewrite (real_alloc_loop_fits_at fuel walk h a m al ll i) by done.
    rewrite (real_alloc_loop_fits_at fuel' walk' h a m al ll i) by done.
    cbn [real_alloc_loop]. split.
    + apply bind_cong. by rewrite Htry, Htry'.
    + apply bind_finished.
      * rewrite Htry. apply place_at_finished.
      * intros [p|] m2 Hm2; [finish|].
        rewrite Htry in Hm2. by apply place_at_not_None in Hm2.
  - destruct ll as [|v ll _] using rev_ind.
    + rewrite !(real_alloc_loop_give_up _ _ h a m al) by done. done.
    + destruct (evict_spec m al ll v Hinv)
        as (hv & m' & _ & _ & Hhv & _ & Hfree & Hinv' & _).
      rewrite (real_alloc_loop_evict fuel walk h a m al ll v hv m') by done.
      rewrite (real_alloc_loop_evict fuel' walk' h a m al ll v hv m') by done.
      rewrite length_app in Hf, Hf'. simpl in Hf, Hf'.
      pose proof (without_length v al).
      apply (IH fuel' walk walk' m' _ _ Hinv'); lia.
Qed.

(** * Example arenas *)

Lemma arena_250_50_inv : inv arena_250_50 [48; 352] [352; 48].
Proof. apply check_inv_sound. vm_compute. reflexivity. Qed.

Lemma arena_900_900_inv : inv arena_900_900 [48; 1008] [1008; 48].
Proof. apply check_inv_sound. vm_compute. reflexivity. Qed.

(** * The claims *)

(** C1, as stated, fails: a failing [alloc] has evicted every live hunk on
    the way.  With requests of 250 and 50 bytes in a pool of 2048 bytes, a
    request of 4096 bytes returns null and leaves the arena empty: handle 0,
    bound before the call, is unbound after it. *)
Lemma alloc_failure_changes_state :
  inv arena_250_50 [48; 352] [352; 48] ∧
  hunk_ptr_ arena_250_50 !! 0%nat = Some 48 ∧
  alloc 3 2 4096 arena_250_50 = Ok (None, empty_arena 65536 2048) ∧
  hunk_ptr_ (empty_arena 65536 2048) !! 0%nat = None ∧
  empty_arena 65536 2048 ≠ arena_250_50.
Proof.
  split_and!.
  - apply arena_250_50_inv.
  - vm_compute. reflexivity.
  - vm_compute. reflexivity.
  - reflexivity.
  - intros Heq. apply (f_equal (λ m, hunk_ptr_ m !! 0%nat)) in Heq.
    vm_compute in Heq. discriminate.
Qed.

(** C1 (amended): when [alloc] fails it returns null only after evicting
    every hunk that was live at entry.  The state left is the empty arena of
    the same capacity: no handle is bound (the one passed in included), the
    rings hold the sentinel alone and the consumed size is the header's; the
    aligned request does not fit even there. *)
Theorem alloc_failure_empties_arena fuel h n m al ll m' :
  inv m al ll → (length al < fuel)%nat →
  alloc fuel h n m = Ok (None, m') →
  m' = empty_arena (mem_arena_ptr_ m) (mem_total_size_ m) ∧
  hunk_ptr_ m' !! h = None ∧
  (∀ h', hunk_ptr_ m' !! h' = None) ∧
  inv m' [] [] ∧
  mem_allocated_size_ m' = sizeof_LRUMemoryHunk ∧
  mem_total_size_ m < sizeof_LRUMemoryHunk + aligned_size n.
Proof.
  intros Hinv Hfuel Halloc. unfold alloc, real_alloc in Halloc.
  pose proof (aligned_size_nonneg n) as Ha0.
  assert (length ll < fuel)%nat as Hfuel' by (by rewrite (inv_length _ _ _ Hinv)).
  destruct (real_alloc_loop_spec_at fuel h (aligned_size n) fuel m al ll Hinv Hfuel' Hfuel)
    as (m1 & al1 & ll1 & ev & Hinv1 & Hll & Hsub & Hshr & Hev & Hres).
  destruct (first_fit_at _ _ _ _ _ _) as [i|] eqn:Hat.
  - rewrite Hres in Halloc. destruct Hinv1 as [Hr1 _].
    exfalso.
    eapply (real_alloc_loop_fits_not_None fuel h (aligned_size n) m1 al1 ll1 i m');
      [done| |done|exact Halloc].
    apply sublist_length in Hsub. lia.
  - destruct Hres as [-> Hres]. rewrite Hres in Halloc. injection Halloc as <-.
    pose proof Hinv1 as [Hr1 _].
    apply (first_fit_at_None_rings m1 al1 [] _ Hr1 Ha0) in Hat as Hff.
    assert (al1 = []) as ->.
    { symmetry. apply Permutation_nil_l. apply (r_perm _ _ _ Hr1). }
    destruct Hshr as (Ht & _ & _ & Hbase).
    pose proof (inv_nil_eq _ Hinv1) as Heq. rewrite Ht, Hbase in Heq.
    simpl in Hff. destruct (Z.leb_spec (sizeof_LRUMemoryHunk + aligned_size n) (mem_total_size_ m1)); [done|].
    rewrite Heq. split_and!; try done.
    + rewrite <- Heq. done.
    + simpl. lia.
Qed.

(** The amended C1 at the failing request above. *)
Lemma alloc_failure_empties_arena_witness :
  inv arena_250_50 [48; 352] [352; 48] ∧ (length [48; 352] < 3)%nat ∧
  alloc 3 2 4096 arena_250_50 = Ok (None, empty_arena 65536 2048) ∧
  empty_arena 65536 2048 = empty_arena (mem_arena_ptr_ arena_250_50) (mem_total_size_ arena_250_50) ∧
  hunk_ptr_ (empty_arena 65536 2048) !! 2%nat = None.
Proof.
  assert (inv arena_250_50 [48; 352] [352; 48]) as Hinv
    by (apply check_inv_sound; vm_compute; reflexivity).
  assert (alloc 3 2 4096 arena_250_50 = Ok (None, empty_arena 65536 2048)) as Hfail
    by (vm_compute; reflexivity).
  assert (length [48; 352] < 3)%nat as Hfuel by (simpl; lia).
  destruct (alloc_failure_empties_arena 3 2 4096 arena_250_50 _ _ _ Hinv Hfuel Hfail)
    as (H1 & H2 & _).
  split_and!; assumption.
Defined.

Lemma arena_gap_inv : inv arena_gap [48; 560] [560; 48].
Proof. apply check_inv_sound. vm_compute. reflexivity. Qed.

(** C2 holds of requests the arithmetic of [size_t] and of pointers can
    hold, and the code means to do what it says, but it checks neither sum
    for overflow.  In a fresh pool of 2048 bytes:
    a request of [2^64 - 1] bytes gets an aligned size of 48, not
    [2^64 - 1 + 48] rounded up, and is answered with a hunk that has no
    payload at all;
    a request of [2^64 - 100] bytes gets the aligned size [2^64 - 48], which
    no gap of the pool can hold (in plain arithmetic no gap fits), but the
    pointer sum [last_hunk_end + size] wraps around, the test at the end of
    the pool passes and a hunk of [2^64 - 48] bytes is placed at offset 48. *)
Theorem alloc_overflow_unchecked :
  aligned_size (2 ^ 64 - 1) = 48 ∧
  round_up (2 ^ 64 - 1 + sizeof_LRUMemoryHunk) MEMORY_ALIGNMENT = 2 ^ 64 + 48 ∧
  (∃ m', alloc 1 0 (2 ^ 64 - 1) (empty_arena 65536 2048) = Ok (Some 96, m') ∧
         fld size (arena m') 48 = Some 48) ∧
  aligned_size (2 ^ 64 - 100) = 2 ^ 64 - 48 ∧
  first_fit (fld size (arena (empty_arena 65536 2048))) sizeof_LRUMemoryHunk []
    (mem_total_size_ (empty_arena 65536 2048)) (aligned_size (2 ^ 64 - 100)) = None ∧
  (∃ m', alloc 1 0 (2 ^ 64 - 100) (empty_arena 65536 2048) = Ok (Some 96, m') ∧
         fld size (arena m') 48 = Some (2 ^ 64 - 48) ∧
         hunk_ptr_ m' !! 0%nat = Some 48).
Proof.
  split_and!.
  - vm_compute. reflexivity.
  - vm_compute. reflexivity.
  - eexists. split; vm_compute; reflexivity.
  - vm_compute. reflexivity.
  - vm_compute. reflexivity.
  - eexists. split; [|split]; vm_compute; reflexivity.
Qed.









(** C5: on an unbound handle [get_buffer_and_refresh] returns null and
    leaves the state as it is.  On a handle bound to hunk [p] it returns the
    payload pointer of [p], the address right behind the header of [p], and
    moves [p] to the most-recently-used end of the
    recency ring: the ring read from the sentinel becomes [p] followed by the
    other hunks in the order they had.  The address ring, every [next_ptr],
    [prev_ptr], [size] and [handler_ptr], the handles and both counters are
    unchanged. *)
Theorem get_buffer_and_refresh_promotes m al ll h :
  inv m al ll →
  match hunk_ptr_ m !! h with
  | None => get_buffer_and_refresh h m = Ok (None, m)
  | Some p =>
    ∃ m',
      get_buffer_and_refresh h m = Ok (Some (p + sizeof_LRUMemoryHunk), m') ∧
      inv m' al (p :: without p ll) ∧
      hunk_ptr_ m' = hunk_ptr_ m ∧
      mem_total_size_ m' = mem_total_size_ m ∧
      mem_allocated_size_ m' = mem_allocated_size_ m ∧
      (∀ x, fld next_ptr (arena m') x = fld next_ptr (arena m) x) ∧
      (∀ x, fld prev_ptr (arena m') x = fld prev_ptr (arena m) x) ∧
      (∀ x, fld size (arena m') x = fld size (arena m) x) ∧
      (∀ x, fld handler_ptr (arena m') x = fld handler_ptr (arena m) x)
  end.
Proof.
  intros Hinv. destruct (hunk_ptr_ m !! h) as [p|] eqn:Hh.
  - destruct (real_get_buffer_spec m al ll h p Hinv Hh)
      as (m' & k1 & k2 & -> & Hget & Hinv' & Hrest).
    exists m'. destruct Hinv as [Hr _].
    rewrite without_split.
    + destruct Hrest as (? & ? & ? & ? & ? & ? & ?). split_and!; done.
    + pose proof (rings_lru_NoDup_head _ _ _ Hr) as Hnd.
      by apply NoDup_cons in Hnd as [_ ?].
  - by apply real_get_buffer_unbound.
Qed.

(** C5 in a pool that holds two hunks, the one of handle 0 being the less
    recently used: after the access it is the most recently used; the
    pointer returned is that of its payload, 48 bytes behind the hunk. *)
Lemma get_buffer_and_refresh_promotes_witness :
  inv arena_900_900 [48; 1008] [1008; 48] ∧
  (∃ m', get_buffer_and_refresh 0 arena_900_900 = Ok (Some 96, m') ∧
         inv m' [48; 1008] [48; 1008]) ∧
  get_buffer_and_refresh 7 arena_900_900 = Ok (None, arena_900_900).
Proof.
  assert (inv arena_900_900 [48; 1008] [1008; 48]) as Hinv
    by (apply check_inv_sound; vm_compute; reflexivity).
  split_and!; [exact Hinv| |].
  - pose proof (get_buffer_and_refresh_promotes arena_900_900 _ _ 0 Hinv) as Hget.
    assert (hunk_ptr_ arena_900_900 !! 0%nat = Some 48) as H0 by (vm_compute; reflexivity).
    rewrite H0 in Hget. destruct Hget as (m' & Hget & Hinv' & _).
    exists m'. split; [exact Hget|exact Hinv'].
  - pose proof (get_buffer_and_refresh_promotes arena_900_900 _ _ 7 Hinv) as Hget.
    assert (hunk_ptr_ arena_900_900 !! 7%nat = None) as H7 by (vm_compute; reflexivity).
    rewrite H7 in Hget. exact Hget.
Defined.

(** C6 holds of the code as long as its sums stay in range, and the code
    means to keep the arena well formed, but it guards neither the pool size
    against the size of the sentinel nor its sums against overflow.
    Constructing a pool of 16 bytes writes the 48-byte sentinel past the end
    of the 16 bytes obtained.  In a fresh pool of 2048 bytes a request of
    [2^64 - 48] bytes has the aligned size 0 and is answered with a hunk of
    size 0, below the header's; a request of [2^64 - 100] bytes is answered
    with a hunk of [2^64 - 48] bytes, which runs past the end of the pool,
    and the consumed size wraps around to 0, less than the sentinel alone. *)
Theorem overflow_breaks_well_formedness :
  construct 16 (Some 65536) = Undefined ∧
  aligned_size (2 ^ 64 - 48) = 0 ∧
  (∃ m', alloc 1 0 (2 ^ 64 - 48) (empty_arena 65536 2048) = Ok (Some 96, m') ∧
         hunk_ptr_ m' !! 0%nat = Some 48 ∧
         fld size (arena m') 48 = Some 0) ∧
  (∃ m', alloc 1 0 (2 ^ 64 - 100) (empty_arena 65536 2048) = Ok (Some 96, m') ∧
         hunk_ptr_ m' !! 0%nat = Some 48 ∧
         fld size (arena m') 48 = Some (2 ^ 64 - 48) ∧
         mem_total_size_ m' = 2048 ∧
         mem_allocated_size_ m' = 0).
Proof.
  split; [reflexivity|].
  split; [vm_compute; reflexivity|].
  split.
  - eexists. split; [vm_compute; reflexivity|].
    split; vm_compute; reflexivity.
  - eexists. split; [vm_compute; reflexivity|].
    split; [vm_compute; reflexivity|].
    split; [vm_compute; reflexivity|].
    split; vm_compute; reflexivity.
Qed.

(** C7 holds of the code as long as its sums stay in range, but the fit
    test adds the size to a pointer without a check for overflow.  In a pool
    of 2048 bytes that holds one hunk, at offset 48, a request of
    [2^64 - 100] bytes has the aligned size [2^64 - 48]; added to the end of
    the sentinel the sum wraps around, the gap of no bytes in front of the
    hunk passes for a fit, the new header is constructed on top of the live
    hunk, and the placement follows the null [prev_ptr] it has just written.
    The fault lies in the first placement pass, before any eviction: the call
    reaches neither success nor failure. *)
Theorem alloc_faults_on_pointer_overflow :
  inv arena_50 [48] [48] ∧
  aligned_size (2 ^ 64 - 100) = 2 ^ 64 - 48 ∧
  ptr_add (mem_arena_ptr_ arena_50) sizeof_LRUMemoryHunk (aligned_size (2 ^ 64 - 100)) = 0 ∧
  try_alloc 2 (aligned_size (2 ^ 64 - 100)) arena_50 = Undefined ∧
  alloc 2 1 (2 ^ 64 - 100) arena_50 = Undefined ∧
  alloc 5 1 (2 ^ 64 - 100) arena_50 = Undefined.
Proof.
  split; [apply check_inv_sound; vm_compute; reflexivity|].
  split; [vm_compute; reflexivity|].
  split; [vm_compute; reflexivity|].
  split; [vm_compute; reflexivity|].
  split; vm_compute; reflexivity.
Qed.

(** C8: [flush] releases the hunks one by one, each time the first of the
    address ring through the handle it is bound to, until the sentinel is
    alone.  It leaves the empty arena of the same capacity: no handle is
    bound any more, and for both iteration orders [begin()] is the iterator
    [end()] is. *)
Theorem flush_releases_in_address_order fuel m al ll :
  inv m al ll → (length al < fuel)%nat →
  flush fuel m = Ok (tt, empty_arena (mem_arena_ptr_ m) (mem_total_size_ m)) ∧
  (∀ h, hunk_ptr_ (empty_arena (mem_arena_ptr_ m) (mem_total_size_ m)) !! h = None) ∧
  (∀ is_lru_order,
     begin_ is_lru_order (empty_arena (mem_arena_ptr_ m) (mem_total_size_ m)) =
       end_ (empty_arena (mem_arena_ptr_ m) (mem_total_size_ m))) ∧
  match al with
  | [] => flush fuel m = Ok (tt, m)
  | a :: al' =>
    ∃ ha m1,
      fld next_ptr (arena m) get_head_hunk = Some (Some a) ∧
      fld handler_ptr (arena m) a = Some (Some ha) ∧
      hunk_ptr_ m !! ha = Some a ∧
      real_free ha m = Ok (tt, m1) ∧
      inv m1 al' (without a ll) ∧
      hunk_ptr_ m1 !! ha = None ∧
      flush fuel m = flush (pred fuel) m1
  end.
Proof.
  intros Hinv Hfuel. pose proof (flush_spec fuel m al ll Hinv Hfuel) as Hflush.
  split_and!; [done|done|by intros []|].
  destruct al as [|a al'].
  - rewrite Hflush. f_equal. f_equal. symmetry. apply inv_nil_eq.
    pose proof Hinv as [Hr _].
    assert (ll = []) as -> by (by apply Permutation_nil_r, (r_perm _ _ _ Hr)).
    done.
  - destruct fuel as [|fuel]; [simpl in Hfuel; lia|].
    destruct (flush_step fuel m al' ll a Hinv)
      as (ha & m1 & Hha & Hba & Hfree & Hinv' & Hh' & _ & Hstep).
    exists ha, m1. pose proof Hinv as [Hr _].
    pose proof (linked_first _ _ _ _ _ (r_addr _ _ _ Hr)) as Hnx.
    split_and!; try done. rewrite Hh'. apply lookup_delete_eq.
Qed.

(** C8 in a pool that holds two hunks. *)
Lemma flush_releases_in_address_order_witness :
  inv arena_900_900 [48; 1008] [1008; 48] ∧
  flush 3 arena_900_900 = Ok (tt, empty_arena 65536 2048) ∧
  begin_ true (empty_arena 65536 2048) = end_ (empty_arena 65536 2048) ∧
  begin_ false (empty_arena 65536 2048) = end_ (empty_arena 65536 2048) ∧
  ∃ m1, real_free 0 arena_900_900 = Ok (tt, m1) ∧ flush 3 arena_900_900 = flush 2 m1.
Proof.
  assert (inv arena_900_900 [48; 1008] [1008; 48]) as Hinv
    by (apply check_inv_sound; vm_compute; reflexivity).
  assert (length [48; 1008] < 3)%nat as Hfuel by (simpl; lia).
  destruct (flush_releases_in_address_order 3 arena_900_900 _ _ Hinv Hfuel)
    as (Hflush & _ & Hit & ha & m1 & _ & Hha & _ & Hfree & _ & _ & Hstep).
  assert (ha = 0%nat) as ->.
  { assert (fld handler_ptr (arena arena_900_900) 48 = Some (Some 0%nat)) as H0
      by (vm_compute; reflexivity).
    rewrite H0 in Hha. by injection Hha. }
  split_and!; [exact Hinv|exact Hflush|exact (Hit true)|exact (Hit false)|].
  exists m1. split; [exact Hfree|exact Hstep].
Defined.

Lemma round_up_ge x : x ≤ round_up x MEMORY_ALIGNMENT.
Proof.
  unfold round_up, MEMORY_ALIGNMENT.
  pose proof (Z.div_mod (x + 16 - 1) 16). pose proof (Z.mod_pos_bound (x + 16 - 1) 16). lia.
Qed.

(** A request that fits into the empty arena is placed right behind the
    sentinel. *)
Lemma alloc_in_empty_arena fuel h n base total :
  0 < base → base + total < size_t_modulus → 0 ≤ n →
  sizeof_LRUMemoryHunk + round_up (n + sizeof_LRUMemoryHunk) MEMORY_ALIGNMENT ≤ total →
  (0 < fuel)%nat →
  ∃ m', alloc fuel h n (empty_arena base total) =
          Ok (Some (data_ptr sizeof_LRUMemoryHunk), m') ∧
        inv m' [sizeof_LRUMemoryHunk] [sizeof_LRUMemoryHunk] ∧
        hunk_ptr_ m' !! h = Some sizeof_LRUMemoryHunk ∧
        mem_total_size_ m' = total ∧
        mem_arena_ptr_ m' = base.
Proof.
  intros Hb Hbt Hn Hfit Hfuel.
  assert (n + sizeof_LRUMemoryHunk + ALIGNMENT_MASK < size_t_modulus) as Hov.
  { pose proof (round_up_ge (n + sizeof_LRUMemoryHunk)).
    unfold sizeof_LRUMemoryHunk, ALIGNMENT_MASK, MEMORY_ALIGNMENT in *. lia. }
  destruct (aligned_size_in_range n Hn Hov) as (Hal & _ & Ha48 & Ha16).
  pose proof (aligned_size_nonneg n) as Ha0.
  assert (inv (empty_arena base total) [] []) as Hinv.
  { apply inv_empty_arena; [|done..]. pose proof (round_up_ge (n + sizeof_LRUMemoryHunk)).
    unfold sizeof_LRUMemoryHunk in *. lia. }
  pose proof Hinv as [Hr Hbd].
  assert (first_fit (fld size (arena (empty_arena base total))) sizeof_LRUMemoryHunk []
            (mem_total_size_ (empty_arena base total)) (aligned_size n) = Some 0%nat) as Hff.
  { cbn [first_fit]. change (mem_total_size_ (empty_arena base total)) with total.
    by rewrite (proj2 (Z.leb_le _ _)) by (rewrite Hal; exact Hfit). }
  destruct fuel as [|fuel]; [lia|].
  assert (length (@nil Z) < S fuel)%nat as Hwalk by (simpl; lia).
  destruct (real_alloc_pass_spec (S fuel) h (aligned_size n) _ [] [] 0 Hr Ha48 Ha16 Hwalk Hff)
    as (m' & Hpass & Hr' & Hh' & Ht' & _ & Hfresh & Hhp & _ & Hhx & _).
  cbn [gap_start take drop lend app] in *.
  assert (alloc (S fuel) h n (empty_arena base total) =
          Ok (Some (data_ptr sizeof_LRUMemoryHunk), m')) as Halloc.
  { unfold alloc, real_alloc.
    by rewrite (real_alloc_loop_fits fuel (S fuel) h (aligned_size n) _ [] [] 0). }
  exists m'. split_and!; [exact Halloc| |by rewrite Hh', lookup_insert_eq|done|].
  - split; [exact Hr'|].
    eapply (bound_after_bind (empty_arena base total) m' []); try done.
    + intros x. set_solver.
    + set_solver.
  - by apply (keeps_base_alloc _ _ _ _ _ _ Halloc).
Qed.

(** C9: a request that fits into the empty arena is placed right behind the
    sentinel; releasing it gives back the very arena the cycle started from,
    so the same request, for any handle, is placed at the same address
    again. *)
Theorem alloc_free_alloc_same_address fuel h h' n m0 :
  inv m0 [] [] → 0 ≤ n →
  sizeof_LRUMemoryHunk + round_up (n + sizeof_LRUMemoryHunk) MEMORY_ALIGNMENT
    ≤ mem_total_size_ m0 →
  (0 < fuel)%nat →
  ∃ p m1 m3,
    alloc fuel h n m0 = Ok (Some (data_ptr p), m1) ∧
    hunk_ptr_ m1 !! h = Some p ∧
    free h m1 = Ok (tt, m0) ∧
    alloc fuel h' n m0 = Ok (Some (data_ptr p), m3) ∧
    hunk_ptr_ m3 !! h' = Some p.
Proof.
  intros Hinv Hn Hfit Hfuel.
  pose proof Hinv as [Hr _]. pose proof (r_block _ _ _ Hr) as [Hb Hbt].
  rewrite (inv_nil_eq m0 Hinv).
  set (t := mem_total_size_ m0) in *. set (b := mem_arena_ptr_ m0) in *.
  change (mem_total_size_ (empty_arena b t)) with t.
  destruct (alloc_in_empty_arena fuel h n b t Hb Hbt Hn Hfit Hfuel)
    as (m1 & Ha1 & Hinv1 & Hh1 & Ht1 & Hb1).
  destruct (alloc_in_empty_arena fuel h' n b t Hb Hbt Hn Hfit Hfuel)
    as (m3 & Ha3 & _ & Hh3 & _).
  destruct (real_free_inv m1 _ _ h _ Hinv1 Hh1) as (m2 & Hfree & Hinv2 & _ & Ht2 & _).
  assert (m2 = empty_arena b t) as ->.
  { assert (without sizeof_LRUMemoryHunk [sizeof_LRUMemoryHunk] = []) as Hw
      by (vm_compute; reflexivity).
    rewrite Hw in Hinv2. rewrite (inv_nil_eq m2 Hinv2).
    by rewrite Ht2, Ht1, (keeps_base_real_free h m1 tt m2 Hfree), Hb1. }
  by exists sizeof_LRUMemoryHunk, m1, m3.
Qed.

(** C9 for a request of 50 bytes in a pool of 2048 bytes. *)
Lemma alloc_free_alloc_same_address_witness :
  ∃ m1 m3,
    alloc 1 0 50 (empty_arena 65536 2048) = Ok (Some 96, m1) ∧
    hunk_ptr_ m1 !! 0%nat = Some 48 ∧
    free 0 m1 = Ok (tt, empty_arena 65536 2048) ∧
    alloc 1 7 50 (empty_arena 65536 2048) = Ok (Some 96, m3) ∧
    hunk_ptr_ m3 !! 7%nat = Some 48.
Proof.
  assert (inv (empty_arena 65536 2048) [] []) as Hinv
    by (apply check_inv_sound; vm_compute; reflexivity).
  assert (0 ≤ 50) as Hn by lia.
  assert (sizeof_LRUMemoryHunk + round_up (50 + sizeof_LRUMemoryHunk) MEMORY_ALIGNMENT
            ≤ mem_total_size_ (empty_arena 65536 2048)) as Hfit by (vm_compute; discriminate).
  assert (0 < 1)%nat as Hfuel by lia.
  destruct (alloc_free_alloc_same_address 1 0 7 50 (empty_arena 65536 2048) Hinv Hn Hfit Hfuel)
    as (p & m1 & m3 & Ha1 & Hh1 & Hfree & Ha3 & Hh3).
  assert (p = 48) as ->.
  { assert (∃ r, alloc 1 0 50 (empty_arena 65536 2048) = Ok (Some 96, r)) as [r Hr]
      by (eexists; vm_compute; reflexivity).
    rewrite Hr in Ha1. injection Ha1 as Hp _. unfold data_ptr, sizeof_LRUMemoryHunk in Hp. lia. }
  exists m1, m3. split_and!; done.
Defined.

(** What a successful placement leaves of the hunk [H] the handle was bound
    to before, after the evictions of [ev] took [m] to [m1]. *)
Lemma rebind_facts m m1 m' al al1 ll1 ev h H p i :
  inv m al (ll1 ++ ev) → hunk_ptr_ m !! h = Some H →
  inv m1 al1 ll1 → shrunk m m1 →
  (∀ x hx, x ∈ ev → fld handler_ptr (arena m) x = Some (Some hx) →
           hunk_ptr_ m1 !! hx = None) →
  rings m' (take i al1 ++ p :: drop i al1) (p :: ll1) →
  hunk_ptr_ m' = <[h := p]> (hunk_ptr_ m1) →
  ¬ live (arena m1) p →
  fld handler_ptr (arena m') p = Some (Some h) →
  (∀ x, x ≠ p → fld handler_ptr (arena m') x = fld handler_ptr (arena m1) x) →
  hunk_ptr_ m' !! h = Some p ∧
  (H ∉ ev →
     H ≠ p ∧ H ∈ take i al1 ++ p :: drop i al1 ∧ H ∈ ll1 ∧
     fld handler_ptr (arena m') H = Some (Some h) ∧
     (∀ h', hunk_ptr_ m' !! h' ≠ Some H) ∧
     ¬ bound m' (take i al1 ++ p :: drop i al1)) ∧
  (H ∈ ev →
     inv m' (take i al1 ++ p :: drop i al1) (p :: ll1) ∧
     (H = p ∨ ¬ live (arena m') H)).
Proof.
  intros [Hr Hb] HhH [Hr1 Hb1] Hshr Hev Hr' Hh' Hfresh Hhp Hhx.
  destruct (proj2 Hb h H HhH) as [HHal HHh].
  assert (H ∈ ll1 ++ ev) as HHll by (by rewrite (r_perm _ _ _ Hr)).
  assert (p ∉ al1) as Hp1 by (intros Hp; apply Hfresh; by eapply rings_live).
  split_and!.
  - by rewrite Hh', lookup_insert_eq.
  - intros Hnev.
    assert (H ∈ ll1) as HH1 by (apply elem_of_app in HHll as [?|?]; done).
    assert (H ∈ al1) as HHal1 by (by rewrite <- (r_perm _ _ _ Hr1)).
    assert (live (arena m1) H) as Hlive by (by eapply rings_live).
    assert (H ≠ p) as Hne by (intros ->; done).
    assert (∀ h', hunk_ptr_ m' !! h' ≠ Some H) as Hunreach.
    { intros h' Hb'. rewrite Hh' in Hb'. rewrite lookup_insert in Hb'.
      case_decide as Hhh; [congruence|].
      destruct Hshr as (_ & Hhs & _). apply Hhs in Hb'.
      destruct (proj2 Hb h' H Hb') as [_ HHh']. congruence. }
    split_and!; try done.
    + apply elem_of_take_drop_insert. by right.
    + rewrite Hhx by done. destruct Hshr as (_ & _ & Hls & _).
      destruct (Hls H Hlive) as (_ & _ & ->). done.
    + intros [Hb' _]. destruct (Hb' H) as (h' & _ & Hbh').
      * apply elem_of_take_drop_insert. by right.
      * by apply (Hunreach h').
  - intros HHev. split; [split; [done|]|].
    + eapply (bound_after_bind m1 m' al1); try done.
      * by eapply Hev.
      * intros x. apply elem_of_take_drop_insert.
    + destruct (decide (H = p)) as [|Hne]; [by left|right].
      rewrite (r_dom _ _ _ Hr'). intros [->|HH'].
      * by apply (rings_not_head _ _ _ Hr).
      * apply elem_of_take_drop_insert in HH' as [?|HH1]; [done|].
        rewrite <- (r_perm _ _ _ Hr1) in HH1.
        pose proof (rings_lru_NoDup_head _ _ _ Hr) as Hnd.
        apply NoDup_cons in Hnd as [_ Hnd]. apply NoDup_app in Hnd as (_ & Hdisj & _).
        by apply (Hdisj H).
Qed.

Lemma public_alloc_positive fuel h n m :
  0 < n → public_alloc fuel h n m = real_alloc fuel h n m.
Proof.
  intros Hn. unfold public_alloc, Expects.
  rewrite (proj2 (Z.ltb_lt 0 n)) by done. reflexivity.
Qed.

(** C10, as stated, fails when the hunk the handle is bound to is evicted by
    the very call.  In [arena_front_gap] a request of 200 bytes for handle 0
    fits nowhere; the hunk at 208, to which handle 0 is bound, is the least
    recently used one and is released; the new hunk is placed at 48, the hunk
    at 208 is gone, and hunks and handles point at each other again. *)
Lemma rebinding_may_release_old_hunk :
  inv arena_front_gap [208; 368] [368; 208] ∧
  hunk_ptr_ arena_front_gap !! 0%nat = Some 208 ∧
  ∃ m', public_alloc 3 0 200 arena_front_gap = Ok (Some 96, m') ∧
        hunk_ptr_ m' !! 0%nat = Some 48 ∧
        arena m' !! 208 = None ∧
        inv m' [48; 368] [48; 368].
Proof.
  split_and!.
  - apply check_inv_sound. vm_compute. reflexivity.
  - vm_compute. reflexivity.
  - eexists. split_and!.
    + vm_compute. reflexivity.
    + vm_compute. reflexivity.
    + vm_compute. reflexivity.
    + apply check_inv_sound. vm_compute. reflexivity.
Qed.

(** C10 (amended): [alloc] does not check that the handle is unbound.  For
    a handle [h] bound to hunk [H] and a positive size that cannot carry a
    pointer of the arena past the end of the address space, [alloc] returns;
    when it fails, [h] is left unbound; when it succeeds, it returns the
    address right behind the header of the new hunk [p], [h] is bound to
    [p], which heads the recency ring, and the hunks [ev] evicted on the
    way are a tail of the old recency ring, empty when the request fits at
    once.  If [H] is not among them, [H] is still linked in both rings with
    its [handler_ptr] still [h], no handle is bound to [H], and hunks and
    handles no longer point at each other.  If [H] is among them, it was
    released through [h]: the arena is consistent and [H] is gone, unless the
    new hunk took its address. *)
Theorem alloc_on_bound_handle fuel h n m al ll H :
  inv m al ll → hunk_ptr_ m !! h = Some H →
  0 < n →
  mem_arena_ptr_ m + mem_total_size_ m + n + sizeof_LRUMemoryHunk + ALIGNMENT_MASK
    < size_t_modulus →
  (length al < fuel)%nat →
  ∃ r m',
    public_alloc fuel h n m = Ok (r, m') ∧
    match r with
    | None => hunk_ptr_ m' !! h = None
    | Some d =>
      ∃ p al' ll' ev,
        d = p + sizeof_LRUMemoryHunk ∧ ll = ll' ++ ev ∧ rings m' al' (p :: ll') ∧
        hunk_ptr_ m' !! h = Some p ∧
        (is_Some (first_fit (fld size (arena m)) sizeof_LRUMemoryHunk al
                            (mem_total_size_ m) (aligned_size n)) → ev = []) ∧
        (H ∉ ev →
           H ≠ p ∧ H ∈ al' ∧ H ∈ ll' ∧
           fld handler_ptr (arena m') H = Some (Some h) ∧
           (∀ h', hunk_ptr_ m' !! h' ≠ Some H) ∧
           ¬ bound m' al') ∧
        (H ∈ ev → inv m' al' (p :: ll') ∧ (H = p ∨ ¬ live (arena m') H))
    end.
Proof.
  intros Hinv HhH Hpos Hnw Hfuel.
  assert (0 ≤ n) as Hn by lia.
  rewrite (public_alloc_positive fuel h n m Hpos).
  destruct (no_wrap_aligned m al ll n (proj1 Hinv) Hn Hnw) as [Hov _].
  destruct (aligned_size_in_range n Hn Hov) as (_ & _ & Ha48 & Hamod).
  pose proof (aligned_size_nonneg n) as Ha0.
  destruct (first_fit (fld size (arena m)) sizeof_LRUMemoryHunk al
              (mem_total_size_ m) (aligned_size n)) as [i|] eqn:Hff.
  - pose proof Hinv as [Hr _].
    destruct (real_alloc_pass_spec fuel h (aligned_size n) m al ll i Hr Ha48 Hamod Hfuel Hff)
      as (m' & Halloc & Hr' & Hh' & _ & _ & Hfresh & Hhp & _ & Hhx & _).
    exists (Some (data_ptr (gap_start (fld size (arena m)) sizeof_LRUMemoryHunk al i))), m'.
    split.
    + unfold real_alloc. destruct fuel as [|f]; [lia|].
      by rewrite (real_alloc_loop_fits f (S f) h _ m al ll i).
    + assert (inv m al (ll ++ [])) as Hinv0 by (by rewrite app_nil_r).
      destruct (rebind_facts m m m' al al ll [] h H
                  (gap_start (fld size (arena m)) sizeof_LRUMemoryHunk al i) i
                  Hinv0 HhH Hinv (shrunk_refl m))
        as (Hb & Hleak & Hrel); try done.
      { intros x hx Hx. by apply elem_of_nil in Hx. }
      eexists _, _, ll, []. split_and!; try done. by rewrite app_nil_r.
  - destruct (real_alloc_spec fuel h n m al ll Hinv Hn Hnw Hfuel)
      as (m1 & al1 & ll1 & ev & Hinv1 & -> & Hsub & Hshr & Hev & Hres).
    destruct (first_fit _ _ al1 _ _) as [i|] eqn:Hff1.
    + destruct Hres as (m' & Halloc & Hr' & Hh' & _ & Hfresh & Hhp & _ & Hhx & _).
      exists (Some (data_ptr (gap_start (fld size (arena m1)) sizeof_LRUMemoryHunk al1 i))), m'.
      split; [exact Halloc|].
      destruct (rebind_facts m m1 m' al al1 ll1 ev h H
                  (gap_start (fld size (arena m1)) sizeof_LRUMemoryHunk al1 i) i
                  Hinv HhH Hinv1 Hshr Hev)
        as (Hb & Hleak & Hrel); try done.
      eexists _, _, ll1, ev. split_and!; done.
    + destruct Hres as [-> Halloc]. exists None, m1. split; [exact Halloc|].
      destruct Hinv1 as [Hr1 Hb1].
      assert (al1 = []) as ->
        by (symmetry; apply Permutation_nil_l; apply (r_perm _ _ _ Hr1)).
      destruct (hunk_ptr_ m1 !! h) as [x|] eqn:Hx; [|done].
      destruct (proj2 Hb1 h x Hx) as [Hx' _]. by apply elem_of_nil in Hx'.
Qed.

(** C10 for a request of 100 bytes for handle 0 in [arena_250_50], where
    handle 0 is bound to the hunk at 48: the request fits behind the last
    hunk, and the hunk at 48 stays behind without a handle. *)
Lemma alloc_on_bound_handle_witness :
  ∃ m' al',
    public_alloc 3 0 100 arena_250_50 = Ok (Some 512, m') ∧
    rings m' al' [464; 352; 48] ∧
    hunk_ptr_ m' !! 0%nat = Some 464 ∧
    48 ∈ al' ∧
    fld handler_ptr (arena m') 48 = Some (Some 0%nat) ∧
    hunk_ptr_ m' !! 1%nat ≠ Some 48 ∧
    ¬ bound m' al'.
Proof.
  assert (inv arena_250_50 [48; 352] [352; 48]) as Hinv
    by (apply check_inv_sound; vm_compute; reflexivity).
  assert (hunk_ptr_ arena_250_50 !! 0%nat = Some 48) as HhH by (vm_compute; reflexivity).
  assert (0 < 100) as Hn by lia.
  assert (mem_arena_ptr_ arena_250_50 + mem_total_size_ arena_250_50 + 100 +
            sizeof_LRUMemoryHunk + ALIGNMENT_MASK < size_t_modulus) as Hov
    by (vm_compute; reflexivity).
  assert (length [48; 352] < 3)%nat as Hfuel by (simpl; lia).
  destruct (alloc_on_bound_handle 3 0 100 arena_250_50 _ _ 48 Hinv HhH Hn Hov Hfuel)
    as (r & m' & Halloc & Hres).
  assert (∃ m0, public_alloc 3 0 100 arena_250_50 = Ok (Some 512, m0)) as [m0 Hm0]
    by (eexists; vm_compute; reflexivity).
  rewrite Hm0 in Halloc. injection Halloc as <- <-.
  destruct Hres as (p & al' & ll' & ev & Hp & Hll & Hr' & Hb & Hfit & Hleak & _).
  assert (p = 464) as -> by (unfold sizeof_LRUMemoryHunk in Hp; lia).
  assert (ev = []) as -> by (apply Hfit; vm_compute; eauto).
  rewrite app_nil_r in Hll. subst ll'.
  destruct Hleak as (_ & Hal & _ & Hh & Hun & Hnb); [apply not_elem_of_nil|].
  exists m0, al'. split_and!; try done.
Defined.

(** * Further facts about the operations *)

Lemma packed_pairs sz lo l hi i j x y :
  packed sz lo l hi → (i < j)%nat → l !! i = Some x → l !! j = Some y →
  ∃ s, sz x = Some s ∧ sizeof_LRUMemoryHunk ≤ s ∧ x + s ≤ y.
Proof.
  revert lo i j. induction l as [|a l IH]; intros lo i j Hp Hij Hi Hj; [done|].
  destruct Hp as (s & Hs & Hlo & Hs48 & _ & Hp).
  destruct j as [|j]; [lia|]. simpl in Hj.
  destruct i as [|i]; simpl in Hi.
  - injection Hi as <-. exists s. split_and!; [done..|].
    assert (y ∈ l) as Hy by (apply list_elem_of_lookup; eauto).
    apply (packed_lt _ _ _ _ _ Hp) in Hy. lia.
  - eapply (IH _ i j); [done|lia|done..].
Qed.

Lemma rings_arena_ok m al ll : rings m al ll → arena_ok m al.
Proof.
  intros Hr. pose proof (r_layout _ _ _ Hr) as Hp. constructor.
  - intros i j x y Hij Hi Hj.
    destruct (packed_pairs _ _ _ _ _ _ _ _ Hp Hij Hi Hj) as (s & _ & ? & ?).
    unfold sizeof_LRUMemoryHunk in *. lia.
  - intros i j x y Hij Hi Hj.
    destruct (packed_pairs _ _ _ _ _ _ _ _ Hp Hij Hi Hj) as (s & ? & _ & ?). eauto.
  - intros x Hx. destruct (packed_elem _ _ _ _ _ Hp Hx) as (s & ? & ? & ? & _). eauto.
  - intros x Hx. destruct (packed_elem _ _ _ _ _ Hp Hx) as (s & ? & _ & _ & ? & ?). eauto.
  - by destruct (rings_consumed _ _ _ Hr).
Qed.

Lemma get_buffer_and_refresh_spec_total m al ll h :
  inv m al ll →
  ∃ r m' ll', get_buffer_and_refresh h m = Ok (r, m') ∧ inv m' al ll'.
Proof.
  intros Hinv. destruct (hunk_ptr_ m !! h) as [p|] eqn:Hh.
  - destruct (real_get_buffer_spec m al ll h p Hinv Hh)
      as (m' & k1 & k2 & -> & Hget & Hinv' & _).
    by exists (Some (data_ptr p)), m', (p :: k1 ++ k2).
  - exists None, m, ll. split; [|done]. by apply real_get_buffer_unbound.
Qed.

(** A ring fixes the link fields of its members. *)
Lemma linked_fields nx pv nx' pv' l z :
  linked nx pv 0 l 0 → linked nx' pv' 0 l 0 → z ∈ 0 :: l →
  nx' z = nx z ∧ pv' z = pv z.
Proof.
  intros Hl Hl' Hz. apply elem_of_cons in Hz as [->|Hz].
  - rewrite (linked_first _ _ _ _ _ Hl), (linked_first _ _ _ _ _ Hl').
    by rewrite (linked_last _ _ _ _ _ Hl), (linked_last _ _ _ _ _ Hl').
  - apply list_elem_of_split in Hz as (l1 & l2 & ->).
    rewrite (linked_succ _ _ _ _ _ _ _ Hl), (linked_succ _ _ _ _ _ _ _ Hl').
    by rewrite (linked_pred _ _ _ _ _ _ _ Hl), (linked_pred _ _ _ _ _ _ _ Hl').
Qed.

(** Two managers with the same rings, the same sizes and handlers on them,
    the same handles, the same capacity and the same arena block are the
    same manager. *)
Lemma state_ext m m' al ll :
  rings m al ll → rings m' al ll →
  (∀ x, x ∈ al → fld size (arena m') x = fld size (arena m) x) →
  (∀ x, x ∈ al → fld handler_ptr (arena m') x = fld handler_ptr (arena m) x) →
  hunk_ptr_ m' = hunk_ptr_ m → mem_total_size_ m' = mem_total_size_ m →
  mem_arena_ptr_ m' = mem_arena_ptr_ m →
  m' = m.
Proof.
  intros Hr Hr' Hs Hh Hhp Ht Hbase.
  assert (mem_allocated_size_ m' = mem_allocated_size_ m) as Ha.
  { rewrite (r_allocated _ _ _ Hr), (r_allocated _ _ _ Hr'). f_equal.
    by apply footprint_ext. }
  assert (arena m' = arena m) as HA.
  { apply map_eq. intros x.
    destruct (decide (x ∈ 0 :: al)) as [Hx|Hx].
    - assert (x ∈ 0 :: ll) as Hxl.
      { apply elem_of_cons in Hx as [->|Hx]; [set_solver|].
        apply elem_of_cons. right. by rewrite (r_perm _ _ _ Hr). }
      destruct (linked_fields _ _ _ _ _ x (r_addr _ _ _ Hr) (r_addr _ _ _ Hr') Hx)
        as [Hnx Hpv].
      destruct (linked_fields _ _ _ _ _ x (r_lru _ _ _ Hr) (r_lru _ _ _ Hr') Hxl)
        as [Hmr Hlr].
      assert (fld size (arena m') x = fld size (arena m) x) as Hsx.
      { apply elem_of_cons in Hx as [->|Hx]; [|by apply Hs].
        by rewrite (r_head_size _ _ _ Hr), (r_head_size _ _ _ Hr'). }
      assert (fld handler_ptr (arena m') x = fld handler_ptr (arena m) x) as Hhx.
      { apply elem_of_cons in Hx as [->|Hx]; [|by apply Hh].
        by rewrite (r_head_handler _ _ _ Hr), (r_head_handler _ _ _ Hr'). }
      unfold fld in *.
      destruct (arena m' !! x) as [k'|], (arena m !! x) as [k|]; simpl in *; try done.
      f_equal. apply hunk_eq; congruence.
    - assert (¬ live (arena m) x) as Hn.
      { rewrite (r_dom _ _ _ Hr). intros [->|?]; apply Hx; set_solver. }
      assert (¬ live (arena m') x) as Hn'.
      { rewrite (r_dom _ _ _ Hr'). intros [->|?]; apply Hx; set_solver. }
      unfold live in *. rewrite <- eq_None_not_Some in Hn, Hn'. by rewrite Hn, Hn'. }
  destruct m, m'; simpl in *; congruence.
Qed.

(** [alloc] for an unbound handle and a size that does not wrap around, in
    the size or in a pointer: the hunks [ev], a tail of the recency ring, are
    evicted, which takes [m] to [m1]; then the request is placed in the first
    gap that takes it, or the arena is empty and the request too large. *)
Lemma alloc_unbound_spec fuel h n m al ll :
  inv m al ll → hunk_ptr_ m !! h = None →
  0 ≤ n → n + sizeof_LRUMemoryHunk + ALIGNMENT_MASK < size_t_modulus →
  (length al < fuel)%nat →
  is_Some (first_fit (fld size (arena m)) sizeof_LRUMemoryHunk al
                     (mem_total_size_ m) (aligned_size n)) ∨
    mem_arena_ptr_ m + mem_total_size_ m + n + sizeof_LRUMemoryHunk + ALIGNMENT_MASK
      < size_t_modulus →
  ∃ m1 al1 ll1 ev,
    inv m1 al1 ll1 ∧ ll = ll1 ++ ev ∧ al1 `sublist_of` al ∧ shrunk m m1 ∧
    hunk_ptr_ m1 !! h = None ∧
    (∀ x hx, x ∈ ev → fld handler_ptr (arena m) x = Some (Some hx) →
             hunk_ptr_ m1 !! hx = None) ∧
    (is_Some (first_fit (fld size (arena m)) sizeof_LRUMemoryHunk al
                        (mem_total_size_ m) (aligned_size n)) →
     m1 = m ∧ al1 = al ∧ ev = []) ∧
    match first_fit (fld size (arena m1)) sizeof_LRUMemoryHunk al1 (mem_total_size_ m1)
                    (aligned_size n) with
    | None => al1 = [] ∧ ll1 = [] ∧ alloc fuel h n m = Ok (None, m1)
    | Some i =>
      let p := gap_start (fld size (arena m1)) sizeof_LRUMemoryHunk al1 i in
      ∃ m', alloc fuel h n m = Ok (Some (data_ptr p), m') ∧
            inv m' (take i al1 ++ p :: drop i al1) (p :: ll1) ∧
            hunk_ptr_ m' = <[h := p]> (hunk_ptr_ m1) ∧
            mem_total_size_ m' = mem_total_size_ m ∧
            mem_allocated_size_ m' = mem_allocated_size_ m1 + aligned_size n ∧
            ¬ live (arena m1) p ∧
            fld handler_ptr (arena m') p = Some (Some h) ∧
            fld size (arena m') p = Some (aligned_size n) ∧
            (∀ x, x ≠ p → fld handler_ptr (arena m') x = fld handler_ptr (arena m1) x) ∧
            (∀ x, x ≠ p → fld size (arena m') x = fld size (arena m1) x)
    end.
Proof.
  intros Hinv Hh Hn Hov Hfuel Hw.
  destruct (aligned_size_in_range n Hn Hov) as (_ & _ & Ha48 & Hamod).
  assert (∀ m1 al1 ll1 i m',
    inv m1 al1 ll1 → hunk_ptr_ m1 !! h = None →
    let p := gap_start (fld size (arena m1)) sizeof_LRUMemoryHunk al1 i in
    rings m' (take i al1 ++ p :: drop i al1) (p :: ll1) →
    hunk_ptr_ m' = <[h := p]> (hunk_ptr_ m1) →
    ¬ live (arena m1) p →
    fld handler_ptr (arena m') p = Some (Some h) →
    fld size (arena m') p = Some (aligned_size n) →
    (∀ x, x ≠ p → fld handler_ptr (arena m') x = fld handler_ptr (arena m1) x) →
    (∀ x, x ≠ p → fld size (arena m') x = fld size (arena m1) x) →
    inv m' (take i al1 ++ p :: drop i al1) (p :: ll1) ∧
    mem_allocated_size_ m' = mem_allocated_size_ m1 + aligned_size n) as Hafter.
  { intros m1 al1 ll1 i m' [Hr1 Hb1] Hh1 p Hr' Hh' Hfresh Hhp Hsp Hhx Hsx.
    assert (p ∉ al1) as Hp1 by (intros Hp; apply Hfresh; by eapply rings_live).
    split; [split; [done|]|].
    - eapply (bound_after_bind m1 m' al1); try done.
      intros x. apply elem_of_take_drop_insert.
    - rewrite (r_allocated _ _ _ Hr'), (r_allocated _ _ _ Hr1).
      rewrite footprint_app. cbn [footprint]. rewrite Hsp. simpl.
      rewrite <- (take_drop i al1) at 3. rewrite footprint_app.
      rewrite (footprint_ext (fld size (arena m1)) (fld size (arena m')) (take i al1)).
      + rewrite (footprint_ext (fld size (arena m1)) (fld size (arena m')) (drop i al1)); [lia|].
        intros x Hx. apply Hsx. intros ->. apply Hp1.
        rewrite <- (take_drop i al1). set_solver.
      + intros x Hx. apply Hsx. intros ->. apply Hp1.
        rewrite <- (take_drop i al1). set_solver. }
  destruct (first_fit (fld size (arena m)) sizeof_LRUMemoryHunk al
              (mem_total_size_ m) (aligned_size n)) as [i|] eqn:Hff.
  - pose proof Hinv as [Hr _].
    destruct (real_alloc_pass_spec fuel h (aligned_size n) m al ll i Hr Ha48 Hamod Hfuel Hff)
      as (m' & Halloc & Hr' & Hh' & Ht' & _ & Hfresh & Hhp & Hsp & Hhx & Hsx).
    exists m, al, ll, []. rewrite Hff.
    split; [exact Hinv|]. split; [by rewrite app_nil_r|]. split; [done|].
    split; [apply shrunk_refl|]. split; [exact Hh|].
    split; [intros x hx Hx; by apply elem_of_nil in Hx|]. split; [done|].
    + exists m'.
      destruct (Hafter m al ll i m' Hinv Hh Hr' Hh' Hfresh Hhp Hsp Hhx Hsx) as [Hinv' Ha'].
      split_and!; try done.
      unfold alloc, real_alloc. destruct fuel as [|f]; [lia|].
      by rewrite (real_alloc_loop_fits f (S f) h _ m al ll i) by (done || apply aligned_size_nonneg).
  - destruct Hw as [[? ?]|Hnw]; [done|].
    destruct (real_alloc_spec fuel h n m al ll Hinv Hn Hnw Hfuel)
      as (m1 & al1 & ll1 & ev & Hinv1 & Hll & Hsub & Hshr & Hev & Hres).
    assert (hunk_ptr_ m1 !! h = None) as Hh1.
    { destruct (hunk_ptr_ m1 !! h) as [x|] eqn:Hx; [|done].
      destruct Hshr as (_ & Hm & _). apply Hm in Hx. congruence. }
    exists m1, al1, ll1, ev.
    split; [exact Hinv1|]. split; [exact Hll|]. split; [exact Hsub|].
    split; [exact Hshr|]. split; [exact Hh1|]. split; [exact Hev|].
    split; [by intros [? ?]|].
    + destruct (first_fit _ _ al1 _ _) as [i|] eqn:Hff1.
      * destruct Hres as (m' & Halloc & Hr' & Hh' & Ht' & Hfresh & Hhp & Hsp & Hhx & Hsx).
        exists m'.
        destruct (Hafter m1 al1 ll1 i m' Hinv1 Hh1 Hr' Hh' Hfresh Hhp Hsp Hhx Hsx) as [Hinv' Ha'].
        split_and!; done.
      * destruct Hres as [-> Halloc]. split_and!; try done.
        destruct Hinv1 as [Hr1 _].
        symmetry. apply Permutation_nil_l. apply (r_perm _ _ _ Hr1).
Qed.

(** The handles of a list of hunks. *)
Lemma handles_of m al (l : list Z) :
  bound m al → (∀ x, x ∈ l → x ∈ al) →
  ∃ hs, Forall2 (λ h p, hunk_ptr_ m !! h = Some p ∧
                        fld handler_ptr (arena m) p = Some (Some h)) hs l.
Proof.
  intros [Hb _] Hl. induction l as [|x l IH].
  - exists []. constructor.
  - destruct IH as [hs Hhs]; [intros y Hy; apply Hl; set_solver|].
    destruct (Hb x) as (h & Hh & Hp); [apply Hl; set_solver|].
    exists (h :: hs). by constructor.
Qed.

(** The iterator along a ring whose hunks have the handles [hs]. *)
Lemma iterator_steps m al ll (is_lru_order : bool) hs :
  inv m al ll →
  Forall2 (λ h p, hunk_ptr_ m !! h = Some p ∧
                  fld handler_ptr (arena m) p = Some (Some h))
          hs (if is_lru_order then ll else al) →
  begin_ is_lru_order m = Ok (hs !! 0%nat, m) ∧
  end_ m = Ok (None, m) ∧
  (∀ i h, hs !! i = Some h →
          iterator_next is_lru_order (Some h) m = Ok (hs !! S i, m)).
Proof.
  intros [Hr Hb].
  set (l := if is_lru_order then ll else al).
  set (nx := fld (if is_lru_order then most_recent_ptr else next_ptr) (arena m)).
  set (pv := fld (if is_lru_order then least_recent_ptr else prev_ptr) (arena m)).
  intros Hhs.
  assert (linked nx pv 0 l 0) as Hl.
  { subst l nx pv. destruct is_lru_order; [apply (r_lru _ _ _ Hr)|apply (r_addr _ _ _ Hr)]. }
  assert (∀ l2 k, drop k l = l2 → fld handler_ptr (arena m) (hd 0 l2) = Some (hs !! k)) as Hhd.
  { intros l2 k <-. destruct (l !! k) as [q|] eqn:Hq.
    - destruct (Forall2_lookup_r _ _ _ _ _ Hhs Hq) as (hq & Hhq & _ & Hq').
      rewrite Hhq. erewrite drop_S by done. done.
    - rewrite drop_ge by (by apply lookup_ge_None).
      apply lookup_ge_None in Hq. rewrite <- (Forall2_length _ _ _ Hhs) in Hq.
      apply lookup_ge_None in Hq. rewrite Hq. apply (r_head_handler _ _ _ Hr). }
  split_and!.
  - pose proof (linked_first _ _ _ _ _ Hl) as Hfirst.
    pose proof (Hhd l 0%nat eq_refl) as Hh0.
    unfold begin_, get_head_hunk. exec.
  - unfold end_, get_head_hunk. apply read_Ok, (r_head_handler _ _ _ Hr).
  - intros i h Hi.
    destruct (Forall2_lookup_l _ _ _ _ _ Hhs Hi) as (p & Hp & Hbp & Hhp).
    assert (l = take i l ++ p :: drop (S i) l) as Hsplit.
    { rewrite <- (take_drop_middle l i p) at 1 by done. done. }
    rewrite Hsplit in Hl. pose proof (linked_succ _ _ _ _ _ _ _ Hl) as Hnx.
    pose proof (Hhd (drop (S i) l) (S i) eq_refl) as Hh'.
    unfold iterator_next. exec1.
    erewrite bind_Ok by (unfold get_hunk_ptr; rewrite Hbp; reflexivity).
    exec.
Qed.

(** X1: Iteration visits the members of a ring in ring order.  The handles [hs]
    of the hunks of the recency ring (most recently used first) or of the
    address ring (lowest address first) are what [begin()] and successive
    [operator++] yield, one after the other; after the last one the iterator
    is [end()], the null handle pointer of the sentinel, and incrementing it
    once more dereferences that null pointer.  Nothing is written. *)
Theorem iteration_visits_ring m al ll (is_lru_order : bool) :
  inv m al ll →
  ∃ hs,
    Forall2 (λ h p, hunk_ptr_ m !! h = Some p ∧
                    fld handler_ptr (arena m) p = Some (Some h))
            hs (if is_lru_order then ll else al) ∧
    begin_ is_lru_order m = Ok (hs !! 0%nat, m) ∧
    end_ m = Ok (None, m) ∧
    (∀ i h, hs !! i = Some h →
            iterator_next is_lru_order (Some h) m = Ok (hs !! S i, m)) ∧
    iterator_next is_lru_order None m = Undefined.
Proof.
  intros Hinv. pose proof Hinv as [Hr Hb].
  assert (∀ x, x ∈ (if is_lru_order then ll else al) → x ∈ al) as Hsub.
  { destruct is_lru_order; [|done]. intros x Hx. by rewrite <- (r_perm _ _ _ Hr). }
  destruct (handles_of m al _ Hb Hsub) as [hs Hhs].
  destruct (iterator_steps m al ll is_lru_order hs Hinv Hhs) as (Hbegin & Hend & Hnext).
  exists hs. split_and!; done.
Qed.

(** Iteration over [arena_250_50] in recency order yields handle 1, then
    handle 0, then [end()]. *)
Lemma iteration_visits_ring_witness :
  ∃ hs,
    begin_ true arena_250_50 = Ok (hs !! 0%nat, arena_250_50) ∧
    hs = [1%nat; 0%nat] ∧
    iterator_next true (Some 1%nat) arena_250_50 = Ok (Some 0%nat, arena_250_50) ∧
    iterator_next true (Some 0%nat) arena_250_50 = Ok (None, arena_250_50).
Proof.
  assert (inv arena_250_50 [48; 352] [352; 48]) as Hinv
    by (apply check_inv_sound; vm_compute; reflexivity).
  destruct (iteration_visits_ring arena_250_50 _ _ true Hinv)
    as (hs & Hhs & Hbegin & _ & Hnext & _).
  assert (hs = [1%nat; 0%nat]) as ->.
  { inversion Hhs as [|h1 p1 hs1 l1 [_ Hb1] Hhs1]; subst.
    inversion Hhs1 as [|h2 p2 hs2 l2 [_ Hb2] Hhs2]; subst.
    inversion Hhs2; subst.
    assert (fld handler_ptr (arena arena_250_50) 352 = Some (Some 1%nat)) as H1
      by (vm_compute; reflexivity).
    assert (fld handler_ptr (arena arena_250_50) 48 = Some (Some 0%nat)) as H2
      by (vm_compute; reflexivity).
    rewrite H1 in Hb1. rewrite H2 in Hb2. congruence. }
  exists [1%nat; 0%nat]. split_and!.
  - exact Hbegin.
  - reflexivity.
  - exact (Hnext 0%nat 1%nat eq_refl).
  - exact (Hnext 1%nat 0%nat eq_refl).
Defined.

(** An access to the most recently used hunk changes nothing at all. *)
Lemma refresh_mru m al l h p :
  inv m al (p :: l) → hunk_ptr_ m !! h = Some p →
  get_buffer_and_refresh h m = Ok (Some (data_ptr p), m).
Proof.
  intros Hinv Hh.
  destruct (real_get_buffer_spec m al (p :: l) h p Hinv Hh)
    as (m' & k1 & k2 & Hll & Hget & [Hr' _] & Hh' & Ht' & _ & Hs & Hhd & _).
  pose proof Hinv as [Hr _].
  assert (k1 = [] ∧ k2 = l) as [-> ->].
  { pose proof (rings_lru_NoDup_head _ _ _ Hr) as Hnd.
    apply NoDup_cons in Hnd as [_ Hnd].
    destruct k1 as [|x k1]; simpl in Hll.
    - by injection Hll as <-.
    - injection Hll as <- ->. apply NoDup_cons in Hnd as [Hnd _].
      exfalso. apply Hnd. set_solver. }
  simpl in Hr'. unfold get_buffer_and_refresh. rewrite Hget. do 2 f_equal.
  apply (state_ext m m' al (p :: l)); try done.
  by apply (keeps_base_real_get_buffer h m _ m' Hget).
Qed.



(** X3: The buffers of two distinct bound handles, each running from the pointer
    [get_buffer_and_refresh] returns over the [size()] bytes of its handle,
    lie inside the pool behind the sentinel and do not overlap; neither does
    a buffer reach into the header of the other hunk. *)
Theorem buffers_do_not_overlap m al ll h1 h2 p1 p2 :
  inv m al ll →
  hunk_ptr_ m !! h1 = Some p1 → hunk_ptr_ m !! h2 = Some p2 → h1 ≠ h2 →
  ∃ s1 s2,
    handle_size h1 m = Ok (s1, m) ∧ handle_size h2 m = Ok (s2, m) ∧
    0 ≤ s1 ∧ 0 ≤ s2 ∧
    sizeof_LRUMemoryHunk ≤ p1 ∧ data_ptr p1 + s1 ≤ mem_total_size_ m ∧
    sizeof_LRUMemoryHunk ≤ p2 ∧ data_ptr p2 + s2 ≤ mem_total_size_ m ∧
    (data_ptr p1 + s1 ≤ p2 ∨ data_ptr p2 + s2 ≤ p1).
Proof.
  intros [Hr [_ Hb]] Hh1 Hh2 Hne.
  destruct (Hb h1 p1 Hh1) as [Hp1 Hhd1]. destruct (Hb h2 p2 Hh2) as [Hp2 Hhd2].
  assert (p1 ≠ p2) as Hpne by (intros ->; congruence).
  pose proof (r_layout _ _ _ Hr) as Hp. pose proof (r_total _ _ _ Hr) as Ht.
  destruct (packed_elem _ _ _ _ _ Hp Hp1) as (s1 & Hs1 & Hlo1 & Hhi1 & Hs481 & _).
  destruct (packed_elem _ _ _ _ _ Hp Hp2) as (s2 & Hs2 & Hlo2 & Hhi2 & Hs482 & _).
  assert (∀ h p s, hunk_ptr_ m !! h = Some p → fld size (arena m) p = Some s →
                   sizeof_LRUMemoryHunk ≤ s → p + s ≤ mem_total_size_ m → 0 ≤ p →
                   handle_size h m = Ok (s - sizeof_LRUMemoryHunk, m)) as Hsize.
  { intros h p s Hh Hs Hs48 Hhi Hlo. unfold handle_size.
    erewrite bind_Ok by (unfold get_hunk_ptr; rewrite Hh; reflexivity).
    exec. rewrite wrap_small; [done|].
    unfold sizeof_LRUMemoryHunk, size_t_modulus in *. lia. }
  exists (s1 - sizeof_LRUMemoryHunk), (s2 - sizeof_LRUMemoryHunk).
  unfold data_ptr.
  split_and!; [apply (Hsize h1 p1); (done || unfold sizeof_LRUMemoryHunk in *; lia)
              |apply (Hsize h2 p2); (done || unfold sizeof_LRUMemoryHunk in *; lia)
              |lia..|].
  apply list_elem_of_lookup in Hp1 as [i Hi]. apply list_elem_of_lookup in Hp2 as [j Hj].
  destruct (decide (i < j)%nat) as [Hij|Hij].
  - destruct (packed_pairs _ _ _ _ _ _ _ _ Hp Hij Hi Hj) as (s & Hs & _ & Hle).
    left. rewrite Hs1 in Hs. injection Hs as <-. lia.
  - assert (j < i)%nat as Hji.
    { destruct (decide (i = j)) as [->|?]; [congruence|lia]. }
    destruct (packed_pairs _ _ _ _ _ _ _ _ Hp Hji Hj Hi) as (s & Hs & _ & Hle).
    right. rewrite Hs2 in Hs. injection Hs as <-. lia.
Qed.

(** The two buffers of [arena_250_50]. *)
Lemma buffers_do_not_overlap_witness :
  ∃ s1 s2,
    handle_size 0 arena_250_50 = Ok (s1, arena_250_50) ∧
    handle_size 1 arena_250_50 = Ok (s2, arena_250_50) ∧
    data_ptr 48 + s1 ≤ mem_total_size_ arena_250_50 ∧
    data_ptr 352 + s2 ≤ mem_total_size_ arena_250_50 ∧
    (data_ptr 48 + s1 ≤ 352 ∨ data_ptr 352 + s2 ≤ 48).
Proof.
  assert (inv arena_250_50 [48; 352] [352; 48]) as Hinv
    by (apply check_inv_sound; vm_compute; reflexivity).
  assert (hunk_ptr_ arena_250_50 !! 0%nat = Some 48) as H0 by (vm_compute; reflexivity).
  assert (hunk_ptr_ arena_250_50 !! 1%nat = Some 352) as H1 by (vm_compute; reflexivity).
  assert (0%nat ≠ 1%nat) as Hne by lia.
  destruct (buffers_do_not_overlap arena_250_50 _ _ 0 1 48 352 Hinv H0 H1 Hne)
    as (s1 & s2 & Hs1 & Hs2 & _ & _ & _ & Hin1 & _ & Hin2 & Hdisj).
  exists s1, s2. split_and!; assumption.
Defined.



(** X5: [get_buffer_and_refresh] is idempotent: a second access through the same
    handle returns what the first returned and leaves the manager as the
    first left it. *)
Theorem get_buffer_and_refresh_idempotent m al ll h r m' :
  inv m al ll →
  get_buffer_and_refresh h m = Ok (r, m') →
  get_buffer_and_refresh h m' = Ok (r, m').
Proof.
  intros Hinv Hget. destruct (hunk_ptr_ m !! h) as [p|] eqn:Hh.
  - destruct (real_get_buffer_spec m al ll h p Hinv Hh)
      as (m'' & k1 & k2 & _ & Hget' & Hinv' & Hh' & _).
    unfold get_buffer_and_refresh in Hget. rewrite Hget in Hget'.
    injection Hget' as -> <-.
    eapply refresh_mru; [exact Hinv'|]. by rewrite Hh'.
  - unfold get_buffer_and_refresh in *.
    rewrite (real_get_buffer_unbound m h Hh) in Hget. injection Hget as <- <-.
    by apply real_get_buffer_unbound.
Qed.

(** The access to the less recently used hunk of [arena_900_900], twice. *)
Lemma get_buffer_and_refresh_idempotent_witness :
  ∃ m', get_buffer_and_refresh 0 arena_900_900 = Ok (Some 96, m') ∧
        m' ≠ arena_900_900 ∧
        get_buffer_and_refresh 0 m' = Ok (Some 96, m').
Proof.
  assert (inv arena_900_900 [48; 1008] [1008; 48]) as Hinv
    by (apply check_inv_sound; vm_compute; reflexivity).
  assert (∃ m', get_buffer_and_refresh 0 arena_900_900 = Ok (Some 96, m') ∧
                fld most_recent_ptr (arena m') 0 = Some (Some 48))
    as (m' & Hm' & Hmr) by (eexists; split; vm_compute; reflexivity).
  exists m'. split_and!.
  - exact Hm'.
  - intros ->. clear Hm' Hinv. vm_compute in Hmr. discriminate Hmr.
  - exact (get_buffer_and_refresh_idempotent arena_900_900 _ _ 0 (Some 96) m' Hinv Hm').
Defined.

(** X6: [free] undoes an [alloc] that needed no eviction: when the request of an
    unbound handle fits into some gap, [alloc] followed by [free] of the same
    handle gives back the manager the pair started from, field by field. *)
Theorem free_undoes_alloc fuel h n m al ll :
  inv m al ll → hunk_ptr_ m !! h = None →
  0 ≤ n → n + sizeof_LRUMemoryHunk + ALIGNMENT_MASK < size_t_modulus →
  (length al < fuel)%nat →
  is_Some (first_fit (fld size (arena m)) sizeof_LRUMemoryHunk al
                     (mem_total_size_ m) (aligned_size n)) →
  ∃ d m', alloc fuel h n m = Ok (Some d, m') ∧ free h m' = Ok (tt, m).
Proof.
  intros Hinv Hh Hn Hov Hfuel Hfit.
  destruct (alloc_unbound_spec fuel h n m al ll Hinv Hh Hn Hov Hfuel (or_introl Hfit))
    as (m1 & al1 & ll1 & ev & Hinv1 & Hll & _ & _ & _ & _ & Hnoev & Hres).
  destruct (Hnoev Hfit) as (-> & -> & ->). rewrite app_nil_r in Hll. subst ll1.
  pose proof Hinv as [Hr _].
  destruct Hfit as [i Hff]. rewrite Hff in Hres.
  destruct Hres as (m' & Halloc & Hinv' & Hh' & Ht' & _ & Hfresh & Hhp & Hsp & Hhx & Hsx).
  set (p := gap_start (fld size (arena m)) sizeof_LRUMemoryHunk al i) in *.
  assert (p ∉ al) as Hpal by (intros Hp; apply Hfresh; by eapply rings_live).
  assert (hunk_ptr_ m' !! h = Some p) as Hbp by (by rewrite Hh', lookup_insert_eq).
  destruct (real_free_inv m' _ _ h p Hinv' Hbp)
    as (m2 & Hfree & [Hr2 _] & Hh2 & Ht2 & _ & _ & Hs2 & Hhd2).
  assert (without p (take i al ++ p :: drop i al) = al) as Hw1.
  { rewrite without_split; [apply take_drop|].
    destruct Hinv' as [Hr' _]. apply (rings_NoDup _ _ _ Hr'). }
  assert (without p (p :: ll) = ll) as Hw2.
  { apply (without_split p [] ll). destruct Hinv' as [Hr' _].
    pose proof (rings_lru_NoDup_head _ _ _ Hr') as Hnd.
    by apply NoDup_cons in Hnd as [_ ?]. }
  rewrite Hw1, Hw2 in Hr2.
  exists (data_ptr p), m'. split; [exact Halloc|].
  unfold free. rewrite Hfree. do 2 f_equal.
  apply (state_ext m m2 al ll); try done.
  - intros x Hx. rewrite Hs2, Hsx; [done|intros ->; done..].
  - intros x Hx. rewrite Hhd2, Hhx; [done|intros ->; done..].
  - rewrite Hh2, Hh'. rewrite delete_insert_eq. by apply delete_id.
  - congruence.
  - rewrite (keeps_base_real_free h m' tt m2 Hfree).
    by apply (keeps_base_alloc fuel h n m _ m' Halloc).
Qed.

(** In [arena_gap] a request of 100 bytes goes into the gap; releasing it
    gives [arena_gap] back. *)
Lemma free_undoes_alloc_witness :
  ∃ m', alloc 3 7 100 arena_gap = Ok (Some (data_ptr 352), m') ∧
        free 7 m' = Ok (tt, arena_gap).
Proof.
  assert (inv arena_gap [48; 560] [560; 48]) as Hinv
    by (apply check_inv_sound; vm_compute; reflexivity).
  assert (hunk_ptr_ arena_gap !! 7%nat = None) as Hh by (vm_compute; reflexivity).
  assert (0 ≤ 100) as Hn by lia.
  assert (100 + sizeof_LRUMemoryHunk + ALIGNMENT_MASK < size_t_modulus) as Hov
    by (vm_compute; reflexivity).
  assert (length [48; 560] < 3)%nat as Hfuel by (simpl; lia).
  assert (is_Some (first_fit (fld size (arena arena_gap)) sizeof_LRUMemoryHunk [48; 560]
                     (mem_total_size_ arena_gap) (aligned_size 100))) as Hfit
    by (vm_compute; eauto).
  destruct (free_undoes_alloc 3 7 100 arena_gap _ _ Hinv Hh Hn Hov Hfuel Hfit)
    as (d & m' & Halloc & Hfree).
  assert (∃ m0, alloc 3 7 100 arena_gap = Ok (Some (data_ptr 352), m0)) as [m0 Hm0]
    by (eexists; vm_compute; reflexivity).
  rewrite Hm0 in Halloc. injection Halloc as <- <-.
  exists m0. split; [exact Hm0|exact Hfree].
Defined.

(** X7: After [free] the handle is unbound, and the operations differ in what
    they make of that: an access through it returns null and changes
    nothing; [size()] and [operator++] on an iterator at the handle abort on
    their [Expects]; a second [free] dereferences the null hunk pointer of
    the handle, which is undefined behaviour that no [Expects] guards. *)
Theorem free_then_use m al ll h p :
  inv m al ll → hunk_ptr_ m !! h = Some p →
  ∃ m', free h m = Ok (tt, m') ∧
        hunk_ptr_ m' !! h = None ∧
        ¬ live (arena m') p ∧
        get_buffer_and_refresh h m' = Ok (None, m') ∧
        handle_size h m' = Abort ∧
        (∀ is_lru_order, iterator_next is_lru_order (Some h) m' = Abort) ∧
        free h m' = Undefined.
Proof.
  intros Hinv Hh.
  destruct (real_free_inv m al ll h p Hinv Hh) as (m' & Hfree & _ & Hh' & _ & _ & Hdead & _).
  assert (hunk_ptr_ m' !! h = None) as Hnone by (rewrite Hh'; apply lookup_delete_eq).
  exists m'. split_and!; try done.
  - by apply real_get_buffer_unbound.
  - unfold handle_size, bind at 1 2. unfold get_hunk_ptr at 1. by rewrite Hnone.
  - intros lru. unfold iterator_next. exec1.
    unfold bind at 1 2. unfold get_hunk_ptr at 1. by rewrite Hnone.
  - unfold free, real_free, bind at 1 2. unfold get_hunk_ptr at 1. by rewrite Hnone.
Qed.

(** Releasing handle 0 of [arena_900_900]. *)
Lemma free_then_use_witness :
  ∃ m', free 0 arena_900_900 = Ok (tt, m') ∧
        get_buffer_and_refresh 0 m' = Ok (None, m') ∧
        handle_size 0 m' = Abort ∧
        free 0 m' = Undefined.
Proof.
  assert (inv arena_900_900 [48; 1008] [1008; 48]) as Hinv
    by (apply check_inv_sound; vm_compute; reflexivity).
  assert (hunk_ptr_ arena_900_900 !! 0%nat = Some 48) as Hh by (vm_compute; reflexivity).
  destruct (free_then_use arena_900_900 _ _ 0 48 Hinv Hh)
    as (m' & Hfree & _ & _ & Hget & Hsize & _ & Hagain).
  exists m'. split_and!; assumption.
Defined.

(** X8: What [alloc] does to the hunks that are there, for an unbound handle [h]
    and a size that overflows neither [size_t] nor a pointer into the arena.  The recency ring splits into the
    hunks kept, its most recently used part, and the hunks evicted, its least
    recently used part.  A hunk kept stays at its address with its size,
    bound to its handle: nothing is moved or compacted.  A hunk evicted has
    its handle unbound.  Nothing is evicted when some gap takes the request
    as it is, and nothing is kept when [alloc] fails. *)
Theorem alloc_evicts_a_recency_tail fuel h n m al ll :
  inv m al ll → hunk_ptr_ m !! h = None →
  0 ≤ n →
  mem_arena_ptr_ m + mem_total_size_ m + n + sizeof_LRUMemoryHunk + ALIGNMENT_MASK
    < size_t_modulus →
  (length al < fuel)%nat →
  ∃ r m' kept ev,
    alloc fuel h n m = Ok (r, m') ∧
    ll = kept ++ ev ∧
    (is_Some (first_fit (fld size (arena m)) sizeof_LRUMemoryHunk al
                        (mem_total_size_ m) (aligned_size n)) → ev = []) ∧
    (r = None → kept = []) ∧
    (∀ x hx, x ∈ kept → hunk_ptr_ m !! hx = Some x →
             hunk_ptr_ m' !! hx = Some x ∧
             fld size (arena m') x = fld size (arena m) x ∧
             fld handler_ptr (arena m') x = Some (Some hx)) ∧
    (∀ x hx, x ∈ ev → hunk_ptr_ m !! hx = Some x →
             hunk_ptr_ m' !! hx = None).
Proof.
  intros Hinv Hh Hn Hnw Hfuel.
  destruct (no_wrap_aligned m al ll n (proj1 Hinv) Hn Hnw) as [Hov _].
  destruct (alloc_unbound_spec fuel h n m al ll Hinv Hh Hn Hov Hfuel (or_intror Hnw))
    as (m1 & al1 & ll1 & ev & Hinv1 & Hll & _ & Hshr & Hh1 & Hev & Hnoev & Hres).
  pose proof Hinv as [Hr [_ Hb]]. pose proof Hinv1 as [Hr1 [Hb1 _]].
  assert (is_Some (first_fit (fld size (arena m)) sizeof_LRUMemoryHunk al
                     (mem_total_size_ m) (aligned_size n)) → ev = []) as Hnoev'
    by (intros Hfit; by destruct (Hnoev Hfit) as (_ & _ & ?)).
  assert (∀ x hx, x ∈ ll1 → hunk_ptr_ m !! hx = Some x →
                  hunk_ptr_ m1 !! hx = Some x ∧ live (arena m1) x ∧
                  fld size (arena m1) x = fld size (arena m) x ∧
                  fld handler_ptr (arena m1) x = Some (Some hx)) as Hkept.
  { intros x hx Hx Hbx. destruct (Hb hx x Hbx) as [_ Hhd].
    assert (x ∈ al1) as Hx1 by (by rewrite <- (r_perm _ _ _ Hr1)).
    assert (live (arena m1) x) as Hlive by (by eapply rings_live).
    destruct Hshr as (_ & _ & Hls & _). destruct (Hls x Hlive) as (_ & Hs & Hhd1).
    destruct (Hb1 x Hx1) as (h0 & Hh0 & Hb0).
    assert (h0 = hx) as -> by congruence.
    split_and!; [done..|congruence]. }
  assert (∀ x hx, x ∈ ev → hunk_ptr_ m !! hx = Some x → hunk_ptr_ m1 !! hx = None) as Hgone.
  { intros x hx Hx Hbx. destruct (Hb hx x Hbx) as [_ Hhd]. by eapply Hev. }
  destruct (first_fit _ _ al1 _ _) as [i|].
  - destruct Hres as (m' & Halloc & _ & Hh' & _ & _ & Hfresh & _ & _ & Hhx & Hsx).
    eexists _, m', ll1, ev. split_and!; [exact Halloc|exact Hll|exact Hnoev'|done| |].
    + intros x hx Hx Hbx. destruct (Hkept x hx Hx Hbx) as (Hb1x & Hlive & Hs & Hhd).
      assert (x ≠ gap_start (fld size (arena m1)) sizeof_LRUMemoryHunk al1 i) as Hne
        by (intros ->; done).
      assert (hx ≠ h) as Hneh by (intros ->; congruence).
      rewrite Hh', lookup_insert_ne, Hsx, Hhx by done. done.
    + intros x hx Hx Hbx. assert (hx ≠ h) as Hneh by (intros ->; congruence).
      rewrite Hh', lookup_insert_ne by done. by eapply Hgone.
  - destruct Hres as (_ & -> & Halloc).
    exists None, m1, [], ev. split_and!; [exact Halloc|exact Hll|exact Hnoev'|done| |].
    + intros x hx Hx. by apply elem_of_nil in Hx.
    + exact Hgone.
Qed.

(** A third request of 900 bytes in [arena_900_900] evicts the hunk of
    handle 0, the less recently used one, and keeps the hunk of handle 1 at
    1008. *)
Lemma alloc_evicts_a_recency_tail_witness :
  ∃ m', alloc 3 2 900 arena_900_900 = Ok (Some (data_ptr 48), m') ∧
        hunk_ptr_ m' !! 1%nat = Some 1008 ∧
        hunk_ptr_ m' !! 0%nat = None.
Proof.
  assert (inv arena_900_900 [48; 1008] [1008; 48]) as Hinv
    by (apply check_inv_sound; vm_compute; reflexivity).
  assert (hunk_ptr_ arena_900_900 !! 2%nat = None) as Hh by (vm_compute; reflexivity).
  assert (0 ≤ 900) as Hn by lia.
  assert (mem_arena_ptr_ arena_900_900 + mem_total_size_ arena_900_900 + 900 +
              sizeof_LRUMemoryHunk + ALIGNMENT_MASK < size_t_modulus) as Hov
    by (vm_compute; reflexivity).
  assert (length [48; 1008] < 3)%nat as Hfuel by (simpl; lia).
  destruct (alloc_evicts_a_recency_tail 3 2 900 arena_900_900 _ _ Hinv Hh Hn Hov Hfuel)
    as (r & m' & kept & ev & Halloc & Hll & _ & _ & Hkept & Hev).
  assert (∃ m0, alloc 3 2 900 arena_900_900 = Ok (Some (data_ptr 48), m0) ∧
                hunk_ptr_ m0 !! 1%nat = Some 1008 ∧ hunk_ptr_ m0 !! 0%nat = None)
    as (m0 & Hm0 & H1 & H0).
  { eexists. split; [vm_compute; reflexivity|]. split; vm_compute; reflexivity. }
  rewrite Hm0 in Halloc. injection Halloc as <- <-.
  assert (hunk_ptr_ arena_900_900 !! 1%nat = Some 1008) as Hb1 by (vm_compute; reflexivity).
  assert (hunk_ptr_ arena_900_900 !! 0%nat = Some 48) as Hb0 by (vm_compute; reflexivity).
  assert (kept = [1008] ∧ ev = [48]) as [-> ->].
  { destruct kept as [|a [|b [|c kept]]]; simpl in Hll.
    - subst ev. assert (hunk_ptr_ m0 !! 1%nat = None) as Hc
        by (apply (Hev 1008); [apply list_elem_of_here|exact Hb1]).
      rewrite H1 in Hc. discriminate Hc.
    - injection Hll as <- <-. split; reflexivity.
    - injection Hll as <- <- <-.
      destruct (Hkept 48 0%nat) as (Hc & _);
        [apply list_elem_of_further, list_elem_of_here|exact Hb0|].
      rewrite H0 in Hc. discriminate Hc.
    - discriminate Hll. }
  exists m0. split_and!.
  - exact Hm0.
  - apply (Hkept 1008 1%nat); [apply list_elem_of_here|exact Hb1].
  - apply (Hev 48 0%nat); [apply list_elem_of_here|exact Hb0].
Defined.

(** X9: [alloc] succeeds exactly when the request fits into the empty pool: for
    an unbound handle and a size that overflows neither [size_t] nor a pointer into the arena it returns a
    pointer if and only if the aligned size is at most the capacity less the
    sentinel, whatever is allocated at the time. *)
Theorem alloc_succeeds_iff_fits_pool fuel h n m al ll :
  inv m al ll → hunk_ptr_ m !! h = None →
  0 ≤ n →
  mem_arena_ptr_ m + mem_total_size_ m + n + sizeof_LRUMemoryHunk + ALIGNMENT_MASK
    < size_t_modulus →
  (length al < fuel)%nat →
  ∃ r m',
    alloc fuel h n m = Ok (r, m') ∧
    (is_Some r ↔
     sizeof_LRUMemoryHunk + round_up (n + sizeof_LRUMemoryHunk) MEMORY_ALIGNMENT
       ≤ mem_total_size_ m).
Proof.
  intros Hinv Hh Hn Hnw Hfuel.
  destruct (no_wrap_aligned m al ll n (proj1 Hinv) Hn Hnw) as [Hov _].
  destruct (aligned_size_in_range n Hn Hov) as (Hal & _ & _ & _).
  destruct (alloc_unbound_spec fuel h n m al ll Hinv Hh Hn Hov Hfuel (or_intror Hnw))
    as (m1 & al1 & ll1 & ev & [Hr1 _] & _ & _ & (Ht & _) & _ & _ & _ & Hres).
  rewrite <- Hal, <- Ht.
  destruct (first_fit _ _ al1 _ _) as [i|] eqn:Hff.
  - destruct Hres as (m' & Halloc & _). eexists _, m'. split; [exact Halloc|].
    split; [intros _|by eauto].
    apply first_fit_Some in Hff as (Hi & Hfits & _). unfold gap_fits in Hfits.
    pose proof (r_layout _ _ _ Hr1) as Hp.
    rewrite <- (take_drop i al1) in Hp. apply packed_split in Hp as [Hp1 Hp2].
    pose proof (packed_lend _ _ _ _ Hp1) as [Hlo _].
    assert (gap_end al1 (mem_total_size_ m1) i ≤ mem_total_size_ m1) as Hhi.
    { unfold gap_end. destruct (drop i al1) as [|a l'] eqn:Hd; simpl; [lia|].
      assert (a ∈ a :: l') as Ha by set_solver.
      apply (packed_lt _ _ _ _ _ Hp2) in Ha. lia. }
    unfold gap_start in Hfits. lia.
  - destruct Hres as (-> & _ & Halloc). exists None, m1. split; [exact Halloc|].
    cbn [first_fit] in Hff. destruct (Z.leb_spec (sizeof_LRUMemoryHunk + aligned_size n)
                                        (mem_total_size_ m1)) as [Hle|Hgt]; [done|].
    split; [by intros [? ?]|lia].
Qed.

(** In [arena_900_900], full but for 80 bytes, a request of 1900 bytes is
    served, and one of 1960 bytes is not. *)
Lemma alloc_succeeds_iff_fits_pool_witness :
  (∃ d m', alloc 3 2 1900 arena_900_900 = Ok (Some d, m')) ∧
  (∃ m', alloc 3 2 1960 arena_900_900 = Ok (None, m')).
Proof.
  assert (inv arena_900_900 [48; 1008] [1008; 48]) as Hinv
    by (apply check_inv_sound; vm_compute; reflexivity).
  assert (hunk_ptr_ arena_900_900 !! 2%nat = None) as Hh by (vm_compute; reflexivity).
  assert (length [48; 1008] < 3)%nat as Hfuel by (simpl; lia).
  split.
  - assert (0 ≤ 1900) as Hn by lia.
    assert (mem_arena_ptr_ arena_900_900 + mem_total_size_ arena_900_900 + 1900 +
              sizeof_LRUMemoryHunk + ALIGNMENT_MASK < size_t_modulus) as Hov
      by (vm_compute; reflexivity).
    destruct (alloc_succeeds_iff_fits_pool 3 2 1900 arena_900_900 _ _ Hinv Hh Hn Hov Hfuel)
      as (r & m' & Halloc & Hiff).
    destruct (proj2 Hiff) as [d ->]; [vm_compute; discriminate|].
    exists d, m'. exact Halloc.
  - assert (0 ≤ 1960) as Hn by lia.
    assert (mem_arena_ptr_ arena_900_900 + mem_total_size_ arena_900_900 + 1960 +
              sizeof_LRUMemoryHunk + ALIGNMENT_MASK < size_t_modulus) as Hov
      by (vm_compute; reflexivity).
    destruct (alloc_succeeds_iff_fits_pool 3 2 1960 arena_900_900 _ _ Hinv Hh Hn Hov Hfuel)
      as (r & m' & Halloc & Hiff).
    destruct r as [d|]; [|exists m'; exact Halloc].
    exfalso. apply (proj1 Hiff); [exists d; reflexivity|]. vm_compute. reflexivity.
Defined.

(** X10: An access protects a hunk for as long as possible: if [alloc], called
    right after [get_buffer_and_refresh] on the bound handle [hp], leaves
    [hp] unbound, then it has evicted every hunk there was, and no handle but
    the requesting one can be bound. *)
Theorem refreshed_hunk_is_evicted_last fuel h hp n m al ll p :
  inv m al ll → hunk_ptr_ m !! hp = Some p → hunk_ptr_ m !! h = None →
  0 ≤ n →
  mem_arena_ptr_ m + mem_total_size_ m + n + sizeof_LRUMemoryHunk + ALIGNMENT_MASK
    < size_t_modulus →
  (length al < fuel)%nat →
  ∃ m0 r m',
    get_buffer_and_refresh hp m = Ok (Some (data_ptr p), m0) ∧
    alloc fuel h n m0 = Ok (r, m') ∧
    (hunk_ptr_ m' !! hp = None → ∀ h', h' ≠ h → hunk_ptr_ m' !! h' = None).
Proof.
  intros Hinv Hhp Hh Hn Hnw Hfuel.
  destruct (no_wrap_aligned m al ll n (proj1 Hinv) Hn Hnw) as [Hov _].
  destruct (real_get_buffer_spec m al ll hp p Hinv Hhp)
    as (m0 & k1 & k2 & -> & Hget & Hinv0 & Hh0 & Ht0 & _).
  assert (hunk_ptr_ m0 !! h = None) as Hh' by (by rewrite Hh0).
  assert (hunk_ptr_ m0 !! hp = Some p) as Hhp' by (by rewrite Hh0).
  assert (mem_arena_ptr_ m0 + mem_total_size_ m0 + n + sizeof_LRUMemoryHunk + ALIGNMENT_MASK
            < size_t_modulus) as Hnw0.
  { by rewrite Ht0, (keeps_base_real_get_buffer hp m _ m0 Hget). }
  destruct (alloc_unbound_spec fuel h n m0 al _ Hinv0 Hh' Hn Hov Hfuel (or_intror Hnw0))
    as (m1 & al1 & ll1 & ev & Hinv1 & Hll & _ & Hshr & Hh1 & _ & _ & Hres).
  assert (∀ r m', alloc fuel h n m0 = Ok (r, m') →
            (∀ h', h' ≠ h → hunk_ptr_ m' !! h' = hunk_ptr_ m1 !! h')) as Hsame.
  { intros r m' Halloc h' Hne. destruct (first_fit _ _ al1 _ _) as [i|].
    - destruct Hres as (m'' & Halloc' & _ & Hh'' & _).
      rewrite Halloc in Halloc'. injection Halloc' as _ <-.
      by rewrite Hh'', lookup_insert_ne.
    - destruct Hres as (_ & _ & Halloc'). rewrite Halloc in Halloc'.
      by injection Halloc' as _ <-. }
  assert (∃ r m', alloc fuel h n m0 = Ok (r, m')) as (r & m' & Halloc).
  { destruct (first_fit _ _ al1 _ _) as [i|].
    - destruct Hres as (m'' & Halloc' & _). by eexists _, _.
    - destruct Hres as (_ & _ & Halloc'). by eexists _, _. }
  exists m0, r, m'. split_and!; [exact Hget|exact Halloc|].
  intros Hgone h' Hne.
  assert (hp ≠ h) as Hneh by (intros ->; congruence).
  rewrite (Hsame r m' Halloc hp Hneh) in Hgone. rewrite (Hsame r m' Halloc h' Hne).
  pose proof Hinv1 as [Hr1 [Hb1 Hb1']].
  destruct ll1 as [|x ll1].
  - destruct (hunk_ptr_ m1 !! h') as [y|] eqn:Hy; [|done].
    destruct (Hb1' h' y Hy) as [Hy' _].
    rewrite <- (r_perm _ _ _ Hr1) in Hy'. by apply elem_of_nil in Hy'.
  - exfalso. simpl in Hll. injection Hll as <- _.
    assert (p ∈ al1) as Hp1 by (rewrite <- (r_perm _ _ _ Hr1); set_solver).
    destruct (Hb1 p Hp1) as (h0 & Hh0' & Hb0).
    assert (live (arena m1) p) as Hlive by (by eapply rings_live).
    destruct Hshr as (_ & Hhs & Hls & _). destruct (Hls p Hlive) as (_ & _ & Hhd).
    pose proof (Hhs h0 p Hb0) as Hb0'.
    destruct Hinv0 as [_ [_ Hbd0]].
    destruct (Hbd0 hp p Hhp') as [_ Hc1]. destruct (Hbd0 h0 p Hb0') as [_ Hc2].
    assert (h0 = hp) as -> by congruence. congruence.
Qed.

(** In [arena_900_900] handle 0 holds the less recently used hunk; after an
    access through it, a third request of 900 bytes evicts the hunk of handle
    1 instead. *)
Lemma refreshed_hunk_is_evicted_last_witness :
  ∃ m0 m',
    get_buffer_and_refresh 0 arena_900_900 = Ok (Some (data_ptr 48), m0) ∧
    alloc 3 2 900 m0 = Ok (Some (data_ptr 1008), m') ∧
    hunk_ptr_ m' !! 0%nat = Some 48 ∧ hunk_ptr_ m' !! 1%nat = None.
Proof.
  assert (inv arena_900_900 [48; 1008] [1008; 48]) as Hinv
    by (apply check_inv_sound; vm_compute; reflexivity).
  assert (hunk_ptr_ arena_900_900 !! 0%nat = Some 48) as Hhp by (vm_compute; reflexivity).
  assert (hunk_ptr_ arena_900_900 !! 2%nat = None) as Hh by (vm_compute; reflexivity).
  assert (0 ≤ 900) as Hn by lia.
  assert (mem_arena_ptr_ arena_900_900 + mem_total_size_ arena_900_900 + 900 +
              sizeof_LRUMemoryHunk + ALIGNMENT_MASK < size_t_modulus) as Hov
    by (vm_compute; reflexivity).
  assert (length [48; 1008] < 3)%nat as Hfuel by (simpl; lia).
  destruct (refreshed_hunk_is_evicted_last 3 2 0 900 arena_900_900 _ _ 48
              Hinv Hhp Hh Hn Hov Hfuel) as (m0 & r & m' & Hget & Halloc & Hlast).
  assert (∃ k0 k', get_buffer_and_refresh 0 arena_900_900 = Ok (Some (data_ptr 48), k0) ∧
                   alloc 3 2 900 k0 = Ok (Some (data_ptr 1008), k') ∧
                   hunk_ptr_ k' !! 0%nat = Some 48 ∧ hunk_ptr_ k' !! 1%nat = None)
    as (k0 & k' & Hk0 & Hk' & H0 & H1).
  { eexists _, _. split; [vm_compute; reflexivity|].
    split; [vm_compute; reflexivity|]. split; vm_compute; reflexivity. }
  rewrite Hk0 in Hget. injection Hget as <-.
  rewrite Hk' in Halloc. injection Halloc as <- <-.
  exists k0, k'. split_and!; assumption.
Defined.


(** X11: The consumed size [get_allocated_memory_size] reports is the header of
    the sentinel plus, for every bound handle, the header and the payload
    capacity of its hunk: [free] gives back exactly [size()] plus one header,
    it touches no other handle, and the consumed size never falls below the
    sentinel's or rises above the capacity. *)
Theorem free_gives_back_the_hunk m al ll h p :
  inv m al ll → hunk_ptr_ m !! h = Some p →
  ∃ s m',
    handle_size h m = Ok (s, m) ∧
    free h m = Ok (tt, m') ∧
    get_allocated_memory_size m' =
      get_allocated_memory_size m - (s + sizeof_LRUMemoryHunk) ∧
    sizeof_LRUMemoryHunk ≤ get_allocated_memory_size m' ∧
    get_allocated_memory_size m ≤ mem_total_size_ m ∧
    (∀ h', h' ≠ h → hunk_ptr_ m' !! h' = hunk_ptr_ m !! h').
Proof.
  intros Hinv Hh. pose proof Hinv as [Hr [_ Hb]].
  destruct (Hb h p Hh) as [Hp _].
  pose proof (r_layout _ _ _ Hr) as Hpk. pose proof (r_total _ _ _ Hr) as Ht.
  destruct (packed_elem _ _ _ _ _ Hpk Hp) as (s & Hs & Hlo & Hhi & Hs48 & _).
  destruct (real_free_inv m al ll h p Hinv Hh)
    as (m' & Hfree & [Hr' _] & Hh' & _ & Ha & _).
  exists (s - sizeof_LRUMemoryHunk), m'. unfold get_allocated_memory_size.
  split_and!.
  - unfold handle_size.
    erewrite bind_Ok by (unfold get_hunk_ptr; rewrite Hh; reflexivity).
    exec. rewrite wrap_small; [done|].
    unfold sizeof_LRUMemoryHunk, size_t_modulus in *. lia.
  - exact Hfree.
  - rewrite (Ha s Hs). lia.
  - by destruct (rings_consumed _ _ _ Hr').
  - by destruct (rings_consumed _ _ _ Hr).
  - intros h' Hne. by rewrite Hh', lookup_delete_ne.
Qed.

(** Releasing handle 0 of [arena_250_50]: 256 bytes of payload and 48 bytes
    of header come back. *)
Lemma free_gives_back_the_hunk_witness :
  ∃ m', handle_size 0 arena_250_50 = Ok (256, arena_250_50) ∧
        free 0 arena_250_50 = Ok (tt, m') ∧
        get_allocated_memory_size arena_250_50 = 464 ∧
        get_allocated_memory_size m' = 160.
Proof.
  assert (inv arena_250_50 [48; 352] [352; 48]) as Hinv
    by (apply check_inv_sound; vm_compute; reflexivity).
  assert (hunk_ptr_ arena_250_50 !! 0%nat = Some 48) as Hh by (vm_compute; reflexivity).
  destruct (free_gives_back_the_hunk arena_250_50 _ _ 0 48 Hinv Hh)
    as (s & m' & Hs & Hfree & Ha & _).
  assert (handle_size 0 arena_250_50 = Ok (256, arena_250_50)) as Hs'
    by (vm_compute; reflexivity).
  assert (get_allocated_memory_size arena_250_50 = 464) as Ha0 by (vm_compute; reflexivity).
  assert (s = 256) as ->.
  { rewrite Hs' in Hs. symmetry.
    exact (f_equal (λ r, match r with Ok (x, _) => x | _ => 0 end) Hs). }
  rewrite Ha0 in Ha.
  exists m'. split_and!; [exact Hs'|exact Hfree|exact Ha0|].
  rewrite Ha. vm_compute. reflexivity.
Defined.



Lemma reported_free_app l1 l2 :
  reported_free (l1 ++ l2) = reported_free l1 + reported_free l2.
Proof.
  unfold reported_free. induction l1 as [|[] l1 IH]; simpl in *; lia.
Qed.

Lemma reported_allocated_app l1 l2 :
  reported_allocated (l1 ++ l2) = reported_allocated l1 + reported_allocated l2.
Proof.
  unfold reported_allocated. induction l1 as [|[] l1 IH]; simpl in *; lia.
Qed.

Lemma reported_hunks_app l1 l2 :
  reported_hunks (l1 ++ l2) = reported_hunks l1 ++ reported_hunks l2.
Proof. apply omap_app. Qed.

(** The loop of [debug_dump] from the hunk behind [l1] on. *)
Lemma debug_dump_loop_spec m al ll hs :
  inv m al ll →
  Forall2 (λ h p, hunk_ptr_ m !! h = Some p ∧
                  fld handler_ptr (arena m) p = Some (Some h)) hs al →
  ∀ l2 l1 fuel idx log, al = l1 ++ l2 → (length l2 < fuel)%nat →
  let sz := fld size (arena m) in
  let lo := lend sz sizeof_LRUMemoryHunk l1 in
  ∃ out,
    debug_dump_loop fuel (hs !! length l1) idx log m = Ok (log ++ out, m) ∧
    reported_hunks out = map (λ p, (p, default 0 (sz p))) l2 ∧
    reported_allocated out = footprint sz l2 ∧
    reported_free out = lend sz lo l2 - lo - footprint sz l2.
Proof.
  intros Hinv Hhs. pose proof Hinv as [Hr _].
  destruct (iterator_steps m al ll false hs Hinv Hhs) as (_ & Hend & Hnext).
  induction l2 as [|p l2 IH]; intros l1 fuel idx log Hal Hfuel sz lo.
  - destruct fuel as [|fuel]; [simpl in Hfuel; lia|].
    assert (hs !! length l1 = None) as ->.
    { apply lookup_ge_None. rewrite (Forall2_length _ _ _ Hhs), Hal, app_nil_r. lia. }
    exists []. cbn [debug_dump_loop]. erewrite bind_Ok by exact Hend.
    rewrite decide_True by done. rewrite app_nil_r. simpl. split_and!; [done..|lia].
  - destruct fuel as [|fuel]; [simpl in Hfuel; lia|].
    assert (al !! length l1 = Some p) as Hp.
    { rewrite Hal. by rewrite list_lookup_middle. }
    destruct (Forall2_lookup_r _ _ _ _ _ Hhs Hp) as (h & Hh & Hbp & Hhp).
    pose proof (r_layout _ _ _ Hr) as Hpk. rewrite Hal in Hpk.
    apply packed_split in Hpk as [_ Hpk]. fold sz lo in Hpk.
    destruct Hpk as (s & Hs & Hlo & Hs48 & _ & Hpk').
    pose proof (lend_last_head sz l1 (r_head_size _ _ _ Hr)) as Hlend. fold lo in Hlend.
    assert (live (arena m) (List.last l1 0)) as [k Hk].
    { eapply rings_live_addr; [done|]. rewrite Hal. pose proof (last_elem l1 0). set_solver. }
    assert (sz (List.last l1 0) = Some (size k)) as Hsz by (unfold sz, fld; by rewrite Hk).
    rewrite Hsz in Hlend. simpl in Hlend.
    pose proof (linked_pred _ _ _ _ _ _ _
                  (eq_rect _ (λ l, linked _ _ 0 l 0) (r_addr _ _ _ Hr) _ Hal)) as Hpv.
    assert (lo ≤ p < size_t_modulus) as Hrange.
    { pose proof (r_total _ _ _ Hr).
      assert (p ∈ al) as Hpal by (rewrite Hal; set_solver).
      pose proof (packed_lt _ _ _ _ _ (r_layout _ _ _ Hr) Hpal). lia. }
    assert (sizeof_LRUMemoryHunk ≤ lo) as Hlo48.
    { pose proof (r_layout _ _ _ Hr) as Hpk0. rewrite Hal in Hpk0.
      apply packed_split in Hpk0 as [Hpk0 _]. by apply packed_lend in Hpk0 as [? _]. }
    destruct (IH (l1 ++ [p]) fuel
                (wrap ((if lo <? p then wrap (idx + 1) else idx) + 1))
                ((if lo <? p then log ++ [FreeSpace idx p (p - lo)] else log)
                   ++ [AllocatedSpace (if lo <? p then wrap (idx + 1) else idx) p s]))
      as (out & Hloop & Hhunks & Halloc & Hfree).
    { by rewrite <- app_assoc. }
    { simpl in Hfuel. lia. }
    rewrite length_app in Hloop. simpl in Hloop. rewrite Nat.add_1_r in Hloop.
    rewrite lend_snoc in Hfree. fold sz in Hfree. rewrite Hs in Hfree. simpl in Hfree.
    fold sz in Hhunks, Halloc.
    exists ((if lo <? p then [FreeSpace idx p (p - lo)] else [])
              ++ [AllocatedSpace (if lo <? p then wrap (idx + 1) else idx) p s] ++ out).
    split_and!.
    + rewrite Hh. cbn [debug_dump_loop]. erewrite bind_Ok by exact Hend.
      rewrite decide_False by done.
      erewrite bind_Ok by reflexivity.
      erewrite bind_Ok by (unfold get_hunk_ptr; rewrite Hbp; reflexivity).
      erewrite bind_Ok by reflexivity.
      erewrite bind_Ok by (by apply read_Ok).
      erewrite bind_Ok by reflexivity.
      erewrite bind_Ok by (by apply read_Ok).
      cbn zeta. rewrite <- Hlend.
      erewrite bind_Ok by (by apply read_Ok).
      erewrite bind_Ok by (exact (Hnext _ _ Hh)).
      replace (wrap (p - List.last l1 0 - size k)) with (p - lo)
        by (rewrite wrap_small; unfold sizeof_LRUMemoryHunk in *; lia).
      rewrite Hloop. do 2 f_equal.
      destruct (lo <? p); by rewrite <- ?app_assoc.
    + rewrite reported_hunks_app, reported_hunks_app, Hhunks. cbn [map]. fold sz.
      rewrite Hs. by destruct (lo <? p).
    + rewrite reported_allocated_app, reported_allocated_app, Halloc. cbn [footprint].
      rewrite Hs. destruct (lo <? p); simpl; lia.
    + rewrite reported_free_app, reported_free_app, Hfree. cbn [footprint lend].
      rewrite Hs. simpl. destruct (Z.ltb_spec lo p); simpl; lia.
Qed.

(** X13: [debug_dump] accounts for the whole pool.  It lists every live hunk
    once, in ascending address order, with its size; the sizes it reports as
    allocated add up, with the header of the sentinel, to the consumed size,
    and the sizes it reports as free, between hunks and behind the last one,
    add up to the capacity less the consumed size.  Its last line gives the
    consumed size and the capacity.  Nothing is written. *)
Theorem debug_dump_accounts_for_pool fuel m al ll :
  inv m al ll → (length al < fuel)%nat →
  ∃ log,
    debug_dump fuel m = Ok (log, m) ∧
    reported_hunks log = map (λ p, (p, default 0 (fld size (arena m) p))) al ∧
    reported_allocated log + sizeof_LRUMemoryHunk = get_allocated_memory_size m ∧
    reported_free log = mem_total_size_ m - get_allocated_memory_size m ∧
    last log = Some (UsedMemory (get_allocated_memory_size m) (mem_total_size_ m)).
Proof.
  intros Hinv Hfuel. pose proof Hinv as [Hr [Hb _]].
  destruct (handles_of m al al (proj2 Hinv) (λ x Hx, Hx)) as [hs Hhs].
  destruct (iterator_steps m al ll false hs Hinv Hhs) as (Hbegin & _ & _).
  destruct (debug_dump_loop_spec m al ll hs Hinv Hhs al [] fuel 0 [PoolDumpHeader]
              eq_refl Hfuel) as (out & Hloop & Hhunks & Halloc & Hfree).
  simpl in Hloop. cbn [lend] in Hfree.
  set (sz := fld size (arena m)) in *.
  pose proof (lend_last_head sz al (r_head_size _ _ _ Hr)) as Hlend.
  assert (live (arena m) (List.last al 0)) as [k Hk].
  { eapply rings_live_addr; [done|]. apply last_elem. }
  assert (sz (List.last al 0) = Some (size k)) as Hsz by (unfold sz, fld; by rewrite Hk).
  rewrite Hsz in Hlend. simpl in Hlend.
  pose proof (linked_last _ _ _ _ _ (r_addr _ _ _ Hr)) as Hpv.
  pose proof (packed_lend _ _ _ _ (r_layout _ _ _ Hr)) as [_ Hhi]. fold sz in Hhi.
  set (lo := lend sz sizeof_LRUMemoryHunk al) in *.
  exists ((PoolDumpHeader :: out)
            ++ (if lo <? mem_total_size_ m
                then [LeadingFreeSpace lo (mem_total_size_ m - lo)] else [])
            ++ [UsedMemory (mem_allocated_size_ m) (mem_total_size_ m)]).
  unfold get_allocated_memory_size. rewrite (r_allocated _ _ _ Hr). fold sz.
  split_and!.
  - unfold debug_dump, get_head_hunk. erewrite bind_Ok by exact Hbegin.
    erewrite bind_Ok by exact Hloop.
    erewrite bind_Ok by (by apply read_Ok).
    erewrite bind_Ok by reflexivity.
    erewrite bind_Ok by (by apply read_Ok).
    erewrite bind_Ok by reflexivity.
    erewrite bind_Ok by reflexivity.
    cbn zeta. rewrite <- Hlend, Z.add_0_l. unfold ret. do 2 f_equal.
    rewrite (r_allocated _ _ _ Hr). fold sz.
    destruct (lo <? mem_total_size_ m); by rewrite <- ?app_assoc.
  - rewrite reported_hunks_app, reported_hunks_app.
    change (reported_hunks (PoolDumpHeader :: out)) with (reported_hunks out).
    rewrite Hhunks.
    destruct (lo <? mem_total_size_ m); simpl; by rewrite app_nil_r.
  - rewrite reported_allocated_app, reported_allocated_app.
    change (reported_allocated (PoolDumpHeader :: out)) with (reported_allocated out).
    rewrite Halloc. destruct (lo <? mem_total_size_ m); simpl; lia.
  - rewrite reported_free_app, reported_free_app.
    change (reported_free (PoolDumpHeader :: out)) with (reported_free out).
    rewrite Hfree. destruct (Z.ltb_spec lo (mem_total_size_ m)); simpl; lia.
  - rewrite app_assoc. apply last_snoc.
Qed.

(** The dump of [arena_gap]: two hunks, a gap of 208 bytes between them and
    1376 bytes free behind the second. *)
Lemma debug_dump_accounts_for_pool_witness :
  debug_dump 3 arena_gap =
    Ok ([PoolDumpHeader; AllocatedSpace 0 48 304; FreeSpace 1 560 208;
         AllocatedSpace 2 560 112; LeadingFreeSpace 672 1376; UsedMemory 464 2048],
        arena_gap) ∧
  ∃ log, debug_dump 3 arena_gap = Ok (log, arena_gap) ∧
         reported_free log = mem_total_size_ arena_gap - get_allocated_memory_size arena_gap.
Proof.
  assert (inv arena_gap [48; 560] [560; 48]) as Hinv
    by (apply check_inv_sound; vm_compute; reflexivity).
  assert (length [48; 560] < 3)%nat as Hfuel by (simpl; lia).
  split; [vm_compute; reflexivity|].
  destruct (debug_dump_accounts_for_pool 3 arena_gap _ _ Hinv Hfuel)
    as (log & Hdump & _ & _ & Hfree & _).
  exists log. split; [exact Hdump|exact Hfree].
Defined.

(** X14: Iteration in recency order starts at the handle used last: after an
    access through a bound handle, and after a successful [alloc] for an
    unbound handle with a size that overflows neither [size_t] nor a
    pointer into the arena, [begin()] is the
    iterator at that handle. *)
Theorem begin_is_the_handle_used_last fuel h n m al ll :
  inv m al ll →
  match hunk_ptr_ m !! h with
  | Some p =>
    ∃ m', get_buffer_and_refresh h m = Ok (Some (data_ptr p), m') ∧
          begin_ true m' = Ok (Some h, m')
  | None =>
    0 ≤ n →
    mem_arena_ptr_ m + mem_total_size_ m + n + sizeof_LRUMemoryHunk + ALIGNMENT_MASK
      < size_t_modulus →
    (length al < fuel)%nat →
    ∃ r m', alloc fuel h n m = Ok (r, m') ∧
            (is_Some r → begin_ true m' = Ok (Some h, m'))
  end.
Proof.
  intros Hinv.
  assert (∀ m' al' l' p, inv m' al' (p :: l') → hunk_ptr_ m' !! h = Some p →
                         begin_ true m' = Ok (Some h, m')) as Hbegin.
  { intros m' al' l' p Hinv' Hb'. pose proof Hinv' as [Hr' [_ Hbd]].
    destruct (Hbd h p Hb') as [_ Hhd].
    pose proof (linked_first _ _ _ _ _ (r_lru _ _ _ Hr')) as Hfirst. simpl in Hfirst.
    unfold begin_, get_head_hunk. exec. }
  destruct (hunk_ptr_ m !! h) as [p|] eqn:Hh.
  - destruct (real_get_buffer_spec m al ll h p Hinv Hh)
      as (m' & k1 & k2 & _ & Hget & Hinv' & Hh' & _).
    exists m'. split; [exact Hget|].
    eapply Hbegin; [exact Hinv'|]. by rewrite Hh'.
  - intros Hn Hnw Hfuel.
    destruct (no_wrap_aligned m al ll n (proj1 Hinv) Hn Hnw) as [Hov _].
    destruct (alloc_unbound_spec fuel h n m al ll Hinv Hh Hn Hov Hfuel (or_intror Hnw))
      as (m1 & al1 & ll1 & ev & _ & _ & _ & _ & _ & _ & _ & Hres).
    destruct (first_fit _ _ al1 _ _) as [i|].
    + destruct Hres as (m' & Halloc & Hinv' & Hh' & _).
      eexists _, m'. split; [exact Halloc|]. intros _.
      eapply Hbegin; [exact Hinv'|]. by rewrite Hh', lookup_insert_eq.
    + destruct Hres as (_ & _ & Halloc). exists None, m1. split; [exact Halloc|].
      by intros [? ?].
Qed.

(** In [arena_900_900], an access through handle 0, and a request for
    handle 2. *)
Lemma begin_is_the_handle_used_last_witness :
  (∃ m', get_buffer_and_refresh 0 arena_900_900 = Ok (Some (data_ptr 48), m') ∧
         begin_ true m' = Ok (Some 0%nat, m')) ∧
  (∃ m', alloc 3 2 900 arena_900_900 = Ok (Some (data_ptr 48), m') ∧
         begin_ true m' = Ok (Some 2%nat, m')).
Proof.
  assert (inv arena_900_900 [48; 1008] [1008; 48]) as Hinv
    by (apply check_inv_sound; vm_compute; reflexivity).
  split.
  - pose proof (begin_is_the_handle_used_last 3 0 900 arena_900_900 _ _ Hinv) as Hthm.
    assert (hunk_ptr_ arena_900_900 !! 0%nat = Some 48) as Hh by (vm_compute; reflexivity).
    rewrite Hh in Hthm. exact Hthm.
  - pose proof (begin_is_the_handle_used_last 3 2 900 arena_900_900 _ _ Hinv) as Hthm.
    assert (hunk_ptr_ arena_900_900 !! 2%nat = None) as Hh by (vm_compute; reflexivity).
    rewrite Hh in Hthm.
    destruct Hthm as (r & m' & Halloc & Hbegin);
      [lia|vm_compute; reflexivity|simpl; lia|].
    assert (∃ m0, alloc 3 2 900 arena_900_900 = Ok (Some (data_ptr 48), m0)) as [m0 Hm0]
      by (eexists; vm_compute; reflexivity).
    rewrite Hm0 in Halloc. injection Halloc as <- <-.
    exists m0. split; [exact Hm0|]. apply Hbegin. exists (data_ptr 48). reflexivity.
Defined.

(** X15: [flush] is idempotent, and what it leaves is as good as new: a second
    [flush] changes nothing, the consumed size is the sentinel's header, and
    the manager is the one the constructor returns for the same capacity
    and the same block of memory. *)
Theorem flush_is_idempotent fuel fuel' m al ll :
  inv m al ll → (length al < fuel)%nat → (0 < fuel')%nat →
  ∃ m', flush fuel m = Ok (tt, m') ∧
        flush fuel' m' = Ok (tt, m') ∧
        get_allocated_memory_size m' = sizeof_LRUMemoryHunk ∧
        construct (mem_total_size_ m) (Some (mem_arena_ptr_ m)) = Ok m'.
Proof.
  intros Hinv Hfuel Hfuel'. pose proof Hinv as [Hr _].
  pose proof (rings_consumed _ _ _ Hr) as [Hc1 Hc2]. pose proof (r_total _ _ _ Hr) as Ht.
  pose proof (r_block _ _ _ Hr) as [Hb1 Hb2].
  assert (inv (empty_arena (mem_arena_ptr_ m) (mem_total_size_ m)) [] []) as Hinv'
    by (apply inv_empty_arena; lia).
  exists (empty_arena (mem_arena_ptr_ m) (mem_total_size_ m)). split_and!.
  - by eapply flush_spec.
  - exact (flush_spec fuel' (empty_arena (mem_arena_ptr_ m) (mem_total_size_ m)) [] [] Hinv' Hfuel').
  - reflexivity.
  - apply construct_empty. unfold sizeof_LRUMemoryHunk in *. lia.
Qed.

(** [flush] of [arena_900_900], twice. *)
Lemma flush_is_idempotent_witness :
  ∃ m', flush 3 arena_900_900 = Ok (tt, m') ∧
        flush 1 m' = Ok (tt, m') ∧
        construct 2048 (Some 65536) = Ok m'.
Proof.
  assert (inv arena_900_900 [48; 1008] [1008; 48]) as Hinv
    by (apply check_inv_sound; vm_compute; reflexivity).
  assert (length [48; 1008] < 3)%nat as Hfuel by (simpl; lia).
  assert (0 < 1)%nat as Hfuel' by lia.
  destruct (flush_is_idempotent 3 1 arena_900_900 _ _ Hinv Hfuel Hfuel')
    as (m' & Hflush & Hagain & _ & Hnew).
  exists m'. split_and!; [exact Hflush|exact Hagain|exact Hnew].
Defined.

(** X16: First fit, for a request that overflows neither [size_t] nor a
    pointer into the arena: the aligned size is [n + header size] rounded up
    to a multiple of 16, and [alloc] places first-fit: if gap [i] of the
    address ring (counted from the sentinel; gap [length al] is the one
    between the last hunk and the end of the arena) is the first that takes
    the aligned size, the hunk goes to the low edge of that gap and becomes
    hunk [i] of the address ring, whatever larger or tighter gaps come later.
    If no gap takes it, the pass returns null and leaves the state alone. *)
Theorem alloc_first_fit_in_range fuel h n m al ll :
  inv m al ll →
  0 ≤ n →
  mem_arena_ptr_ m + mem_total_size_ m + n + sizeof_LRUMemoryHunk + ALIGNMENT_MASK
    < size_t_modulus →
  (length al < fuel)%nat →
  aligned_size n = round_up (n + sizeof_LRUMemoryHunk) MEMORY_ALIGNMENT ∧
  (∀ i,
     (i ≤ length al)%nat →
     gap_fits (fld size (arena m)) sizeof_LRUMemoryHunk al (mem_total_size_ m)
              (aligned_size n) i →
     (∀ j, (j < i)%nat →
           ¬ gap_fits (fld size (arena m)) sizeof_LRUMemoryHunk al (mem_total_size_ m)
                      (aligned_size n) j) →
     ∃ m',
       alloc fuel h n m =
         Ok (Some (gap_start (fld size (arena m)) sizeof_LRUMemoryHunk al i
                   + sizeof_LRUMemoryHunk), m') ∧
       rings m'
         (take i al ++ gap_start (fld size (arena m)) sizeof_LRUMemoryHunk al i :: drop i al)
         (gap_start (fld size (arena m)) sizeof_LRUMemoryHunk al i :: ll) ∧
       fld size (arena m') (gap_start (fld size (arena m)) sizeof_LRUMemoryHunk al i)
         = Some (aligned_size n) ∧
       hunk_ptr_ m' !! h = Some (gap_start (fld size (arena m)) sizeof_LRUMemoryHunk al i)) ∧
  ((∀ i, (i ≤ length al)%nat →
         ¬ gap_fits (fld size (arena m)) sizeof_LRUMemoryHunk al (mem_total_size_ m)
                    (aligned_size n) i) →
   try_alloc fuel (aligned_size n) m = Ok (None, m)).
Proof.
  intros [Hr Hb] Hn Hnw Hfuel.
  destruct (no_wrap_aligned m al ll n Hr Hn Hnw) as [Hov Hnw'].
  destruct (aligned_size_in_range n Hn Hov) as (Hround & _ & Ha48 & Ha16).
  pose proof (aligned_size_nonneg n) as Ha0.
  split_and!; [done| |].
  - intros i Hi Hfit Hfirst.
    assert (first_fit (fld size (arena m)) sizeof_LRUMemoryHunk al (mem_total_size_ m)
              (aligned_size n) = Some i) as Hff by (by apply first_fit_Some).
    destruct fuel as [|fuel]; [lia|].
    destruct (real_alloc_pass_spec (S fuel) h (aligned_size n) m al ll i Hr Ha48 Ha16 Hfuel Hff)
      as (m' & Hpass & Hr' & Hh' & _ & _ & _ & _ & Hsp & _).
    exists m'. unfold alloc, real_alloc.
    rewrite (real_alloc_loop_fits fuel (S fuel) h (aligned_size n) m al ll i) by done.
    split_and!; try done. rewrite Hh'. apply lookup_insert_eq.
  - intros Hnone.
    rewrite (try_alloc_first_fit m al ll (aligned_size n) fuel Hr Ha0 Hfuel (or_intror Hnw')).
    by rewrite (proj2 (first_fit_None _ _ _ _ _) Hnone).
Qed.

(** A request of 100 bytes in [arena_gap]: the gap of 208 bytes between the
    hunks is the first that fits, and the hunk is placed at its low edge,
    352, although the gap at the end would take it too. *)
Lemma alloc_first_fit_in_range_witness :
  inv arena_gap [48; 560] [560; 48] ∧
  aligned_size 100 = round_up (100 + sizeof_LRUMemoryHunk) MEMORY_ALIGNMENT ∧
  ∃ m', alloc 4 3 100 arena_gap = Ok (Some 400, m') ∧
        rings m' [48; 352; 560] [352; 560; 48] ∧
        hunk_ptr_ m' !! 3%nat = Some 352.
Proof.
  assert (inv arena_gap [48; 560] [560; 48]) as Hinv
    by (apply check_inv_sound; vm_compute; reflexivity).
  destruct (alloc_first_fit_in_range 4 3 100 arena_gap _ _ Hinv) as (Hround & Hfit & _).
  - lia.
  - vm_compute. reflexivity.
  - simpl. lia.
  - split_and!; [exact Hinv|exact Hround|].
    destruct (Hfit 1%nat) as (m' & Halloc & Hr' & _ & Hh').
    + simpl. lia.
    + vm_compute. discriminate.
    + intros j Hj. assert (j = 0%nat) as -> by lia. vm_compute. intros Hle. by apply Hle.
    + exists m'. split_and!; [exact Halloc|exact Hr'|exact Hh'].
Defined.

(** X17: Well-formedness is kept.  For a pool that has room for the sentinel
    the arena is well formed after construction, and every public operation
    that honours its contract takes a well-formed arena to a well-formed
    one: [alloc] with an unbound handle and a size that overflows neither
    [size_t] nor a pointer into the arena, [free] with a bound handle,
    [get_buffer_and_refresh] and [flush].  Well formed: the hunks of the
    address ring lie in strictly ascending address order behind the sentinel
    without overlap, every size is a multiple of 16 and at least the
    header's, hunks and handles point at each other, and the consumed size
    is at most the capacity. *)
Theorem operations_keep_arena_well_formed :
  (∀ total base,
     sizeof_LRUMemoryHunk ≤ total → 0 < base → base + total < size_t_modulus →
     ∃ m, construct total (Some base) = Ok m ∧ inv m [] [] ∧ arena_ok m []) ∧
  (∀ fuel h n m al ll,
     inv m al ll → hunk_ptr_ m !! h = None →
     0 ≤ n →
     mem_arena_ptr_ m + mem_total_size_ m + n + sizeof_LRUMemoryHunk + ALIGNMENT_MASK
       < size_t_modulus →
     (length al < fuel)%nat →
     ∃ r m' al' ll', alloc fuel h n m = Ok (r, m') ∧ inv m' al' ll' ∧ arena_ok m' al') ∧
  (∀ h m al ll,
     inv m al ll → is_Some (hunk_ptr_ m !! h) →
     ∃ m' al' ll', free h m = Ok (tt, m') ∧ inv m' al' ll' ∧ arena_ok m' al') ∧
  (∀ h m al ll,
     inv m al ll →
     ∃ r m' ll', get_buffer_and_refresh h m = Ok (r, m') ∧ inv m' al ll' ∧ arena_ok m' al) ∧
  (∀ fuel m al ll,
     inv m al ll → (length al < fuel)%nat →
     ∃ m', flush fuel m = Ok (tt, m') ∧ inv m' [] [] ∧ arena_ok m' []).
Proof.
  split_and!.
  - intros total base Ht Hb Hbt. exists (empty_arena base total).
    pose proof (inv_empty_arena base total Ht Hb Hbt) as Hinv.
    split_and!; [|done|by eapply rings_arena_ok, Hinv].
    by apply construct_empty.
  - intros fuel h n m al ll Hinv Hh Hn Hov Hfuel.
    destruct (real_alloc_spec fuel h n m al ll Hinv Hn Hov Hfuel)
      as (m1 & al1 & ll1 & ev & Hinv1 & Hll & Hsub & Hshr & Hev & Hres).
    destruct (first_fit _ _ _ _ _) as [i|] eqn:Hff.
    + destruct Hres as (m' & Halloc & Hr' & Hh' & Ht' & Hfresh & Hhp & Hsp & Hhx & Hsx).
      eexists _, m', _, _. split; [exact Halloc|].
      split; [|by eapply rings_arena_ok]. split; [done|].
      destruct Hinv1 as [Hr1 Hb1].
      eapply (bound_after_bind m1 m' al1); try done.
      * destruct (hunk_ptr_ m1 !! h) as [x|] eqn:Hx; [|done].
        destruct Hshr as (_ & Hm & _). apply Hm in Hx. congruence.
      * intros x. apply elem_of_take_drop_insert.
      * intros Hp. apply Hfresh. by eapply rings_live.
    + destruct Hres as [-> Halloc]. pose proof Hinv1 as [Hr1 _].
      exists None, m1, al1, []. split_and!; [done..|by eapply rings_arena_ok].
  - intros h m al ll Hinv [p Hp].
    destruct (real_free_inv m al ll h p Hinv Hp) as (m' & Hfree & Hinv' & _).
    exists m', (without p al), (without p ll). pose proof Hinv' as [Hr' _].
    split_and!; [done..|by eapply rings_arena_ok].
  - intros h m al ll Hinv.
    pose proof (get_buffer_and_refresh_spec_total m al ll h Hinv) as (r & m' & ll' & Hget & Hinv').
    exists r, m', ll'. pose proof Hinv' as [Hr' _].
    split_and!; [done..|by eapply rings_arena_ok].
  - intros fuel m al ll Hinv Hfuel.
    exists (empty_arena (mem_arena_ptr_ m) (mem_total_size_ m)).
    destruct Hinv as [Hr Hb].
    assert (inv (empty_arena (mem_arena_ptr_ m) (mem_total_size_ m)) [] []) as Hinv'.
    { pose proof (rings_consumed _ _ _ Hr). pose proof (r_block _ _ _ Hr) as [? ?].
      apply inv_empty_arena; lia. }
    split_and!; [by eapply flush_spec|done|]. destruct Hinv' as [Hr' _].
    by eapply rings_arena_ok.
Qed.

(** A pool of 2048 bytes: construction, then each operation on the arena
    that holds two requests of 900 bytes. *)
Lemma operations_keep_arena_well_formed_witness :
  (∃ m, construct 2048 (Some 65536) = Ok m ∧ arena_ok m []) ∧
  (∃ r m' al', alloc 3 2 900 arena_900_900 = Ok (r, m') ∧ arena_ok m' al') ∧
  (∃ m' al', free 0 arena_900_900 = Ok (tt, m') ∧ arena_ok m' al') ∧
  (∃ r m', get_buffer_and_refresh 0 arena_900_900 = Ok (r, m') ∧
           arena_ok m' [48; 1008]) ∧
  (∃ m', flush 3 arena_900_900 = Ok (tt, m') ∧ arena_ok m' []).
Proof.
  assert (inv arena_900_900 [48; 1008] [1008; 48]) as Hinv
    by (apply check_inv_sound; vm_compute; reflexivity).
  assert (length [48; 1008] < 3)%nat as Hfuel by (simpl; lia).
  destruct operations_keep_arena_well_formed as (Hnew & Halloc & Hfree & Hget & Hflush).
  split_and!.
  - destruct (Hnew 2048 65536) as (m & Hm & _ & Hok);
      [vm_compute; discriminate|lia|vm_compute; reflexivity|].
    exists m. split; [exact Hm|exact Hok].
  - destruct (Halloc 3%nat 2%nat 900 arena_900_900 _ _ Hinv)
      as (r & m' & al' & ll' & Hm & _ & Hok);
      [vm_compute; reflexivity|lia|vm_compute; reflexivity|exact Hfuel|].
    exists r, m', al'. split; [exact Hm|exact Hok].
  - destruct (Hfree 0%nat arena_900_900 _ _ Hinv) as (m' & al' & ll' & Hm & _ & Hok);
      [exists 48; vm_compute; reflexivity|].
    exists m', al'. split; [exact Hm|exact Hok].
  - destruct (Hget 0%nat arena_900_900 _ _ Hinv) as (r & m' & ll' & Hm & _ & Hok).
    exists r, m'. split; [exact Hm|exact Hok].
  - destruct (Hflush 3%nat arena_900_900 _ _ Hinv Hfuel) as (m' & Hm & _ & Hok).
    exists m'. split; [exact Hm|exact Hok].
Defined.

(** X18: The evict-then-retry loop comes to an end, in at most one pass more
    than there are live hunks: with that much fuel the call never runs out
    of it, whatever the request size, and more fuel does not change its
    answer.  A pass that returns null ends the call with a failure when no
    hunk is live, and otherwise releases exactly one hunk and goes on with
    the rest of the fuel.  For a request that overflows neither [size_t] nor
    a pointer into the arena, the call ends in success or in failure. *)
Theorem alloc_loop_is_bounded fuel h n m al ll :
  inv m al ll → (length al < fuel)%nat →
  finished (alloc fuel h n m) ∧
  (∀ fuel', (length al < fuel')%nat → alloc fuel' h n m = alloc fuel h n m) ∧
  (∀ walk passes a,
     0 ≤ a → (length al < walk)%nat → try_alloc walk a m = Ok (None, m) →
     match ll with
     | [] => real_alloc_loop (S passes) walk h a m = Ok (None, m)
     | _ :: _ =>
       ∃ hv m',
         real_free hv m = Ok (tt, m') ∧
         inv m' (without (List.last ll 0) al) (removelast ll) ∧
         S (length (without (List.last ll 0) al)) = length al ∧
         real_alloc_loop (S passes) walk h a m = real_alloc_loop passes walk h a m'
     end) ∧
  (0 ≤ n →
   mem_arena_ptr_ m + mem_total_size_ m + n + sizeof_LRUMemoryHunk + ALIGNMENT_MASK
     < size_t_modulus →
   ∃ r m', alloc fuel h n m = Ok (r, m')).
Proof.
  intros Hinv Hfuel.
  pose proof (aligned_size_nonneg n) as Ha0.
  assert (length ll < fuel)%nat as Hfuel' by (by rewrite (inv_length _ _ _ Hinv)).
  split_and!.
  - unfold alloc, real_alloc.
    by apply (real_alloc_loop_fuel h (aligned_size n) fuel fuel fuel fuel m al ll).
  - intros fuel' Hf'. unfold alloc, real_alloc.
    apply (real_alloc_loop_fuel h (aligned_size n) fuel' fuel fuel' fuel m al ll);
      try done. by rewrite (inv_length _ _ _ Hinv).
  - intros walk passes a Ha Hwalk Htry.
    destruct ll as [|v0 ll0]; [by eapply real_alloc_loop_give_up|].
    destruct (exists_last (l:=v0 :: ll0)) as (ll' & v & Heq); [done|].
    rewrite Heq in *. rewrite last_last, removelast_last.
    destruct (evict_spec m al ll' v Hinv)
      as (hv & m' & _ & _ & Hhv & _ & Hfree & Hinv' & _).
    exists hv, m'. split_and!; [done|done| |by eapply real_alloc_loop_evict].
    rewrite <- (inv_length _ _ _ Hinv'), <- (inv_length _ _ _ Hinv).
    rewrite length_app. simpl. lia.
  - intros Hn Hov.
    destruct (real_alloc_spec fuel h n m al ll Hinv Hn Hov Hfuel)
      as (m1 & al1 & ll1 & ev & _ & _ & _ & _ & _ & Hres).
    destruct (first_fit _ _ _ _ _) as [i|].
    + destruct Hres as (m' & Halloc & _). eauto.
    + destruct Hres as [_ Halloc]. eauto.
Qed.

(** A third request of 900 bytes in a pool of 2048 bytes that holds two:
    three units of fuel are enough, and four give the same answer. *)
Lemma alloc_loop_is_bounded_witness :
  inv arena_900_900 [48; 1008] [1008; 48] ∧
  finished (alloc 3 2 900 arena_900_900) ∧
  alloc 4 2 900 arena_900_900 = alloc 3 2 900 arena_900_900 ∧
  ∃ r m', alloc 3 2 900 arena_900_900 = Ok (r, m').
Proof.
  assert (inv arena_900_900 [48; 1008] [1008; 48]) as Hinv
    by (apply check_inv_sound; vm_compute; reflexivity).
  assert (length [48; 1008] < 3)%nat as Hfuel by (simpl; lia).
  destruct (alloc_loop_is_bounded 3 2 900 arena_900_900 _ _ Hinv Hfuel)
    as (Hfin & Hsame & _ & Hok).
  split_and!; [exact Hinv|exact Hfin| |].
  - apply Hsame. simpl. lia.
  - apply Hok; [lia|vm_compute; reflexivity].
Defined.
